(** * MFCG: the [Vec3<T>] vector template and its free functions

    A shallow embedding of the two headers of the repository:
    - the documented header (namespace [mfcg]): the class template
      [Vec3<T>] with its constructors, methods and operators, the typedefs
      [Vec3f], [Vec3i], [Vec3d], and the free functions [magnitude],
      [sqrMagnitude], [normalize], [dot], [cross];
    - [MFCG/include/Vec3.h] (namespace [MFCG]): the minimal class template
      with the three constructors only.

    The template parameter [T] is an interface ([Scalar]) listing exactly the
    operations the template bodies apply to values of type [T].  It is
    instantiated at the three types of the typedefs ([int], [float], [double])
    and, for the statements about exact arithmetic, at the real numbers.

    Objects live in a store indexed by locations: a C++ reference is a
    location, a method receives the location of [*this], and a mutation is a
    store update.  Functions are computations in a state-and-fault monad. *)

From Stdlib Require Import ZArith Reals Lra Lia Psatz Floats.
From stdpp Require Import base option gmap.

(** ** The scalar interface of the template parameter [T] *)

(** What the bodies of [Vec3<T>] do with a [T]:
    - [of_int n]: the conversion of an [int] constant to [T], as in [T(0)],
      in [len > 0], in [1 / len] and in a call [v * -1];
    - [tadd], [tsub], [tmul]: the operators [+], [-], [*] on [T];
    - [tdiv]: the operator [/] on [T]; [None] when the division traps
      (integer division by zero or overflowing);
    - [tsqrt]: the call [sqrt(e)] on an argument [e] of type [T] with the
      result converted back to [T] (by the [return] of a function returning
      [T], or by the initialisation of [T len]);
    - [tgt]: the comparison [>] on [T]. *)
Class Scalar (T : Type) : Type := {
  of_int : Z → T;
  tadd : T → T → T;
  tsub : T → T → T;
  tmul : T → T → T;
  tdiv : T → T → option T;
  tsqrt : T → T;
  tgt : T → T → bool;
}.

Declare Scope scalar_scope.
Delimit Scope scalar_scope with S.
Infix "+" := tadd : scalar_scope.
Infix "-" := tsub : scalar_scope.
Infix "*" := tmul : scalar_scope.

(** *** [T = int]: 32-bit two's-complement integers

    The carrier is [Z]; every operation returns a value in
    [[min_int, max_int]].  Overflow of [+], [-], [*] wraps around (the
    language leaves it undefined; wrap-around is what the arithmetic
    instructions produce).  Division truncates toward zero and traps on a
    zero divisor and on [min_int / -1]. *)
Module Int32.
Definition min_int : Z := - 2 ^ 31.
Definition max_int : Z := 2 ^ 31 - 1.

Definition wrap (n : Z) : Z := ((n + 2 ^ 31) mod 2 ^ 32 - 2 ^ 31)%Z.

Definition add (a b : Z) : Z := wrap (a + b).
Definition sub (a b : Z) : Z := wrap (a - b).
Definition mul (a b : Z) : Z := wrap (a * b).

Definition div (a b : Z) : option Z :=
    if (b =? 0)%Z then None
    else if ((a =? min_int) && (b =? -1))%Z then None
    else Some (Z.quot a b).

Definition gt (a b : Z) : bool := (b <? a)%Z.

(** [int] to [double]: exact, every 32-bit integer is a binary64 number. *)
Definition to_double (n : Z) : float :=
    if (n <? 0)%Z then PrimFloat.opp (of_uint63 (Uint63.of_Z (- n)))
    else of_uint63 (Uint63.of_Z n).

(** [double] to [int]: truncation toward zero.  For a NaN, an infinity or
      a value out of range the language leaves the result undefined; the
      model returns [min_int], the value the x86 conversion instruction
      produces. *)
Definition of_double (f : float) : Z :=
    match Prim2SF f with
    | S754_zero _ => 0
    | S754_finite s m e =>
        let t := if (0 <=? e)%Z then (Z.pos m * 2 ^ e)%Z
                 else (Z.pos m / 2 ^ (- e))%Z in
        let r := if s then (- t)%Z else t in
        if ((min_int <=? r) && (r <=? max_int))%Z then r else min_int
    | S754_infinity _ | S754_nan => min_int
    end.

(** [sqrt(e)] with [e] of type [int] is the [double] square root of [e]
      converted to [double]; its result is converted back to [int]. *)
Definition sqrt (n : Z) : Z := of_double (PrimFloat.sqrt (to_double n)).
End Int32.

(** *** [T = float]: IEEE 754 binary32, round to nearest even

    The carrier is [spec_float] with the operations of the standard
    library's specification of IEEE arithmetic at precision 24 and maximal
    exponent 128; the values of type [float] are the [valid] ones.  Every
    operation of an expression rounds once (no contraction of [a * b + c]
    into a fused multiply-add).  Division never traps.  Whether [sqrt]
    resolves to the [float] or to the [double] overload, the value assigned
    to a [float] is the correctly rounded binary32 square root. *)
Module Binary32.
Definition prec : Z := 24.
Definition emax : Z := 128.

Definition of_Z (n : Z) : spec_float := binary_normalize prec emax n 0 false.
Definition add := SFadd prec emax.
Definition sub := SFsub prec emax.
Definition mul := SFmul prec emax.
Definition div (a b : spec_float) : option spec_float := Some (SFdiv prec emax a b).
Definition sqrt := SFsqrt prec emax.
Definition gt (a b : spec_float) : bool := SFltb b a.

(** The values of type [float]: the valid binary32 numbers. *)
Definition valid (a : spec_float) : Prop :=
  SpecFloat.valid_binary prec emax a = true.
End Binary32.

(** *** [T = double]: IEEE 754 binary64, the primitive floats

    Round to nearest even, every operation rounding once; division never
    traps.  [of_Z] converts an [int] constant (exactly). *)
Module Binary64.
Definition of_Z (n : Z) : float :=
    if (n <? 0)%Z then PrimFloat.opp (of_uint63 (Uint63.of_Z (- n)))
    else of_uint63 (Uint63.of_Z n).
Definition div (a b : float) : option float := Some (PrimFloat.div a b).
Definition gt (a b : float) : bool := PrimFloat.ltb b a.
End Binary64.

(** *** Exact arithmetic: the real numbers

    Not a type the program is instantiated at: the idealisation that the
    statements "over exact arithmetic" are about. *)
Module Exact.
Definition div (a b : R) : option R :=
    if Req_dec_T b 0 then None else Some (a / b)%R.
Definition gt (a b : R) : bool := if Rlt_dec b a then true else false.
End Exact.

Definition c_int : Type := Z.
Definition c_float : Type := spec_float.
Definition c_double : Type := float.

#[export] Instance int_Scalar : Scalar c_int := {|
  of_int := Int32.wrap;
  tadd := Int32.add; tsub := Int32.sub; tmul := Int32.mul;
  tdiv := Int32.div; tsqrt := Int32.sqrt; tgt := Int32.gt |}.

#[export] Instance float_Scalar : Scalar c_float := {|
  of_int := Binary32.of_Z;
  tadd := Binary32.add; tsub := Binary32.sub; tmul := Binary32.mul;
  tdiv := Binary32.div; tsqrt := Binary32.sqrt; tgt := Binary32.gt |}.

#[export] Instance double_Scalar : Scalar c_double := {|
  of_int := Binary64.of_Z;
  tadd := PrimFloat.add; tsub := PrimFloat.sub; tmul := PrimFloat.mul;
  tdiv := Binary64.div; tsqrt := PrimFloat.sqrt; tgt := Binary64.gt |}.

#[export] Instance real_Scalar : Scalar R := {|
  of_int := IZR;
  tadd := Rplus; tsub := Rminus; tmul := Rmult;
  tdiv := Exact.div; tsqrt := R_sqrt.sqrt; tgt := Exact.gt |}.

(** ** Objects, references and the monad of computations *)

(** A reference ([Vec3<T>&], [const Vec3<T>&], [this]) is the location of an
    object in the store. *)
Definition loc : Type := positive.
Bind Scope positive_scope with loc.
Abbreviation store V := (gmap loc V).

Inductive fault : Type :=
  | DanglingRef (l : loc)   (* a reference to no object *)
  | DivisionTrap.           (* a division that traps *)

Inductive outcome (V A : Type) : Type :=
  | Ok (a : A) (σ : store V)
  | Err (f : fault).
Arguments Ok {V A} a σ.
Arguments Err {V A} f.

(** A computation over a store of objects of type [V] returning an [A]. *)
Definition M (V A : Type) : Type := store V → outcome V A.

Section Monad.
Context {V : Type}.

Definition ret {A} (a : A) : M V A := λ σ, Ok a σ.

Definition bind {A B} (m : M V A) (k : A → M V B) : M V B :=
    λ σ, match m σ with
         | Ok a σ' => k a σ'
         | Err f => Err f
         end.

(** Reads the object a reference designates. *)
Definition load (l : loc) : M V V :=
    λ σ, match σ !! l with
         | Some v => Ok v σ
         | None => Err (DanglingRef l)
         end.

(** Overwrites the object a reference designates. *)
Definition put (l : loc) (v : V) : M V unit :=
    λ σ, match σ !! l with
         | Some _ => Ok tt (<[l := v]> σ)
         | None => Err (DanglingRef l)
         end.

(** The result of a scalar operation that may trap. *)
Definition trap {A} (o : option A) : M V A :=
    λ σ, match o with
         | Some a => Ok a σ
         | None => Err DivisionTrap
         end.

(** Runs [k] on a temporary object holding [v]: the temporary is
materialised at an unused location and destroyed when [k] returns (the
object an expression such as [cross(b, a) * s] calls [operator*] on). *)
Definition with_temporary {A} (v : V) (k : loc → M V A) : M V A :=
  λ σ, let l := fresh (dom σ) in
       match k l (<[l := v]> σ) with
       | Ok r σ' => Ok r (delete l σ')
       | Err f => Err f
       end.

(** Forgets the returned value: what a caller that discards it observes. *)
Definition discard {A} (m : M V A) : M V unit := bind m (λ _, ret tt).
End Monad.

#[export] Instance M_ret {V} : MRet (M V) := λ A, ret.
#[export] Instance M_bind {V} : MBind (M V) := λ A B k m, bind m k.

(** ** Namespace [mfcg]: the documented header *)
Module mfcg.

(** [template <typename T> class Vec3 { public: T x, y, z; ... }] *)
Record Vec3 (T : Type) : Type := mkVec3 { x : T; y : T; z : T }.
Arguments mkVec3 {T} x y z.
Arguments x {T} v.
Arguments y {T} v.
Arguments z {T} v.

Section Vec3.
Context {T : Type} `{!Scalar T}.
Local Open Scope scalar_scope.

(** [Vec3() : x(T(0)), y(T(0)), z(T(0)) {}] *)
Definition Vec3_ctor0 : Vec3 T := mkVec3 (of_int 0) (of_int 0) (of_int 0).
(** [Vec3(const T& t) : x(t), y(t), z(t) {}] *)
Definition Vec3_ctor1 (t : T) : Vec3 T := mkVec3 t t t.
(** [Vec3(T _x, T _y, T _z) : x(_x), y(_y), z(_z) {}] *)
Definition Vec3_ctor3 (_x _y _z : T) : Vec3 T := mkVec3 _x _y _z.

(** The compound assignments [x *= s], [y *= s], [z *= s] on the object
        at [l]. *)
Definition x_mul_assign (l : loc) (s : T) : M (Vec3 T) unit :=
      v ← load l; put l (mkVec3 (x v * s) (y v) (z v)).
Definition y_mul_assign (l : loc) (s : T) : M (Vec3 T) unit :=
      v ← load l; put l (mkVec3 (x v) (y v * s) (z v)).
Definition z_mul_assign (l : loc) (s : T) : M (Vec3 T) unit :=
      v ← load l; put l (mkVec3 (x v) (y v) (z v * s)).

(** *** Methods; [this] is the location of the receiver *)

(** [T magnitude() { return sqrt(x * x + y * y + z * z); }] *)
Definition Vec3_magnitude (this : loc) : M (Vec3 T) T :=
      v ← load this;
      mret (tsqrt (x v * x v + y v * y v + z v * z v)).

(** [T sqrMagnitude() { return x * x + y * y + z * z; }] *)
Definition Vec3_sqrMagnitude (this : loc) : M (Vec3 T) T :=
      v ← load this;
      mret (x v * x v + y v * y v + z v * z v).

(** [Vec3<T>& normalize()]: returns [*this]. *)
Definition Vec3_normalize (this : loc) : M (Vec3 T) loc :=
      len ← Vec3_magnitude this;
      (if tgt len (of_int 0) then
         lenInv ← trap (tdiv (of_int 1) len);
         x_mul_assign this lenInv;;
         y_mul_assign this lenInv;;
         z_mul_assign this lenInv
       else mret tt);;
      mret this.

(** [T dot(const Vec3<T>& v) { return x * v.x + y * v.y + z * v.z; }] *)
Definition Vec3_dot (this v : loc) : M (Vec3 T) T :=
      a ← load this;
      b ← load v;
      mret (x a * x b + y a * y b + z a * z b).

(** [Vec3<T> cross(const Vec3<T>& v)] *)
Definition Vec3_cross (this v : loc) : M (Vec3 T) (Vec3 T) :=
      a ← load this;
      b ← load v;
      mret (Vec3_ctor3 (y a * z b - z a * y b)
                       (z a * x b - x a * z b)
                       (x a * y b - y a * x b)).

(** [Vec3<T> operator +(const Vec3<T>& v)] *)
Definition Vec3_operator_plus (this v : loc) : M (Vec3 T) (Vec3 T) :=
      a ← load this;
      b ← load v;
      mret (Vec3_ctor3 (x a + x b) (y a + y b) (z a + z b)).

(** [Vec3<T> operator -(const Vec3<T>& v)] *)
Definition Vec3_operator_minus (this v : loc) : M (Vec3 T) (Vec3 T) :=
      a ← load this;
      b ← load v;
      mret (Vec3_ctor3 (x a - x b) (y a - y b) (z a - z b)).

(** [Vec3<T> operator *(const T& s)] *)
Definition Vec3_operator_times (this : loc) (s : T) : M (Vec3 T) (Vec3 T) :=
      a ← load this;
      mret (Vec3_ctor3 (x a * s) (y a * s) (z a * s)).

(** *** Free functions *)

(** [T magnitude(const Vec3<T>& v)] *)
Definition magnitude (v : loc) : M (Vec3 T) T :=
      a ← load v;
      mret (tsqrt (x a * x a + y a * y a + z a * z a)).

(** [T sqrMagnitude(const Vec3<T>& v)] *)
Definition sqrMagnitude (v : loc) : M (Vec3 T) T :=
      a ← load v;
      mret (x a * x a + y a * y a + z a * z a).

(** [void normalize(Vec3<T>& v)] *)
Definition normalize (v : loc) : M (Vec3 T) unit :=
      len ← magnitude v;
      if tgt len (of_int 0) then
        lenInv ← trap (tdiv (of_int 1) len);
        x_mul_assign v lenInv;;
        y_mul_assign v lenInv;;
        z_mul_assign v lenInv
      else mret tt.

(** [T dot(const Vec3<T>& a, const Vec3<T>& b)] *)
Definition dot (a b : loc) : M (Vec3 T) T :=
      va ← load a;
      vb ← load b;
      mret (x va * x vb + y va * y vb + z va * z vb).

(** [Vec3<T> cross(const Vec3<T> a, const Vec3<T>& b)]: the first
        parameter is passed by value, the second by reference. *)
Definition cross (a : Vec3 T) (b : loc) : M (Vec3 T) (Vec3 T) :=
      vb ← load b;
      mret (Vec3_ctor3 (y a * z vb - z a * y vb)
                       (z a * x vb - x a * z vb)
                       (x a * y vb - y a * x vb)).
End Vec3.

(** [typedef Vec3<float> Vec3f; typedef Vec3<int> Vec3i;
      typedef Vec3<double> Vec3d;] *)
Definition Vec3f : Type := Vec3 c_float.
Definition Vec3i : Type := Vec3 c_int.
Definition Vec3d : Type := Vec3 c_double.
End mfcg.

(** ** Namespace [MFCG]: [MFCG/include/Vec3.h], the minimal header *)
Module MFCG.
Record Vec3 (T : Type) : Type := mkVec3 { x : T; y : T; z : T }.
Arguments mkVec3 {T} x y z.
Arguments x {T} v.
Arguments y {T} v.
Arguments z {T} v.

Section Vec3.
Context {T : Type} `{!Scalar T}.

(** [Vec3() : x(T(0)), y(T(0)), z(T(0)) {}] *)
Definition Vec3_ctor0 : Vec3 T := mkVec3 (of_int 0) (of_int 0) (of_int 0).
(** [Vec3(const T& t) : x(t), y(t), z(t) {}] *)
Definition Vec3_ctor1 (t : T) : Vec3 T := mkVec3 t t t.
(** [Vec3(T _x, T _y, T _z) : x(_x), y(_y), z(_z) {}] *)
Definition Vec3_ctor3 (_x _y _z : T) : Vec3 T := mkVec3 _x _y _z.
End Vec3.

(** [typedef Vec3<float> Vec3f;] *)
Definition Vec3f : Type := Vec3 c_float.
End MFCG.

(** ** Notions used in the statements *)

Import mfcg.

Section Statements.
Context {T : Type} `{!Scalar T}.
Local Open Scope scalar_scope.

(** The body of [normalize] after [len] has been computed. *)
Definition normalize_body (l : loc) (len : T) : M (Vec3 T) unit :=
  if tgt len (of_int 0) then
    lenInv ← trap (tdiv (of_int 1) len);
    x_mul_assign l lenInv;; y_mul_assign l lenInv;; z_mul_assign l lenInv
  else mret tt.

(** [Vec3<T>(a, b, c)] on [int] constants, each converted to [T]. *)
Definition vec_of_ints (a b c : Z) : Vec3 T :=
  Vec3_ctor3 (of_int a) (of_int b) (of_int c).

(** A store with a single object, at location [1]. *)
Definition one_object (v : Vec3 T) : store (Vec3 T) := {[1%positive := v]}.

(** A store with two objects, at locations [1] and [2]. *)
Definition two_objects (va vb : Vec3 T) : store (Vec3 T) :=
  <[2%positive := vb]> {[1%positive := va]}.

(** The examples of the specification, for a component type [T]:
    [(3, 4, 0)] has magnitude [5] and squared magnitude [25]. *)
Definition magnitude_example : Prop :=
  let σ := one_object (vec_of_ints 3 4 0) in
  Vec3_magnitude 1 σ = Ok (of_int 5) σ ∧ magnitude 1 σ = Ok (of_int 5) σ ∧
  Vec3_sqrMagnitude 1 σ = Ok (of_int 25) σ ∧ sqrMagnitude 1 σ = Ok (of_int 25) σ.

(** For [a = (1, 2, 3)] and [b = (4, 5, 6)]: [dot(a, b) = 32] and
    [cross(a, b) = (-3, 6, -3)]. *)
Definition dot_cross_example : Prop :=
  let σ := two_objects (vec_of_ints 1 2 3) (vec_of_ints 4 5 6) in
  Vec3_dot 1 2 σ = Ok (of_int 32) σ ∧ dot 1 2 σ = Ok (of_int 32) σ ∧
  Vec3_cross 1 2 σ = Ok (vec_of_ints (-3) 6 (-3)) σ ∧
  cross (vec_of_ints 1 2 3) 2 σ = Ok (vec_of_ints (-3) 6 (-3)) σ.

(** For [a = (1, 2, 3)], [b = (4, 5, 6)] and [s = 2]: [a + b = (5, 7, 9)],
    [a - b = (-3, -3, -3)] and [a * s = (2, 4, 6)]. *)
Definition add_sub_scale_example : Prop :=
  let σ := two_objects (vec_of_ints 1 2 3) (vec_of_ints 4 5 6) in
  Vec3_operator_plus 1 2 σ = Ok (vec_of_ints 5 7 9) σ ∧
  Vec3_operator_minus 1 2 σ = Ok (vec_of_ints (-3) (-3) (-3)) σ ∧
  Vec3_operator_times 1 (of_int 2) σ = Ok (vec_of_ints 2 4 6) σ.

(** The expression [cross(b, a) * s]: [operator*] is called on the
temporary that [cross] returned. *)
Definition scale_cross (b a : loc) (s : T) : M (Vec3 T) (Vec3 T) :=
  t ← Vec3_cross b a;
  with_temporary t (λ l, Vec3_operator_times l s).

(** Anti-commutativity of the cross product up to a relation [same] on
components: on objects [a] and [b] whose components satisfy [ok],
[cross(a, b)] (method and free function) and [cross(b, a) * -1] return
vectors with the same components. *)
Definition cross_anticommutes (ok : T → Prop) (same : T → T → Prop) : Prop :=
  ∀ (σ : store (Vec3 T)) (a b : loc) (va vb : Vec3 T),
    σ !! a = Some va → σ !! b = Some vb →
    ok (x va) ∧ ok (y va) ∧ ok (z va) →
    ok (x vb) ∧ ok (y vb) ∧ ok (z vb) →
    ∃ c c' : Vec3 T,
      Vec3_cross a b σ = Ok c σ ∧ cross va b σ = Ok c σ ∧
      scale_cross b a (of_int (-1)) σ = Ok c' σ ∧
      same (x c) (x c') ∧ same (y c) (y c') ∧ same (z c) (z c').

(** The magnitude of [v], as [normalize] computes and tests it, is
strictly positive. *)
Definition positive_magnitude (v : Vec3 T) : Prop :=
  tgt (tsqrt (x v * x v + y v * y v + z v * z v)) (of_int 0) = true.

(** The statement that [normalize] yields unit vectors, for a component
type [T], the objects [ok] it is stated for and a reading [is_one] of "the
magnitude is 1" on [T]: on every such object both forms of [normalize]
succeed, the method returns [this], and the magnitude afterwards is one. *)
Definition normalize_gives_unit (ok : Vec3 T → Prop) (is_one : T → Prop) : Prop :=
  ∀ (σ : store (Vec3 T)) (l : loc) (v : Vec3 T),
    σ !! l = Some v → ok v →
    ∃ σ' m, Vec3_normalize l σ = Ok l σ' ∧ normalize l σ = Ok tt σ' ∧
            Vec3_magnitude l σ' = Ok m σ' ∧ is_one m.

(** In the words of the specification: the vector obtained by dividing each
component by the magnitude, elementwise ([None] if a division traps). *)
Definition divided_by_magnitude (v : Vec3 T) : option (Vec3 T) :=
  let len := tsqrt (x v * x v + y v * y v + z v * z v) in
  x' ← tdiv (x v) len;
  y' ← tdiv (y v) len;
  z' ← tdiv (z v) len;
  Some (mkVec3 x' y' z').

(** The statement that [normalize] agrees with elementwise division: for
every object of strictly positive magnitude, what both forms of [normalize]
store is the vector divided by its magnitude. *)
Definition normalize_is_division : Prop :=
  ∀ (σ : store (Vec3 T)) (l : loc) (v : Vec3 T),
    σ !! l = Some v →
    tgt (tsqrt (x v * x v + y v * y v + z v * z v)) (of_int 0) = true →
    ∃ v', divided_by_magnitude v = Some v' ∧
          Vec3_normalize l σ = Ok l (<[l := v']> σ) ∧
          normalize l σ = Ok tt (<[l := v']> σ).

(** A computation that returns (if it does) in the store it started in. *)
Definition pure {A} (m : M (Vec3 T) A) : Prop :=
  ∀ σ r σ', m σ = Ok r σ' → σ' = σ.
End Statements.

(** Congruence modulo [2 ^ 32], the arithmetic of [int]. *)
Definition eqm32 (a b : Z) : Prop := (a mod 2 ^ 32 = b mod 2 ^ 32)%Z.

(** Two floating-point values are the same when they are identical (NaN
    included) or are zeros, possibly of opposite signs: what [==] decides
    on numbers. *)
Definition SFsame (a b : spec_float) : Prop :=
  a = b ∨ ∃ s s', a = S754_zero s ∧ b = S754_zero s'.

(** On [double]s: identical, or equal under [==]. *)
Definition same_double (a b : c_double) : Prop :=
  a = b ∨ PrimFloat.eqb a b = true.

(** The components of an object of either header, as a triple. *)
Definition mfcg_components {T} (v : mfcg.Vec3 T) : T * T * T :=
  (mfcg.x v, mfcg.y v, mfcg.z v).
Definition MFCG_components {T} (v : MFCG.Vec3 T) : T * T * T :=
  (MFCG.x v, MFCG.y v, MFCG.z v).

(** ** Floating-point numbers as real numbers

    What the statements about rounding errors are written with. *)
(** [2^-23], the relative error of one rounding in binary32. *)
Abbreviation eps32 := (/ 8388608)%R.

Section RealValues.
Local Open Scope R_scope.

(** Powers of two with integer exponents, as reals. *)
Definition bpow (e : Z) : R := powerRZ 2 e.

(** The real value of a mantissa and an exponent. *)
Definition F2R (m e : Z) : R := IZR m * bpow e.

(** The absolute value of a float, as a real (0 for infinities and NaN). *)
Definition SFabsR (f : spec_float) : R :=
  match f with
  | S754_finite _ m e => F2R (Z.pos m) e
  | _ => 0
  end.

(** The value of a float, as a real (0 for infinities and NaN). *)
Definition SF2R (f : spec_float) : R :=
  match f with
  | S754_finite s m e => if s then - F2R (Z.pos m) e else F2R (Z.pos m) e
  | _ => 0
  end.

Definition SFfinite (f : spec_float) : Prop :=
  match f with
  | S754_finite _ _ _ | S754_zero _ => True
  | _ => False
  end.

Definition SFsign (f : spec_float) : bool :=
  match f with
  | S754_finite s _ _ | S754_zero s | S754_infinity s => s
  | S754_nan => false
  end.

(** [a] approximates [r] with the relative error [2^(1-prec)] of one
    rounding and the absolute error [2^emin] of a rounding to a subnormal
    number. *)
Definition approx (prec emax : Z) (a r : R) : Prop :=
  r - (bpow (1 - prec) * r + bpow (SpecFloat.emin prec emax)) <= a
    <= r + (bpow (1 - prec) * r + bpow (SpecFloat.emin prec emax)).

(** The same with the relative error [eps32] of binary32, which bounds the
    one of every wider format, and an absolute error [eta]. *)
Definition apx (eta a r : R) : Prop :=
  (1 - eps32) * r - eta <= a <= (1 + eps32) * r + eta.

(** [x * x + y * y + z * z] and its square root, as the program computes
    them in a floating-point format. *)
Definition sf_sqr_sum (prec emax : Z) (x y z : spec_float) : spec_float :=
  SFadd prec emax
    (SFadd prec emax (SFmul prec emax x x) (SFmul prec emax y y))
    (SFmul prec emax z z).

Definition sf_magnitude (prec emax : Z) (x y z : spec_float) : spec_float :=
  SFsqrt prec emax (sf_sqr_sum prec emax x y z).

(** Within [1e-5] of [1], the tolerance of the specification. *)
Definition near_one (f : spec_float) : Prop :=
  1 - / 100000 <= SF2R f <= 1 + / 100000.

Definition double_near_one (m : c_double) : Prop := near_one (Prim2SF m).

(** The components are finite, none exceeds [2^B] in absolute value and one
    of them is at least [2^-B]: the squares, their sum, the reciprocal of
    the magnitude and the scaled components then neither overflow nor fall
    into the subnormal numbers. *)
Definition sf_in_range (B : Z) (x y z : spec_float) : Prop :=
  (SFfinite x ∧ SFfinite y ∧ SFfinite z) ∧
  (SFabsR x <= bpow B ∧ SFabsR y <= bpow B ∧ SFabsR z <= bpow B) ∧
  (bpow (- B) <= SFabsR x ∨ bpow (- B) <= SFabsR y ∨ bpow (- B) <= SFabsR z).

(** The [float] vectors with components between [2^-59] and [2^59], and
    the [double] vectors with components between [2^-509] and [2^509]. *)
Definition float_safe (v : Vec3 c_float) : Prop :=
  (Binary32.valid (x v) ∧ Binary32.valid (y v) ∧ Binary32.valid (z v)) ∧
  sf_in_range 59 (x v) (y v) (z v).

Definition double_safe (v : Vec3 c_double) : Prop :=
  sf_in_range 509 (Prim2SF (x v)) (Prim2SF (y v)) (Prim2SF (z v)).
End RealValues.

(** ** Comparing floating-point components *)

(** The finite numbers of absolute value at most [2^B]. *)
Definition sf_at_most (B : Z) (c : spec_float) : Prop :=
  SFfinite c ∧ (SFabsR c <= bpow B)%R.

Definition float_at_most (B : Z) (c : c_float) : Prop :=
  Binary32.valid c ∧ sf_at_most B c.

Definition double_at_most (B : Z) (c : c_double) : Prop :=
  sf_at_most B (Prim2SF c).

(** The comparison [a == b]. *)
Definition float_eq (a b : c_float) : Prop := SFeqb a b = true.

Definition double_eq (a b : c_double) : Prop := PrimFloat.eqb a b = true.

(** The tolerance test [|a - b| <= tol]. *)
Definition float_within (tol a b : c_float) : Prop :=
  SFleb (SFabs (Binary32.sub a b)) tol = true.

Definition double_within (tol a b : c_double) : Prop :=
  PrimFloat.leb (PrimFloat.abs (a - b)%float) tol = true.

(** Equal under [==], or NaN on both sides. *)
Definition float_eq_or_nan (a b : c_float) : Prop :=
  float_eq a b ∨ (a = S754_nan ∧ b = S754_nan).

Definition double_eq_or_nan (a b : c_double) : Prop :=
  double_eq a b ∨ (PrimFloat.is_nan a = true ∧ PrimFloat.is_nan b = true).

(** Equal under [==] and within every tolerance [tol >= 0]. *)
Definition float_agree (a b : c_float) : Prop :=
  float_eq a b ∧
  ∀ tol, SFleb (S754_zero false) tol = true → float_within tol a b.

Definition double_agree (a b : c_double) : Prop :=
  double_eq a b ∧
  ∀ tol, PrimFloat.leb 0 tol = true → double_within tol a b.

(** ** Notions used in the further properties *)

Section ComposedExpressions.
Context {T : Type} `{!Scalar T}.
Local Open Scope scalar_scope.



(** The expression [w.dot(a.cross(b))]: [dot] receives a reference to the
    temporary that [cross] returned. *)
Definition dot_cross (w a b : loc) : M (Vec3 T) T :=
  t ← Vec3_cross a b;
  with_temporary t (λ l, Vec3_dot w l).

(** The expression [dot(w, cross(a, b))] on the free functions; [cross]
    receives a copy of [a]. *)
Definition free_dot_cross (w a b : loc) : M (Vec3 T) T :=
  va ← load a;
  t ← cross va b;
  with_temporary t (λ l, dot w l).

(** The expression [(a + b) - b]. *)
Definition plus_minus (a b : loc) : M (Vec3 T) (Vec3 T) :=
  t ← Vec3_operator_plus a b;
  with_temporary t (λ l, Vec3_operator_minus l b).

(** The expressions [(v * -1).sqrMagnitude()] and [(v * -1).magnitude()]. *)
Definition negated_sqrMagnitude (v : loc) : M (Vec3 T) T :=
  t ← Vec3_operator_times v (of_int (-1));
  with_temporary t Vec3_sqrMagnitude.

Definition negated_magnitude (v : loc) : M (Vec3 T) T :=
  t ← Vec3_operator_times v (of_int (-1));
  with_temporary t Vec3_magnitude.
End ComposedExpressions.

(** The values of type [int]. *)
Definition int_range (n : c_int) : Prop :=
  (Int32.min_int ≤ n ≤ Int32.max_int)%Z.

Definition int_vector (v : Vec3 c_int) : Prop :=
  int_range (x v) ∧ int_range (y v) ∧ int_range (z v).

Section CrossStatements.
Context {T : Type} `{!Scalar T}.
Local Open Scope scalar_scope.

(** [cross(a, b)] is orthogonal to [a] and to [b]: the dot products are
    exactly zero, in the method forms and in the free-function forms. *)
Definition cross_orthogonal : Prop :=
  ∀ (σ : store (Vec3 T)) (a b : loc) (va vb : Vec3 T),
    σ !! a = Some va → σ !! b = Some vb →
    dot_cross a a b σ = Ok (of_int 0) σ ∧ dot_cross b a b σ = Ok (of_int 0) σ ∧
    free_dot_cross a a b σ = Ok (of_int 0) σ ∧
    free_dot_cross b a b σ = Ok (of_int 0) σ.

(** The components of [a.cross(a)] and of [cross(a, a)] all satisfy
    [zero]. *)
Definition cross_self (zero : T → Prop) : Prop :=
  ∀ (σ : store (Vec3 T)) (a : loc) (va : Vec3 T),
    σ !! a = Some va →
    ∃ c, Vec3_cross a a σ = Ok c σ ∧ cross va a σ = Ok c σ ∧
         zero (x c) ∧ zero (y c) ∧ zero (z c).

(** On an object [a] whose components satisfy [ok], [a.cross(a)] and
    [cross(a, a)] return the same vector [c], in the store they started in,
    and [c] is related to [a] by [rel]. *)
Definition cross_self_is (ok : T → Prop) (rel : Vec3 T → Vec3 T → Prop) : Prop :=
  ∀ (σ : store (Vec3 T)) (a : loc) (va : Vec3 T),
    σ !! a = Some va → ok (x va) ∧ ok (y va) ∧ ok (z va) →
    ∃ c, Vec3_cross a a σ = Ok c σ ∧ cross va a σ = Ok c σ ∧ rel va c.

(** The expression [v.normalize().normalize()]. *)
Definition normalize_twice (v : loc) : M (Vec3 T) loc :=
  r ← Vec3_normalize v; Vec3_normalize r.
End CrossStatements.

(** [p - p] in floating point: [+0] for a finite [p], NaN for an infinite
    [p] and for NaN. *)
Definition SF_minus_itself (p : spec_float) : spec_float :=
  match p with
  | S754_zero _ | S754_finite _ _ _ => S754_zero false
  | S754_infinity _ | S754_nan => S754_nan
  end.

(** The components [p - p] for the three products [p] of [cross(v, v)],
    in a format with the multiplication [mul]. *)
Definition SF_cross_self (mul : spec_float → spec_float → spec_float)
    (v : Vec3 spec_float) : Vec3 spec_float :=
  mkVec3 (SF_minus_itself (mul (y v) (z v)))
         (SF_minus_itself (mul (z v) (x v)))
         (SF_minus_itself (mul (x v) (y v))).

Section NegationStatements.
Context {T : Type} `{!Scalar T}.
Local Open Scope scalar_scope.

(** Negating a vector changes neither its squared magnitude nor its
    magnitude: [(v * -1).sqrMagnitude()] is [v.sqrMagnitude()] and
    [(v * -1).magnitude()] is [v.magnitude()], on the objects [ok]. *)
Definition negation_invariant (ok : Vec3 T → Prop) : Prop :=
  ∀ (σ : store (Vec3 T)) (l : loc) (v : Vec3 T),
    σ !! l = Some v → ok v →
    negated_sqrMagnitude l σ = Vec3_sqrMagnitude l σ ∧
    negated_magnitude l σ = Vec3_magnitude l σ.
End NegationStatements.

(** The vectors of [float]s: three valid binary32 numbers. *)
Definition float_vector (v : Vec3 c_float) : Prop :=
  Binary32.valid (x v) ∧ Binary32.valid (y v) ∧ Binary32.valid (z v).

(** What [normalize] leaves of an [int] vector of computed magnitude [len]:
    the vector itself up to magnitude [1], the zero vector from [2] on. *)
Definition int_normalized (len : c_int) (v : Vec3 c_int) : Vec3 c_int :=
  if (2 <=? len)%Z then Vec3_ctor0 else v.

(** A component multiplied by [+0]: a zero of its sign, or NaN if it is
    not finite. *)
Definition SF_times_zero (c : spec_float) : spec_float :=
  match c with
  | S754_zero s | S754_finite s _ _ => S754_zero s
  | S754_infinity _ | S754_nan => S754_nan
  end.

(** One of the three numbers is a NaN. *)
Definition SF_some_nan (a b c : spec_float) : Prop :=
  a = S754_nan ∨ b = S754_nan ∨ c = S754_nan.

Section NormalizeStatements.
Context {T : Type} `{!Scalar T}.
Local Open Scope scalar_scope.

(** [normalize] leaves the objects [ok] as they are. *)
Definition normalize_keeps (ok : Vec3 T → Prop) : Prop :=
  ∀ (σ : store (Vec3 T)) (l : loc) (v : Vec3 T),
    σ !! l = Some v → ok v →
    Vec3_normalize l σ = Ok l σ ∧ normalize l σ = Ok tt σ.

(** The computed magnitude of [v] is [len]. *)
Definition magnitude_is (len : T) (v : Vec3 T) : Prop :=
  tsqrt (x v * x v + y v * y v + z v * z v) = len.
End NormalizeStatements.

(** The components of [v] multiplied by [+0]. *)
Definition SF_vector_times_zero (v : Vec3 spec_float) : Vec3 spec_float :=
  mkVec3 (SF_times_zero (x v)) (SF_times_zero (y v)) (SF_times_zero (z v)).

(** The components of a [double] vector, in the specification of
    binary64. *)
Definition Prim2SF_vector (v : Vec3 c_double) : Vec3 spec_float :=
  mkVec3 (Prim2SF (x v)) (Prim2SF (y v)) (Prim2SF (z v)).

(** One of the three numbers is an infinity. *)
Definition SF_some_infinity (a b c : spec_float) : Prop :=
  (∃ s, a = S754_infinity s) ∨ (∃ s, b = S754_infinity s) ∨
  (∃ s, c = S754_infinity s).

(** No sign, or the sign [+]: [+0], a positive number or [+infinity]. *)
Definition SF_nonneg (a : spec_float) : Prop :=
  match a with
  | S754_zero s | S754_finite s _ _ | S754_infinity s => s = false
  | S754_nan => False
  end.

Section ExactValues.
Local Open Scope R_scope.

(** The exact magnitude of a vector of floating-point numbers, a real. *)
Definition exact_magnitude (v : Vec3 spec_float) : R :=
  R_sqrt.sqrt (SF2R (x v) * SF2R (x v) + SF2R (y v) * SF2R (y v)
               + SF2R (z v) * SF2R (z v)).

(** The finite number [a] is the real [r] up to the relative error [rel]
    and the absolute error [abs]. *)
Definition SF_approximates (rel abs : R) (a : spec_float) (r : R) : Prop :=
  SFfinite a ∧ Rabs (SF2R a - r) <= rel * Rabs r + abs.
End ExactValues.

Section NormalizedVectors.
Local Open Scope R_scope.

(** The components of [v'] are those of [v] divided by its exact magnitude,
    up to the relative error [rel] and the absolute error [abs]. *)
Definition SF_normalized (rel abs : R) (v v' : Vec3 spec_float) : Prop :=
  SF_approximates rel abs (x v') (SF2R (x v) * / exact_magnitude v) ∧
  SF_approximates rel abs (y v') (SF2R (y v) * / exact_magnitude v) ∧
  SF_approximates rel abs (z v') (SF2R (z v) * / exact_magnitude v).
End NormalizedVectors.

(** On the objects [ok], [sqrMagnitude] and [magnitude] return numbers that
    satisfy [nonneg], in the method forms and in the free-function forms. *)
Definition magnitudes_satisfy {T} `{!Scalar T}
    (ok : Vec3 T → Prop) (nonneg : T → Prop) : Prop :=
  ∀ (σ : store (Vec3 T)) (l : loc) (v : Vec3 T),
    σ !! l = Some v → ok v →
    ∃ s m, Vec3_sqrMagnitude l σ = Ok s σ ∧ sqrMagnitude l σ = Ok s σ ∧
           Vec3_magnitude l σ = Ok m σ ∧ magnitude l σ = Ok m σ ∧
           nonneg s ∧ nonneg m.

(** The sum of the squares of the components of an [int] vector, as an
    integer (no wrap-around). *)
Definition int_sum_of_squares (v : Vec3 c_int) : Z :=
  (x v * x v + y v * y v + z v * z v)%Z.

(** * Properties *)

(** ** Running computations *)

Section Run.
Context {V : Type}.
Implicit Types (σ : store V) (l : loc) (v : V).

Lemma run_ret {A} (a : A) σ : (mret a : M V A) σ = Ok a σ.
Proof. reflexivity. Qed.

Lemma run_bind {A B} (m : M V A) (k : A → M V B) σ :
  (m ≫= k) σ = match m σ with Ok a σ' => k a σ' | Err f => Err f end.
Proof. reflexivity. Qed.

Lemma run_load σ l v : σ !! l = Some v → load l σ = Ok v σ.
Proof. intros Hl. unfold load. by rewrite Hl. Qed.

Lemma run_load_dangling σ l : σ !! l = None → load (V:=V) l σ = Err (DanglingRef l).
Proof. intros Hl. unfold load. by rewrite Hl. Qed.

Lemma run_put σ l v w : σ !! l = Some v → put l w σ = Ok tt (<[l := w]> σ).
Proof. intros Hl. unfold put. by rewrite Hl. Qed.

(** A load never changes the store. *)
Lemma load_frame σ l v σ' : load l σ = Ok v σ' → σ' = σ ∧ σ !! l = Some v.
Proof.
  unfold load. destruct (σ !! l) as [w|] eqn:Hl; [|discriminate].
  intros [= -> ->]. done.
Qed.

(** A put changes the store at its location only. *)
Lemma put_frame σ l w u σ' :
  put l w σ = Ok u σ' → σ' = <[l := w]> σ ∧ is_Some (σ !! l).
Proof.
  unfold put. destruct (σ !! l) as [w'|] eqn:Hl; [|discriminate].
  intros [= <-]. eauto.
Qed.
End Run.

(** Runs a computation on a store whose lookups are among the hypotheses. *)
Ltac run_unfold :=
  unfold Vec3_magnitude, Vec3_sqrMagnitude, Vec3_normalize, Vec3_dot,
    Vec3_cross, Vec3_operator_plus, Vec3_operator_minus, Vec3_operator_times,
    magnitude, sqrMagnitude, normalize, dot, cross,
    x_mul_assign, y_mul_assign, z_mul_assign, discard.

Ltac run_step :=
  first [ progress rewrite run_bind
        | progress rewrite run_ret
        | erewrite run_load by eassumption
        | progress cbn beta iota ].

Ltac run := run_unfold; repeat run_step.

Section Generic.
Context {T : Type} `{!Scalar T}.
Implicit Types (σ : store (Vec3 T)) (l a b : loc) (v : Vec3 T) (s : T).
Local Open Scope scalar_scope.

Lemma run_Vec3_magnitude σ l v :
  σ !! l = Some v →
  Vec3_magnitude l σ = Ok (tsqrt (x v * x v + y v * y v + z v * z v)) σ.
Proof. intros Hl. by run. Qed.

Lemma run_magnitude σ l v :
  σ !! l = Some v →
  magnitude l σ = Ok (tsqrt (x v * x v + y v * y v + z v * z v)) σ.
Proof. intros Hl. by run. Qed.

(** C4: on an object [v = (x, y, z)], [magnitude] returns
    [sqrt(x*x + y*y + z*z)] and [sqrMagnitude] returns [x*x + y*y + z*z]
    (no square root), both as a [T], in the method form and in the
    free-function form alike, and the store is left as it was. *)
Theorem magnitude_sqrMagnitude_value σ l v :
  σ !! l = Some v →
  Vec3_magnitude l σ = Ok (tsqrt (x v * x v + y v * y v + z v * z v)) σ ∧
  magnitude l σ = Ok (tsqrt (x v * x v + y v * y v + z v * z v)) σ ∧
  Vec3_sqrMagnitude l σ = Ok (x v * x v + y v * y v + z v * z v) σ ∧
  sqrMagnitude l σ = Ok (x v * x v + y v * y v + z v * z v) σ.
Proof.
  intros Hl. split; [by apply run_Vec3_magnitude|].
  split; [by apply run_magnitude|].
  split; by run.
Qed.

Lemma run_Vec3_cross σ a b (va vb : Vec3 T) :
  σ !! a = Some va → σ !! b = Some vb →
  Vec3_cross a b σ =
    Ok (mkVec3 (y va * z vb - z va * y vb)
               (z va * x vb - x va * z vb)
               (x va * y vb - y va * x vb)) σ.
Proof. intros Ha Hb. by run. Qed.

Lemma run_cross σ b (va vb : Vec3 T) :
  σ !! b = Some vb →
  cross va b σ =
    Ok (mkVec3 (y va * z vb - z va * y vb)
               (z va * x vb - x va * z vb)
               (x va * y vb - y va * x vb)) σ.
Proof. intros Hb. by run. Qed.

(** C5: [dot(a, b)] returns [a.x*b.x + a.y*b.y + a.z*b.z] and [cross(a, b)]
    returns the new vector
    [(a.y*b.z - a.z*b.y, a.z*b.x - a.x*b.z, a.x*b.y - a.y*b.x)], in the
    method form and in the free-function form alike (the free [cross]
    receives a copy of [a]). *)
Theorem dot_cross_value σ a b (va vb : Vec3 T) :
  σ !! a = Some va → σ !! b = Some vb →
  Vec3_dot a b σ = Ok (x va * x vb + y va * y vb + z va * z vb) σ ∧
  dot a b σ = Ok (x va * x vb + y va * y vb + z va * z vb) σ ∧
  Vec3_cross a b σ =
    Ok (mkVec3 (y va * z vb - z va * y vb)
               (z va * x vb - x va * z vb)
               (x va * y vb - y va * x vb)) σ ∧
  cross va b σ =
    Ok (mkVec3 (y va * z vb - z va * y vb)
               (z va * x vb - x va * z vb)
               (x va * y vb - y va * x vb)) σ.
Proof.
  intros Ha Hb. repeat split; by run.
Qed.

(** C6: [a + b], [a - b] and [a * s] return the new vectors
    [(a.x+b.x, a.y+b.y, a.z+b.z)], [(a.x-b.x, a.y-b.y, a.z-b.z)] and
    [(a.x*s, a.y*s, a.z*s)]. *)
Theorem add_sub_scale_value σ a b (va vb : Vec3 T) s :
  σ !! a = Some va → σ !! b = Some vb →
  Vec3_operator_plus a b σ = Ok (mkVec3 (x va + x vb) (y va + y vb) (z va + z vb)) σ ∧
  Vec3_operator_minus a b σ = Ok (mkVec3 (x va - x vb) (y va - y vb) (z va - z vb)) σ ∧
  Vec3_operator_times a s σ = Ok (mkVec3 (x va * s) (y va * s) (z va * s)) σ.
Proof.
  intros Ha Hb. repeat split; by run.
Qed.

(** *** [normalize] *)

(** The three compound assignments of [normalize] amount to one update of
    the object. *)
Lemma run_mul_assign σ l v s :
  σ !! l = Some v →
  (x_mul_assign l s ;; y_mul_assign l s ;; z_mul_assign l s) σ =
  Ok tt (<[l := mkVec3 (x v * s) (y v * s) (z v * s)]> σ).
Proof.
  intros Hl. unfold x_mul_assign, y_mul_assign, z_mul_assign.
  rewrite !run_bind, (run_load _ _ _ Hl), (run_put _ _ _ _ Hl).
  rewrite !run_bind, (run_load _ l _ (lookup_insert_eq _ _ _)).
  rewrite (run_put _ l _ _ (lookup_insert_eq _ _ _)), insert_insert_eq.
  rewrite !run_bind, (run_load _ l _ (lookup_insert_eq _ _ _)).
  rewrite (run_put _ l _ _ (lookup_insert_eq _ _ _)), insert_insert_eq.
  reflexivity.
Qed.

Lemma Vec3_normalize_unfold l :
  Vec3_normalize l = (len ← Vec3_magnitude l; normalize_body l len;; mret l).
Proof. reflexivity. Qed.

Lemma normalize_unfold l :
  normalize l = (len ← magnitude l; normalize_body l len).
Proof. reflexivity. Qed.

Lemma run_normalize_body σ l v len :
  σ !! l = Some v →
  normalize_body l len σ =
  if tgt len (of_int 0) then
    match tdiv (of_int 1) len with
    | Some lenInv =>
        Ok tt (<[l := mkVec3 (x v * lenInv) (y v * lenInv) (z v * lenInv)]> σ)
    | None => Err DivisionTrap
    end
  else Ok tt σ.
Proof.
  intros Hl. unfold normalize_body. destruct (tgt len (of_int 0)); [|done].
  rewrite run_bind. unfold trap at 1.
  destruct (tdiv (of_int 1) len) as [lenInv|]; [|done].
  by apply run_mul_assign.
Qed.

(** C1: when the magnitude of [v] is not strictly positive, [normalize],
    in the method form and in the free-function form, completes without a
    fault and leaves the store, hence the three components of [v],
    unchanged. *)
Theorem normalize_nonpositive_noop σ l v :
  σ !! l = Some v →
  tgt (tsqrt (x v * x v + y v * y v + z v * z v)) (of_int 0) = false →
  Vec3_normalize l σ = Ok l σ ∧ normalize l σ = Ok tt σ.
Proof.
  intros Hl Hlen.
  rewrite Vec3_normalize_unfold, normalize_unfold, !run_bind.
  rewrite (run_Vec3_magnitude _ _ _ Hl), (run_magnitude _ _ _ Hl).
  rewrite run_bind, (run_normalize_body _ _ _ _ Hl), Hlen. done.
Qed.

(** When the magnitude is strictly positive and the division does not
    trap, [normalize] multiplies each component by [1 / len] and the method
    form returns [this]. *)
Lemma run_normalize_positive σ l v lenInv :
  σ !! l = Some v →
  tgt (tsqrt (x v * x v + y v * y v + z v * z v)) (of_int 0) = true →
  tdiv (of_int 1) (tsqrt (x v * x v + y v * y v + z v * z v)) = Some lenInv →
  Vec3_normalize l σ =
    Ok l (<[l := mkVec3 (x v * lenInv) (y v * lenInv) (z v * lenInv)]> σ) ∧
  normalize l σ =
    Ok tt (<[l := mkVec3 (x v * lenInv) (y v * lenInv) (z v * lenInv)]> σ).
Proof.
  intros Hl Hlen Hdiv.
  rewrite Vec3_normalize_unfold, normalize_unfold, !run_bind.
  rewrite (run_Vec3_magnitude _ _ _ Hl), (run_magnitude _ _ _ Hl).
  rewrite run_bind, (run_normalize_body _ _ _ _ Hl), Hlen, Hdiv. done.
Qed.

(** Where the division by a strictly positive magnitude cannot trap,
    [normalize] completes on every object. *)
Lemma normalize_succeeds σ l v :
  (∀ len : T, tgt len (of_int 0) = true → is_Some (tdiv (of_int 1) len)) →
  σ !! l = Some v →
  ∃ σ', Vec3_normalize l σ = Ok l σ' ∧ normalize l σ = Ok tt σ'.
Proof.
  intros Hdiv Hl.
  rewrite Vec3_normalize_unfold, normalize_unfold, !run_bind.
  rewrite (run_Vec3_magnitude _ _ _ Hl), (run_magnitude _ _ _ Hl).
  rewrite run_bind, (run_normalize_body _ _ _ _ Hl).
  destruct (tgt _ _) eqn:Hlen; [|by eexists].
  destruct (Hdiv _ Hlen) as [lenInv ->]. by eexists.
Qed.

(** The method form returns the reference it was called on and touches no
    other object. *)
Lemma Vec3_normalize_returns_this σ l r σ' :
  Vec3_normalize l σ = Ok r σ' →
  r = l ∧ ∀ l', l' ≠ l → σ' !! l' = σ !! l'.
Proof.
  rewrite Vec3_normalize_unfold, run_bind.
  destruct (Vec3_magnitude l σ) as [len σ1|] eqn:Hmag; [|done].
  unfold Vec3_magnitude in Hmag. rewrite run_bind in Hmag.
  destruct (load l σ) as [v σ2|] eqn:Hload; [|done].
  apply load_frame in Hload as [-> Hl]. rewrite run_ret in Hmag.
  injection Hmag as <- <-.
  rewrite run_bind, (run_normalize_body _ _ _ _ Hl).
  destruct (tgt _ _).
  - destruct (tdiv _ _); [|done]. rewrite run_ret. intros [= <- <-].
    split; [done|]. intros l' Hne. by rewrite lookup_insert_ne.
  - rewrite run_ret. intros [= <- <-]. done.
Qed.

(** *** The two forms of each operation *)

Lemma discard_then_ret {A} (m : M (Vec3 T) unit) (c : A) σ :
  discard (m ;; mret c) σ = m σ.
Proof.
  unfold discard, bind. rewrite run_bind.
  destruct (m σ) as [[] σ'|]; reflexivity.
Qed.

(** C7: for [magnitude], [sqrMagnitude], [normalize], [dot] and [cross]
    the method form and the free-function form give the same outcome on
    every store and every pair of references: the same returned value, the
    same final store, the same fault.  For [normalize] the method returns
    [this] where the function returns nothing, so the outcomes are compared
    with the returned reference discarded; the free [cross] takes its first
    argument by value, so it is called on a copy of the object at [a]. *)
Theorem method_and_function_agree σ a b :
  Vec3_magnitude a σ = magnitude a σ ∧
  Vec3_sqrMagnitude a σ = sqrMagnitude a σ ∧
  discard (Vec3_normalize a) σ = normalize a σ ∧
  Vec3_dot a b σ = dot a b σ ∧
  Vec3_cross a b σ = (va ← load a; cross va b) σ.
Proof.
  repeat split.
  rewrite Vec3_normalize_unfold, normalize_unfold.
  unfold discard, bind. rewrite !run_bind.
  change (Vec3_magnitude a σ) with (magnitude a σ).
  destruct (magnitude a σ) as [len σ1|]; [|done].
  apply (discard_then_ret (normalize_body a len) a σ1).
Qed.

(** *** Operations that leave the store alone *)

Lemma pure_ret {A} (r : A) : pure (mret r : M (Vec3 T) A).
Proof. intros σ r' σ'. rewrite run_ret. by intros [= _ ->]. Qed.

Lemma pure_load l : pure (load l : M (Vec3 T) (Vec3 T)).
Proof. intros σ r σ' Hload. by apply load_frame in Hload as [-> _]. Qed.

Lemma pure_bind {A B} (m : M (Vec3 T) A) (k : A → M (Vec3 T) B) :
  pure m → (∀ r, pure (k r)) → pure (m ≫= k).
Proof.
  intros Hm Hk σ r σ'. rewrite run_bind.
  destruct (m σ) as [r1 σ1|] eqn:Hrun; [|done].
  apply Hm in Hrun as ->. apply Hk.
Qed.

(** *** [cross(b, a) * s] *)

Lemma run_with_temporary {A} σ (t : Vec3 T) (k : loc → M (Vec3 T) A) r :
  (∀ l, σ !! l = None → k l (<[l := t]> σ) = Ok r (<[l := t]> σ)) →
  with_temporary t k σ = Ok r σ.
Proof.
  intros Hk. unfold with_temporary.
  assert (σ !! fresh (dom σ) = None) as Hfresh
    by apply not_elem_of_dom, is_fresh.
  by rewrite (Hk _ Hfresh), delete_insert_id.
Qed.

Lemma run_scale_cross σ a b (va vb : Vec3 T) s :
  σ !! a = Some va → σ !! b = Some vb →
  scale_cross b a s σ =
    Ok (mkVec3 ((y vb * z va - z vb * y va) * s)
               ((z vb * x va - x vb * z va) * s)
               ((x vb * y va - y vb * x va) * s)) σ.
Proof.
  intros Ha Hb. unfold scale_cross.
  rewrite run_bind, (run_Vec3_cross σ b a vb va Hb Ha).
  apply run_with_temporary. intros l Hl. unfold Vec3_operator_times.
  by rewrite run_bind, (run_load _ l _ (lookup_insert_eq _ _ _)).
Qed.

(** Anti-commutativity reduces to a property of the scalar operations. *)
Lemma cross_anticommutes_intro (ok : T → Prop) (same : T → T → Prop) :
  (∀ p q r u : T, ok p → ok q → ok r → ok u →
     same (p * q - r * u) ((u * r - q * p) * of_int (-1))) →
  cross_anticommutes ok same.
Proof.
  intros Hsame σ a b va vb Ha Hb (?&?&?) (?&?&?). eexists _, _.
  rewrite (run_Vec3_cross σ a b va vb Ha Hb), (run_cross σ b va vb Hb).
  rewrite (run_scale_cross σ a b va vb _ Ha Hb).
  repeat split; by apply Hsame.
Qed.

End Generic.

Create HintDb pure.
#[local] Hint Resolve pure_ret pure_load : pure.
#[local] Hint Extern 2 (pure (_ ≫= _)) => apply pure_bind; [|intros ?] : pure.

(** C8: [operator+], [operator-], [operator*], [dot], [cross], [magnitude]
    and [sqrMagnitude] (methods and free functions) return in the store they
    started in: no component of any object, operand or not, is changed.
    [normalize] is not such an operation: on the [double] vector [(3, 4, 0)]
    both of its forms change the store. *)
Theorem only_normalize_mutates {T} `{!Scalar T} (a b : loc) (va : Vec3 T) (s : T) :
  pure (Vec3_operator_plus a b) ∧ pure (Vec3_operator_minus a b) ∧
  pure (Vec3_operator_times a s) ∧
  pure (Vec3_dot a b) ∧ pure (dot a b) ∧
  pure (Vec3_cross a b) ∧ pure (cross va b) ∧
  pure (Vec3_magnitude a) ∧ pure (magnitude a) ∧
  pure (Vec3_sqrMagnitude a) ∧ pure (sqrMagnitude a) ∧
  ¬ pure (Vec3_normalize (T:=c_double) 1) ∧
  ¬ pure (normalize (T:=c_double) 1).
Proof.
  repeat split; try (run_unfold; solve [auto 10 with pure]).
  - intros Hpure.
    destruct (Vec3_normalize (T:=c_double) 1 (one_object (vec_of_ints 3 4 0)))
      as [r σ'|] eqn:Hrun; [|vm_compute in Hrun; discriminate].
    apply Hpure in Hrun as Hσ. subst σ'.
    apply (f_equal (λ o, match o with
                         | Ok _ σ => x <$> σ !! 1%positive
                         | Err _ => None
                         end)) in Hrun.
    vm_compute in Hrun. discriminate.
  - intros Hpure.
    destruct (normalize (T:=c_double) 1 (one_object (vec_of_ints 3 4 0)))
      as [r σ'|] eqn:Hrun; [|vm_compute in Hrun; discriminate].
    apply Hpure in Hrun as Hσ. subst σ'.
    apply (f_equal (λ o, match o with
                         | Ok _ σ => x <$> σ !! 1%positive
                         | Err _ => None
                         end)) in Hrun.
    vm_compute in Hrun. discriminate.
Qed.

(** C10: in both headers the default constructor yields [(T(0), T(0), T(0))],
    the one-argument constructor yields [(t, t, t)] and the three-argument
    constructor yields [(x, y, z)]; component by component the constructors
    of [mfcg::Vec3] and [MFCG::Vec3] build the same triples.  [T(0)] is the
    zero of [int], the positive zero of [float] and of [double]. *)
Theorem constructors_agree {T} `{!Scalar T} (t _x _y _z : T) :
  mfcg_components mfcg.Vec3_ctor0 = (of_int 0, of_int 0, of_int 0) ∧
  MFCG_components MFCG.Vec3_ctor0 = (of_int 0, of_int 0, of_int 0) ∧
  mfcg_components (mfcg.Vec3_ctor1 t) = (t, t, t) ∧
  MFCG_components (MFCG.Vec3_ctor1 t) = (t, t, t) ∧
  mfcg_components (mfcg.Vec3_ctor3 _x _y _z) = (_x, _y, _z) ∧
  MFCG_components (MFCG.Vec3_ctor3 _x _y _z) = (_x, _y, _z) ∧
  (of_int 0 : c_int) = 0%Z ∧
  (of_int 0 : c_float) = S754_zero false ∧
  (of_int 0 : c_double) = 0%float.
Proof. repeat split. Qed.

(** X8: No operation of the three instantiations faults on existing objects:
    the only division, [1 / len] in [normalize], is guarded by [len > 0],
    under which the [int] division does not trap; [float] and [double]
    divisions never do. *)
Lemma normalize_never_faults :
  (∀ (σ : store (Vec3 c_int)) l v, σ !! l = Some v →
     ∃ σ', Vec3_normalize l σ = Ok l σ' ∧ normalize l σ = Ok tt σ') ∧
  (∀ (σ : store (Vec3 c_float)) l v, σ !! l = Some v →
     ∃ σ', Vec3_normalize l σ = Ok l σ' ∧ normalize l σ = Ok tt σ') ∧
  (∀ (σ : store (Vec3 c_double)) l v, σ !! l = Some v →
     ∃ σ', Vec3_normalize l σ = Ok l σ' ∧ normalize l σ = Ok tt σ').
Proof.
  repeat split; intros σ l v; apply normalize_succeeds; intros len Hlen;
    [|by eexists..].
  cbn [tgt tdiv of_int int_Scalar] in *. unfold Int32.gt, Int32.div in *.
  apply Z.ltb_lt in Hlen. change (Int32.wrap 0) with 0%Z in Hlen.
  destruct (len =? 0)%Z eqn:Hz; [apply Z.eqb_eq in Hz; lia|].
  by eexists.
Qed.

(** ** The examples of the specification, at [int], [float] and [double] *)

(** C1 at the zero vector: [normalize] leaves [(0, 0, 0)] as it is. *)
Lemma normalize_zero_vector_noop :
  (Vec3_normalize (T:=c_int) 1 (one_object Vec3_ctor0) = Ok 1%positive (one_object Vec3_ctor0) ∧
   normalize (T:=c_int) 1 (one_object Vec3_ctor0) = Ok tt (one_object Vec3_ctor0)) ∧
  (Vec3_normalize (T:=c_float) 1 (one_object Vec3_ctor0) = Ok 1%positive (one_object Vec3_ctor0) ∧
   normalize (T:=c_float) 1 (one_object Vec3_ctor0) = Ok tt (one_object Vec3_ctor0)) ∧
  (Vec3_normalize (T:=c_double) 1 (one_object Vec3_ctor0) = Ok 1%positive (one_object Vec3_ctor0) ∧
   normalize (T:=c_double) 1 (one_object Vec3_ctor0) = Ok tt (one_object Vec3_ctor0)).
Proof.
  split; [|split].
  - exact (normalize_nonpositive_noop (T:=c_int)
             (one_object Vec3_ctor0) 1%positive Vec3_ctor0 eq_refl eq_refl).
  - exact (normalize_nonpositive_noop (T:=c_float)
             (one_object Vec3_ctor0) 1%positive Vec3_ctor0 eq_refl eq_refl).
  - exact (normalize_nonpositive_noop (T:=c_double)
             (one_object Vec3_ctor0) 1%positive Vec3_ctor0 eq_refl eq_refl).
Defined.

(** C4 at [(3, 4, 0)]: magnitude [5], squared magnitude [25]. *)
Lemma magnitude_sqrMagnitude_3_4_0 :
  magnitude_example (T:=c_int) ∧ magnitude_example (T:=c_float) ∧
  magnitude_example (T:=c_double).
Proof.
  split; [|split].
  - exact (magnitude_sqrMagnitude_value (T:=c_int)
             (one_object (vec_of_ints 3 4 0)) 1%positive _ eq_refl).
  - exact (magnitude_sqrMagnitude_value (T:=c_float)
             (one_object (vec_of_ints 3 4 0)) 1%positive _ eq_refl).
  - exact (magnitude_sqrMagnitude_value (T:=c_double)
             (one_object (vec_of_ints 3 4 0)) 1%positive _ eq_refl).
Defined.

(** C5 at [a = (1, 2, 3)], [b = (4, 5, 6)]: [dot(a, b) = 32],
    [cross(a, b) = (-3, 6, -3)]. *)
Lemma dot_cross_1_2_3_4_5_6 :
  dot_cross_example (T:=c_int) ∧ dot_cross_example (T:=c_float) ∧
  dot_cross_example (T:=c_double).
Proof.
  split; [|split].
  - exact (dot_cross_value (T:=c_int)
             (two_objects (vec_of_ints 1 2 3) (vec_of_ints 4 5 6))
             1%positive 2%positive _ _ eq_refl eq_refl).
  - exact (dot_cross_value (T:=c_float)
             (two_objects (vec_of_ints 1 2 3) (vec_of_ints 4 5 6))
             1%positive 2%positive _ _ eq_refl eq_refl).
  - exact (dot_cross_value (T:=c_double)
             (two_objects (vec_of_ints 1 2 3) (vec_of_ints 4 5 6))
             1%positive 2%positive _ _ eq_refl eq_refl).
Defined.

(** C6 at [a = (1, 2, 3)], [b = (4, 5, 6)], [s = 2]: [a + b = (5, 7, 9)],
    [a - b = (-3, -3, -3)], [a * s = (2, 4, 6)]. *)
Lemma add_sub_scale_1_2_3_4_5_6 :
  add_sub_scale_example (T:=c_int) ∧ add_sub_scale_example (T:=c_float) ∧
  add_sub_scale_example (T:=c_double).
Proof.
  split; [|split].
  - exact (add_sub_scale_value (T:=c_int)
             (two_objects (vec_of_ints 1 2 3) (vec_of_ints 4 5 6))
             1%positive 2%positive _ _ (of_int 2) eq_refl eq_refl).
  - exact (add_sub_scale_value (T:=c_float)
             (two_objects (vec_of_ints 1 2 3) (vec_of_ints 4 5 6))
             1%positive 2%positive _ _ (of_int 2) eq_refl eq_refl).
  - exact (add_sub_scale_value (T:=c_double)
             (two_objects (vec_of_ints 1 2 3) (vec_of_ints 4 5 6))
             1%positive 2%positive _ _ (of_int 2) eq_refl eq_refl).
Defined.

(** ** Anti-commutativity of the cross product *)

(** *** [int]: arithmetic modulo [2 ^ 32] *)

#[local] Instance eqm32_equiv : Equivalence eqm32.
Proof. unfold eqm32. split; congruence. Qed.

#[local] Instance eqm32_add : Proper (eqm32 ==> eqm32 ==> eqm32) Z.add.
Proof.
  unfold eqm32. intros a a' Ha b b' Hb.
  by rewrite Z.add_mod, Ha, Hb, <- Z.add_mod.
Qed.

#[local] Instance eqm32_sub : Proper (eqm32 ==> eqm32 ==> eqm32) Z.sub.
Proof.
  unfold eqm32. intros a a' Ha b b' Hb.
  by rewrite Zminus_mod, Ha, Hb, <- Zminus_mod.
Qed.

#[local] Instance eqm32_mul : Proper (eqm32 ==> eqm32 ==> eqm32) Z.mul.
Proof.
  unfold eqm32. intros a a' Ha b b' Hb.
  by rewrite Z.mul_mod, Ha, Hb, <- Z.mul_mod.
Qed.

Lemma wrap_eqm32 (a : Z) : eqm32 (Int32.wrap a) a.
Proof.
  unfold eqm32, Int32.wrap.
  rewrite Zminus_mod, Z.mod_mod, <- Zminus_mod by lia.
  f_equal. lia.
Qed.

Lemma wrap_proper (a b : Z) : eqm32 a b → Int32.wrap a = Int32.wrap b.
Proof.
  unfold Int32.wrap. intros Hab.
  assert (eqm32 (a + 2 ^ 31) (b + 2 ^ 31)) as Heq by by rewrite Hab.
  unfold eqm32 in Heq. by rewrite Heq.
Qed.

Lemma wrap_range (a : Z) : (Int32.min_int ≤ Int32.wrap a ≤ Int32.max_int)%Z.
Proof.
  unfold Int32.wrap, Int32.min_int, Int32.max_int.
  pose proof (Z.mod_pos_bound (a + 2 ^ 31) (2 ^ 32)). lia.
Qed.

Lemma int_cross_component (p q r u : c_int) :
  (p * q - r * u)%S = ((u * r - q * p) * of_int (-1))%S.
Proof.
  cbn [tadd tsub tmul of_int int_Scalar].
  unfold Int32.sub, Int32.mul. apply wrap_proper.
  rewrite !wrap_eqm32. unfold eqm32. f_equal. ring.
Qed.

(** *** Exact arithmetic *)

Lemma real_cross_component (p q r u : R) :
  (p * q - r * u)%S = ((u * r - q * p) * of_int (-1))%S.
Proof. cbn [tadd tsub tmul of_int real_Scalar]. ring. Qed.

(** *** IEEE arithmetic at any precision *)

Section SpecFloat.
Variables prec emax : Z.

Lemma SFsame_refl a : SFsame a a.
Proof. by left. Qed.

Lemma SFmul_comm a b : SFmul prec emax a b = SFmul prec emax b a.
Proof.
  destruct a as [sa|sa| |sa ma ea], b as [sb|sb| |sb mb eb]; simpl;
    rewrite ?(xorb_comm sa sb); try reflexivity.
  by rewrite Pos.mul_comm, Z.add_comm.
Qed.

(** Rounding is symmetric: the sign goes through unchanged. *)
Lemma SFopp_binary_round_aux s m e l :
  SFopp (binary_round_aux prec emax s m e l) =
  binary_round_aux prec emax (negb s) m e l.
Proof.
  unfold binary_round_aux.
  destruct (shr_fexp prec emax m e l) as [mrs' e'].
  destruct (shr_fexp prec emax _ e' loc_Exact) as [mrs'' e''].
  destruct (shr_m mrs''); [done| |done].
  by destruct (e'' <=? emax - prec)%Z.
Qed.

Lemma SFopp_binary_round s m e :
  SFopp (binary_round prec emax s m e) = binary_round prec emax (negb s) m e.
Proof.
  unfold binary_round. destruct (shl_align m e _) as [mz ez].
  apply SFopp_binary_round_aux.
Qed.

(** [a - b] and [-(b - a)] are the same value. *)
Lemma SFsub_antisym a b :
  SFsame (SFsub prec emax a b) (SFopp (SFsub prec emax b a)).
Proof.
  destruct a as [sa|sa| |sa ma ea], b as [sb|sb| |sb mb eb]; simpl;
    try (destruct sa, sb; simpl; solve [by left | right; eauto]);
    try (destruct sa; simpl; solve [by left | right; eauto]);
    try (destruct sb; simpl; solve [by left | right; eauto]);
    try (by left).
  rewrite (Z.min_comm eb ea).
  set (ez := Z.min ea eb).
  set (A := cond_Zopp sa (Z.pos (shl_align ma ea ez).1)).
  set (B := cond_Zopp sb (Z.pos (shl_align mb eb ez).1)).
  replace (B - A)%Z with (- (A - B))%Z by lia.
  destruct (A - B)%Z as [|k|k]; simpl.
  - right; eauto.
  - left. by rewrite SFopp_binary_round.
  - left. by rewrite SFopp_binary_round.
Qed.

(** Multiplication by [-1] is exact: it only flips the sign.  [-1] is the
    float with mantissa [2 ^ (prec - 1)] and exponent [- (prec - 1)]. *)
Lemma iter_xO_mul p m : Pos.iter xO m p = (m * Pos.iter xO 1%positive p)%positive.
Proof.
  induction p as [|p IH] using Pos.peano_ind; [by rewrite Pos.mul_comm|].
  by rewrite !Pos.iter_succ, IH, Pos.mul_xO_r.
Qed.

Lemma digits2_iter_xO p m :
  digits2_pos (Pos.iter xO m p) = (digits2_pos m + p)%positive.
Proof.
  induction p as [|p IH] using Pos.peano_ind; simpl; [lia|].
  rewrite Pos.iter_succ. simpl. rewrite IH. lia.
Qed.

Lemma iter_shr_1_exact p m :
  SpecFloat.iter_pos shr_1 p (Build_shr_record (Z.pos (Pos.iter xO m p)) false false) =
  Build_shr_record (Z.pos m) false false.
Proof.
  revert m. induction p as [p IH|p IH|]; intros m; simpl.
  - by rewrite !IH.
  - by rewrite !IH.
  - done.
Qed.

(** A canonical mantissa is not shifted. *)
Lemma shr_fexp_canonical m e :
  fexp prec emax (Z.pos (digits2_pos m) + e) = e →
  shr_fexp prec emax (Z.pos m) e loc_Exact =
  (Build_shr_record (Z.pos m) false false, e).
Proof.
  intros Hcanon. unfold shr_fexp. cbn [Zdigits2 shr_record_of_loc].
  by rewrite Hcanon, Z.sub_diag.
Qed.

(** A canonical mantissa followed by [p] zero bits is shifted back, with
    nothing lost. *)
Lemma shr_fexp_shifted p m e :
  fexp prec emax (Z.pos (digits2_pos m) + e) = e →
  shr_fexp prec emax (Z.pos (Pos.iter xO m p)) (e + - Z.pos p) loc_Exact =
  (Build_shr_record (Z.pos m) false false, e).
Proof.
  intros Hcanon. unfold shr_fexp. cbn [Zdigits2 shr_record_of_loc].
  rewrite digits2_iter_xO.
  replace (Z.pos (digits2_pos m + p) + (e + - Z.pos p))%Z
    with (Z.pos (digits2_pos m) + e)%Z by lia.
  rewrite Hcanon.
  replace (e - (e + - Z.pos p))%Z with (Z.pos p) by lia.
  cbn [shr]. rewrite iter_shr_1_exact. f_equal. lia.
Qed.

Lemma SFmul_minus_one_finite p s m e :
  (prec - 1)%Z = Z.pos p →
  bounded prec emax m e = true →
  SFmul prec emax (S754_finite s m e)
    (S754_finite true (Pos.iter xO 1%positive p) (- Z.pos p)) =
  S754_finite (negb s) m e.
Proof.
  intros Hp [Hcanon Hbound]%andb_true_iff.
  unfold canonical_mantissa in Hcanon. apply Z.eqb_eq in Hcanon.
  cbn [SFmul]. rewrite <- iter_xO_mul, xorb_true_r.
  unfold binary_round_aux. rewrite (shr_fexp_shifted _ _ _ Hcanon).
  cbn [shr_m loc_of_shr_record round_nearest_even].
  rewrite (shr_fexp_canonical _ _ Hcanon). cbn [shr_m].
  by rewrite Hbound.
Qed.

Lemma SFmul_minus_one p a :
  (prec - 1)%Z = Z.pos p →
  SpecFloat.valid_binary prec emax a = true →
  SFmul prec emax a (S754_finite true (Pos.iter xO 1%positive p) (- Z.pos p)) =
  SFopp a.
Proof.
  intros Hp Hvalid. destruct a as [s|s| |s m e].
  - simpl. by rewrite xorb_true_r.
  - simpl. by rewrite xorb_true_r.
  - done.
  - by apply SFmul_minus_one_finite.
Qed.

(** The component identity behind anti-commutativity, when the difference
    [u * r - q * p] is a valid float. *)
Lemma SF_cross_component p' (p q r u : spec_float) :
  (prec - 1)%Z = Z.pos p' →
  SpecFloat.valid_binary prec emax
    (SFsub prec emax (SFmul prec emax u r) (SFmul prec emax q p)) = true →
  SFsame
    (SFsub prec emax (SFmul prec emax p q) (SFmul prec emax r u))
    (SFmul prec emax
       (SFsub prec emax (SFmul prec emax u r) (SFmul prec emax q p))
       (S754_finite true (Pos.iter xO 1%positive p') (- Z.pos p'))).
Proof.
  intros Hp Hvalid. rewrite (SFmul_minus_one _ _ Hp Hvalid).
  rewrite (SFmul_comm u r), (SFmul_comm q p). apply SFsub_antisym.
Qed.

(** **** Rounding returns valid floats *)

Local Open Scope Z_scope.

Lemma digits2_pos_size m : digits2_pos m = Pos.size m.
Proof. induction m as [m IH|m IH|]; simpl; by rewrite ?IH. Qed.

Lemma Zdigits2_log2 m : 0 < m → Zdigits2 m = Z.log2 m + 1.
Proof.
  destruct m as [|m|m]; [lia| |lia]. intros _. cbn [Zdigits2].
  destruct m as [m|m|]; simpl; rewrite ?digits2_pos_size; lia.
Qed.

Lemma Zdigits2_mono m n : 0 < m ≤ n → Zdigits2 m ≤ Zdigits2 n.
Proof.
  intros Hmn. rewrite !Zdigits2_log2 by lia.
  pose proof (Z.log2_le_mono m n). lia.
Qed.

Lemma fexp_mono a b : a ≤ b → fexp prec emax a ≤ fexp prec emax b.
Proof. unfold fexp. lia. Qed.

Lemma shr_m_record_of_loc m l : shr_m (shr_record_of_loc m l) = m.
Proof. by destruct l as [|[]]. Qed.

Lemma shr_1_m r : 0 ≤ shr_m r → shr_m (shr_1 r) = shr_m r / 2.
Proof.
  destruct r as [m r s]. cbn [shr_m]. intros Hm.
  rewrite <- Z.div2_div. by destruct m as [|[m|m|]|m].
Qed.

Lemma iter_shr_1_m p r :
  0 ≤ shr_m r → shr_m (SpecFloat.iter_pos shr_1 p r) = shr_m r / 2 ^ Z.pos p.
Proof.
  revert r. induction p as [p IH|p IH|]; intros r Hr; simpl.
  - assert (0 ≤ shr_m (shr_1 r)) as H1
      by (rewrite shr_1_m by done; apply Z.div_pos; lia).
    assert (0 ≤ shr_m (SpecFloat.iter_pos shr_1 p (shr_1 r))) as H2
      by (rewrite IH by done; apply Z.div_pos; lia).
    rewrite (IH _ H2), (IH _ H1), (shr_1_m _ Hr).
    rewrite !Z.div_div by lia. f_equal.
    replace (Z.pos p~1) with (1 + Z.pos p + Z.pos p) by lia.
    rewrite !Z.pow_add_r by lia. lia.
  - assert (0 ≤ shr_m (SpecFloat.iter_pos shr_1 p r)) as H2
      by (rewrite IH by done; apply Z.div_pos; lia).
    rewrite (IH _ H2), (IH _ Hr).
    rewrite !Z.div_div by lia. f_equal.
    replace (Z.pos p~0) with (Z.pos p + Z.pos p) by lia.
    rewrite !Z.pow_add_r by lia. lia.
  - by apply shr_1_m.
Qed.

(** What the shift to the target exponent does to a mantissa that is wide
    enough: the exponent becomes the target, the mantissa is divided, and
    what is left of it (if anything) has the target as its exponent. *)
Lemma shr_fexp_spec m e l mrs e' :
  0 ≤ m → e ≤ fexp prec emax (Zdigits2 m + e) →
  shr_fexp prec emax m e l = (mrs, e') →
  e' = fexp prec emax (Zdigits2 m + e) ∧
  shr_m mrs = m / 2 ^ (e' - e) ∧
  (shr_m mrs = 0 ∨ 0 < shr_m mrs ∧ Zdigits2 (shr_m mrs) + e' = Zdigits2 m + e).
Proof.
  intros Hm Hwide. unfold shr_fexp, shr.
  destruct (fexp prec emax (Zdigits2 m + e) - e) as [|n|n] eqn:Hn; [| |lia].
  - intros [= <- <-]. rewrite shr_m_record_of_loc, Z.sub_diag, Z.div_1_r.
    split; [lia|]. split; [done|]. lia.
  - intros [= <- <-].
    rewrite iter_shr_1_m, shr_m_record_of_loc by by rewrite shr_m_record_of_loc.
    replace (e + Z.pos n - e) with (Z.pos n) by lia.
    split; [lia|]. split; [done|].
    assert (0 ≤ m / 2 ^ Z.pos n) as Hq by (apply Z.div_pos; lia).
    destruct (decide (m / 2 ^ Z.pos n = 0)) as [|Hne]; [by left|right].
    split; [lia|].
    assert (0 < m) as Hm' by (destruct (decide (m = 0)) as [->|]; [done|lia]).
    rewrite !Zdigits2_log2 by lia.
    rewrite <- Z.shiftr_div_pow2, Z.log2_shiftr by lia.
    assert (Z.pos n ≤ Z.log2 m); [|lia].
    apply Z.log2_le_pow2; [lia|].
    destruct (decide (2 ^ Z.pos n ≤ m)) as [|Hlt]; [done|].
    rewrite Z.div_small in Hne; lia.
Qed.

Lemma round_nearest_even_cases m l :
  round_nearest_even m l = m ∨ round_nearest_even m l = m + 1.
Proof. destruct l as [|[]]; simpl; auto. destruct (Z.even m); auto. Qed.

(** Rounding a mantissa that is wide enough returns a valid float. *)
Lemma binary_round_aux_valid s m e l :
  0 < prec → 0 ≤ m → e ≤ fexp prec emax (Zdigits2 m + e) →
  SpecFloat.valid_binary prec emax (binary_round_aux prec emax s m e l) = true.
Proof.
  intros Hprec Hm Hwide. unfold binary_round_aux.
  destruct (shr_fexp prec emax m e l) as [mrs' e'] eqn:Hshr1.
  apply shr_fexp_spec in Hshr1 as (He' & Hm' & Hd'); [|done..].
  pose proof (round_nearest_even_cases (shr_m mrs') (loc_of_shr_record mrs'))
    as Hrne.
  set (m1 := round_nearest_even _ _) in *.
  assert (0 ≤ shr_m mrs') as Hm'pos by (rewrite Hm'; apply Z.div_pos; lia).
  assert (e' ≤ fexp prec emax (Zdigits2 m1 + e')) as Hwide1.
  { destruct Hd' as [Hzero|[Hpos Hd']].
    - assert (Zdigits2 m + e ≤ e') as Hsmall.
      { destruct (decide (m = 0)) as [->|]; [simpl in *; lia|].
        rewrite Zdigits2_log2 by lia.
        assert (Z.log2 m < e' - e); [|lia].
        apply Z.log2_lt_pow2; [lia|].
        destruct (decide (m < 2 ^ (e' - e))) as [|Hge]; [done|].
        assert (0 < 2 ^ (e' - e)) by (apply Z.pow_pos_nonneg; lia).
        assert (1 ≤ m / 2 ^ (e' - e)); [|lia].
        apply Z.div_le_lower_bound; lia. }
      unfold fexp in *. lia.
    - rewrite He' at 1. rewrite <- Hd'. apply fexp_mono.
      pose proof (Zdigits2_mono (shr_m mrs') m1). lia. }
  destruct (shr_fexp prec emax m1 e' loc_Exact) as [mrs'' e''] eqn:Hshr2.
  apply shr_fexp_spec in Hshr2 as (He'' & Hm'' & Hd''); [|lia|done].
  destruct (shr_m mrs'') as [|m2|m2] eqn:Hm2; [done| |done].
  destruct (e'' <=? emax - prec) eqn:Hle; [|done].
  cbn [SpecFloat.valid_binary]. unfold bounded, canonical_mantissa.
  rewrite Hle, andb_true_r. apply Z.eqb_eq.
  destruct Hd'' as [|[_ Hd'']]; [done|].
  cbn [Zdigits2] in Hd''. by rewrite Hd''.
Qed.

Lemma binary_round_valid s m e :
  0 < prec →
  SpecFloat.valid_binary prec emax (binary_round prec emax s m e) = true.
Proof.
  intros Hprec. unfold binary_round, shl_align.
  set (t := fexp prec emax (Z.pos (digits2_pos m) + e)).
  destruct (t - e) as [|d|d] eqn:Hd;
    apply binary_round_aux_valid; try done; cbn [Zdigits2]; fold t; try lia.
  rewrite digits2_iter_xO.
  replace (Z.pos (digits2_pos m + d) + t) with (Z.pos (digits2_pos m) + e)
    by lia.
  fold t. lia.
Qed.

Lemma SFopp_valid a :
  SpecFloat.valid_binary prec emax a = true →
  SpecFloat.valid_binary prec emax (SFopp a) = true.
Proof. by destruct a. Qed.

Lemma SFsub_valid a b :
  0 < prec →
  SpecFloat.valid_binary prec emax a = true →
  SpecFloat.valid_binary prec emax b = true →
  SpecFloat.valid_binary prec emax (SFsub prec emax a b) = true.
Proof.
  intros Hprec Ha Hb.
  destruct a as [sa|sa| |sa ma ea], b as [sb|sb| |sb mb eb]; simpl;
    try done; try (by destruct sa, sb).
  unfold binary_normalize.
  destruct (_ - _) as [|k|k]; [done|by apply binary_round_valid..].
Qed.

Lemma SFmul_valid a b :
  0 < prec → 3 ≤ emax + prec →
  SpecFloat.valid_binary prec emax a = true →
  SpecFloat.valid_binary prec emax b = true →
  SpecFloat.valid_binary prec emax (SFmul prec emax a b) = true.
Proof.
  intros Hprec Hemax Ha Hb.
  destruct a as [sa|sa| |sa ma ea], b as [sb|sb| |sb mb eb]; simpl; try done.
  apply binary_round_aux_valid; [done..|].
  cbn [SpecFloat.valid_binary] in Ha, Hb. unfold bounded in Ha, Hb.
  apply andb_true_iff in Ha as [Ha _], Hb as [Hb _].
  unfold canonical_mantissa in Ha, Hb. apply Z.eqb_eq in Ha, Hb.
  pose proof (Zdigits2_log2 (Z.pos ma) ltac:(done)) as Hda.
  pose proof (Zdigits2_log2 (Z.pos mb) ltac:(done)) as Hdb.
  pose proof (Zdigits2_log2 (Z.pos (ma * mb)) ltac:(done)) as Hdab.
  pose proof (Z.log2_mul_below (Z.pos ma) (Z.pos mb) ltac:(done) ltac:(done))
    as Hlog.
  pose proof (Z.log2_nonneg (Z.pos ma)). pose proof (Z.log2_nonneg (Z.pos mb)).
  cbn [Zdigits2] in *. rewrite <- Pos2Z.inj_mul in Hlog.
  unfold fexp, emin in *. lia.
Qed.

End SpecFloat.

(** *** [double] *)

Lemma SFsame_same_double (a b : float) :
  SFsame (Prim2SF a) (Prim2SF b) → same_double a b.
Proof.
  intros [Heq|(s & s' & Ha & Hb)].
  - left. by apply Prim2SF_inj.
  - right. by rewrite FloatAxioms.eqb_spec, Ha, Hb.
Qed.

(** The components of [cross(a, b)] and of [cross(b, a) * -1], in the
    specification of binary64. *)
Lemma double_cross_component_SF (p q r u : c_double) :
  SFsame (Prim2SF (p * q - r * u)%S)
         (Prim2SF ((u * r - q * p) * of_int (-1))%S).
Proof.
  cbn [tadd tsub tmul of_int double_Scalar].
  rewrite mul_spec, !sub_spec, !mul_spec.
  change (Prim2SF (Binary64.of_Z (-1)))
    with (S754_finite true (Pos.iter xO 1%positive 52) (- 52)).
  apply SF_cross_component; [done|].
  rewrite <- !mul_spec, <- sub_spec. apply Prim2SF_valid.
Qed.

Lemma double_cross_component (p q r u : c_double) :
  same_double (p * q - r * u)%S ((u * r - q * p) * of_int (-1))%S.
Proof. apply SFsame_same_double, double_cross_component_SF. Qed.

(** *** [float] *)

Lemma float_cross_component (p q r u : c_float) :
  Binary32.valid p → Binary32.valid q → Binary32.valid r → Binary32.valid u →
  SFsame (p * q - r * u)%S ((u * r - q * p) * of_int (-1))%S.
Proof.
  unfold Binary32.valid. intros Hp Hq Hr Hu.
  cbn [tadd tsub tmul of_int float_Scalar].
  change (Binary32.of_Z (-1))
    with (S754_finite true (Pos.iter xO 1%positive 23) (- 23)).
  apply SF_cross_component; [done|].
  apply SFsub_valid; [done|apply SFmul_valid; done..].
Qed.

(** The zeros of opposite sign do occur: on [double], [cross(a, a)] for
    [a = (1, 0, 0)] is [(+0, +0, +0)] while [cross(a, a) * -1] is
    [(-0, -0, -0)]; and on [a = (1, 2, 3)], [b = (4, 5, 6)] both sides are
    [(-3, 6, -3)]. *)
Lemma cross_anticommutative_examples :
  Vec3_cross (T:=c_double) 1 1 (one_object (vec_of_ints 1 0 0)) =
    Ok (mkVec3 0 0 0)%float (one_object (vec_of_ints 1 0 0)) ∧
  scale_cross (T:=c_double) 1 1 (of_int (-1)) (one_object (vec_of_ints 1 0 0)) =
    Ok (mkVec3 (-0) (-0) (-0))%float (one_object (vec_of_ints 1 0 0)) ∧
  Vec3_cross (T:=c_double) 1 2
      (two_objects (vec_of_ints 1 2 3) (vec_of_ints 4 5 6)) =
    Ok (vec_of_ints (-3) 6 (-3))
      (two_objects (vec_of_ints 1 2 3) (vec_of_ints 4 5 6)) ∧
  scale_cross (T:=c_double) 2 1 (of_int (-1))
      (two_objects (vec_of_ints 1 2 3) (vec_of_ints 4 5 6)) =
    Ok (vec_of_ints (-3) 6 (-3))
      (two_objects (vec_of_ints 1 2 3) (vec_of_ints 4 5 6)).
Proof. repeat split; vm_compute; reflexivity. Qed.

(** ** Normalisation *)

(** *** Exact arithmetic *)

Lemma real_gt_zero (a : R) : tgt a (of_int 0) = true ↔ (0 < a)%R.
Proof.
  cbn [tgt of_int real_Scalar]. unfold Exact.gt.
  destruct (Rlt_dec 0 a); split; intros; done.
Qed.

Lemma real_div (a b : R) : b ≠ 0%R → tdiv a b = Some (a / b)%R.
Proof.
  intros Hb. cbn [tdiv real_Scalar]. unfold Exact.div.
  by destruct (Req_dec_T b 0).
Qed.

Lemma real_sqrt_positive (s : R) :
  (0 < R_sqrt.sqrt s)%R → (0 < s)%R ∧ (R_sqrt.sqrt s * R_sqrt.sqrt s = s)%R.
Proof.
  intros Hpos. assert (0 < s)%R as Hs.
  { destruct (Rle_or_lt s 0) as [Hle|]; [|done].
    rewrite (sqrt_neg_0 s Hle) in Hpos. lra. }
  split; [done|]. apply sqrt_sqrt. lra.
Qed.

(** Over the reals [normalize] multiplies by the reciprocal of the
    magnitude, which exists. *)
Lemma run_normalize_real (σ : store (Vec3 R)) l v :
  σ !! l = Some v →
  tgt (tsqrt (x v * x v + y v * y v + z v * z v)%S) (of_int 0) = true →
  let inv := (1 / R_sqrt.sqrt (x v * x v + y v * y v + z v * z v))%R in
  Vec3_normalize l σ =
    Ok l (<[l := mkVec3 (x v * inv)%R (y v * inv)%R (z v * inv)%R]> σ) ∧
  normalize l σ =
    Ok tt (<[l := mkVec3 (x v * inv)%R (y v * inv)%R (z v * inv)%R]> σ).
Proof.
  intros Hl Hlen inv. apply (run_normalize_positive σ l v inv Hl Hlen).
  apply real_gt_zero in Hlen. apply real_div.
  cbn [tsqrt tadd tmul real_Scalar] in *. lra.
Qed.

(** *** Floating-point arithmetic: rounding errors

    Every operation of [normalize] is correctly rounded: away from overflow
    and from the subnormal numbers its result is the exact one up to a
    relative error of [2^(1-prec)].  The errors of the nine multiplications,
    four additions, two square roots and the division add up to at most
    [32 * 2^-23 = 2^-18]. *)
Section RoundingErrors.
Local Open Scope R_scope.

(** Powers of two. *)
Lemma bpow_pos e : 0 < bpow e.
Proof. apply powerRZ_lt. lra. Qed.

Lemma bpow_add a b : bpow (a + b) = bpow a * bpow b.
Proof. apply powerRZ_add. lra. Qed.

Lemma bpow_0 : bpow 0 = 1.
Proof. reflexivity. Qed.

Lemma bpow_1 : bpow 1 = 2.
Proof. unfold bpow. simpl. lra. Qed.

Lemma bpow_IZR (n : Z) : (0 ≤ n)%Z → bpow n = IZR (2 ^ n)%Z.
Proof.
  intros Hn. unfold bpow. destruct n as [|p|p]; [done| |lia].
  change (2 ^ Z.pos p)%Z with (Z.pow_pos 2 p).
  by rewrite Zpower_pos_powerRZ.
Qed.

Lemma bpow_ge_1 (n : Z) : (0 ≤ n)%Z → 1 <= bpow n.
Proof.
  intros Hn. rewrite bpow_IZR by done. apply IZR_le.
  pose proof (Z.pow_pos_nonneg 2 n). lia.
Qed.

Lemma bpow_le (a b : Z) : (a ≤ b)%Z → bpow a <= bpow b.
Proof.
  intros Hab. replace b with (a + (b - a))%Z by lia. rewrite bpow_add.
  pose proof (bpow_pos a). pose proof (bpow_ge_1 (b - a) ltac:(lia)). nra.
Qed.

Lemma bpow_succ a : bpow (a + 1) = 2 * bpow a.
Proof. rewrite bpow_add. rewrite bpow_1. lra. Qed.

Lemma bpow_opp a : bpow (- a) = / bpow a.
Proof. apply powerRZ_neg'. Qed.


Lemma F2R_shift (m e n : Z) : (0 ≤ n)%Z → F2R (m * 2 ^ n) (e - n) = F2R m e.
Proof.
  intros Hn. unfold F2R. rewrite mult_IZR, <- bpow_IZR by done.
  replace e with ((e - n) + n)%Z at 2 by lia. rewrite bpow_add. ring.
Qed.

Lemma F2R_le (m n e : Z) : (m ≤ n)%Z → F2R m e <= F2R n e.
Proof. intros H. unfold F2R. apply IZR_le in H. pose proof (bpow_pos e). nra. Qed.

(** Digits and magnitude. *)
Lemma Zdigits2_bounds (m : Z) : (0 < m)%Z → (2 ^ (Zdigits2 m - 1) ≤ m < 2 ^ Zdigits2 m)%Z.
Proof.
  intros Hm. rewrite (Zdigits2_log2 m Hm).
  pose proof (Z.log2_spec m Hm).
  replace (Z.log2 m + 1 - 1)%Z with (Z.log2 m) by lia.
  replace (Z.log2 m + 1)%Z with (Z.succ (Z.log2 m)) by lia. done.
Qed.

Section Rounding.
Variables prec emax : Z.
Hypothesis Hprec : (2 ≤ prec)%Z.
Hypothesis Hemax : (prec < emax)%Z.

Local Abbreviation fexp' := (SpecFloat.fexp prec emax).
Local Abbreviation emin' := (SpecFloat.emin prec emax).

Lemma F2R_succ m e : F2R (m + 1) e = F2R m e + bpow e.
Proof. unfold F2R. rewrite plus_IZR. ring. Qed.

Lemma F2R_div_exact (m k e : Z) :
  (0 ≤ k)%Z → (m mod 2 ^ k = 0)%Z → F2R (m / 2 ^ k) (e + k) = F2R m e.
Proof.
  intros Hk Hmod. rewrite <- (F2R_shift (m / 2 ^ k) (e + k) k Hk).
  replace (e + k - k)%Z with e by lia. f_equal.
  pose proof (Z.div_mod m (2 ^ k) ltac:(pose proof (Z.pow_pos_nonneg 2 k); lia)).
  lia.
Qed.

(** Truncating [m] by [n] bits keeps the value in the truncated bracket. *)
Lemma F2R_trunc_bracket (m e n : Z) r :
  (0 ≤ m)%Z → (0 ≤ n)%Z →
  F2R m e <= r < F2R (m + 1) e →
  F2R (m / 2 ^ n) (e + n) <= r < F2R (m / 2 ^ n + 1) (e + n).
Proof.
  intros Hm Hn [Hlo Hhi].
  assert (0 < 2 ^ n)%Z as Hpow by (apply Z.pow_pos_nonneg; lia).
  pose proof (Z.mul_div_le m (2 ^ n) Hpow) as Hle.
  pose proof (Z.mul_succ_div_gt m (2 ^ n) Hpow) as Hgt.
  rewrite <- (F2R_shift (m / 2 ^ n) (e + n) n Hn).
  rewrite <- (F2R_shift (m / 2 ^ n + 1) (e + n) n Hn).
  replace (e + n - n)%Z with e by lia. split.
  - eapply Rle_trans; [|exact Hlo]. apply F2R_le. lia.
  - eapply Rlt_le_trans; [exact Hhi|]. apply F2R_le. lia.
Qed.

Lemma fexp_succ a : (fexp' (a + 1) ≤ fexp' a + 1)%Z.
Proof. unfold SpecFloat.fexp. lia. Qed.

(** The unit in the last place is small relative to the value, or is the
    smallest one. *)
Lemma ulp_bound (m e : Z) :
  (0 < m)%Z →
  bpow (fexp' (Zdigits2 m + e)) <= bpow (1 - prec) * F2R m e + bpow emin'.
Proof.
  intros Hm. pose proof (Zdigits2_bounds m Hm) as [Hlo _].
  pose proof (bpow_pos emin'). pose proof (bpow_pos (1 - prec)).
  assert (0 <= Zdigits2 m - 1)%Z as Hd
    by (rewrite Zdigits2_log2 by done; pose proof (Z.log2_nonneg m); lia).
  assert (bpow (Zdigits2 m - 1) <= IZR m) as Hm'
    by (rewrite bpow_IZR by done; by apply IZR_le).
  assert (0 <= F2R m e) as Hpos.
  { unfold F2R. apply Rmult_le_pos; [apply IZR_le; lia|]. pose proof (bpow_pos e). lra. }
  unfold SpecFloat.fexp.
  destruct (Z.max_spec (Zdigits2 m + e - prec) emin') as [[_ ->]|[_ ->]].
  - nra.
  - replace (Zdigits2 m + e - prec)%Z
      with ((1 - prec) + ((Zdigits2 m - 1) + e))%Z by lia.
    rewrite !bpow_add. unfold F2R. pose proof (bpow_pos e).
    assert (bpow (Zdigits2 m - 1) * bpow e <= IZR m * bpow e) by nra.
    nra.
Qed.

(** After the first shift and the rounding, the mantissa is still wide
    enough for its exponent. *)
Lemma round_wide (m e e' m' m1 : Z) :
  (0 ≤ m)%Z → (e ≤ fexp' (Zdigits2 m + e))%Z →
  e' = fexp' (Zdigits2 m + e) →
  m' = (m / 2 ^ (e' - e))%Z →
  (m' = 0 ∨ 0 < m' ∧ Zdigits2 m' + e' = Zdigits2 m + e)%Z →
  (m1 = m' ∨ m1 = m' + 1)%Z →
  (e' ≤ fexp' (Zdigits2 m1 + e'))%Z.
Proof.
  intros Hm Hwide He' Hm' Hd' Hm1.
  destruct Hd' as [Hzero|[Hpos Hd']].
  - assert (Zdigits2 m + e ≤ e')%Z as Hsmall.
    { destruct (decide (m = 0%Z)) as [->|]; [simpl in *; lia|].
      rewrite Zdigits2_log2 by lia.
      assert (Z.log2 m < e' - e)%Z; [|lia].
      apply Z.log2_lt_pow2; [lia|].
      destruct (decide (m < 2 ^ (e' - e))%Z) as [|Hge]; [done|].
      assert (0 < 2 ^ (e' - e))%Z by (apply Z.pow_pos_nonneg; lia).
      assert (1 ≤ m / 2 ^ (e' - e))%Z; [|lia].
      apply Z.div_le_lower_bound; lia. }
    unfold SpecFloat.fexp in *. lia.
  - rewrite He' at 1. rewrite <- Hd'. apply fexp_mono.
    pose proof (Zdigits2_mono m' m1). lia.
Qed.

(** The second shift, after the rounding, loses nothing. *)
Lemma second_shift_exact (m e e' m' m1 e'' : Z) :
  (0 < m)%Z → (e ≤ fexp' (Zdigits2 m + e))%Z →
  e' = fexp' (Zdigits2 m + e) →
  m' = (m / 2 ^ (e' - e))%Z →
  (m' = 0 ∨ 0 < m' ∧ Zdigits2 m' + e' = Zdigits2 m + e)%Z →
  (m1 = m' ∨ m1 = m' + 1)%Z →
  e'' = fexp' (Zdigits2 m1 + e') →
  (e' ≤ e'')%Z ∧ F2R (m1 / 2 ^ (e'' - e')) e'' = F2R m1 e'.
Proof.
  intros Hm Hwide He' Hm' Hd' Hm1 He''.
  pose proof (round_wide m e e' m' m1 ltac:(lia) Hwide He' Hm' Hd' Hm1) as Hwide1.
  split; [lia|].
  assert ((e'' - e' = 0 ∨ e'' - e' = 1 ∧ m1 mod 2 = 0)%Z ∨ m1 = 0%Z) as Hcases.
  { destruct Hd' as [Hzero|[Hpos Hd']].
    - destruct Hm1 as [->| ->]; [by right|left; left].
      rewrite Hzero in *. cbn in He''.
      assert (Zdigits2 m + e ≤ e')%Z as Hsmall.
      { rewrite Zdigits2_log2 by lia.
        assert (Z.log2 m < e' - e)%Z; [|lia].
        apply Z.log2_lt_pow2; [lia|].
        destruct (decide (m < 2 ^ (e' - e))%Z) as [|Hge]; [done|].
        assert (0 < 2 ^ (e' - e))%Z by (apply Z.pow_pos_nonneg; lia).
        assert (1 ≤ m / 2 ^ (e' - e))%Z; [|lia].
        apply Z.div_le_lower_bound; lia. }
      unfold SpecFloat.fexp, SpecFloat.emin in *. change (Zdigits2 (0 + 1)) with 1%Z in *. lia.
    - left. destruct Hm1 as [->| ->]; [left; rewrite Hd' in He''; lia|].
      pose proof (Zdigits2_bounds m' Hpos) as [Hlo Hhi].
      pose proof (Zdigits2_bounds (m' + 1) ltac:(lia)) as [Hlo1 Hhi1].
      pose proof (Zdigits2_mono m' (m' + 1) ltac:(lia)) as Hmono.
      assert (0 < Zdigits2 m')%Z as Hdpos
        by (rewrite Zdigits2_log2 by done; pose proof (Z.log2_nonneg m'); lia).
      destruct (decide (Zdigits2 (m' + 1) = Zdigits2 m')) as [Heq|Hne].
      + left. rewrite Heq, Hd' in He''. lia.
      + assert (Zdigits2 (m' + 1) = Zdigits2 m' + 1)%Z as Hsucc.
        { assert (Zdigits2 (m' + 1) ≤ Zdigits2 m' + 1)%Z; [|lia].
          rewrite !Zdigits2_log2 by lia.
          pose proof (Z.log2_succ_le m'). 
          replace (m' + 1)%Z with (Z.succ m') by lia. lia. }
        rewrite Hsucc in Hlo1. replace (Zdigits2 m' + 1 - 1)%Z with (Zdigits2 m') in Hlo1 by lia.
        assert (m' + 1 = 2 ^ Zdigits2 m')%Z as Hpow2 by lia.
        pose proof (fexp_succ (Zdigits2 m' + e')) as Hs.
        pose proof (fexp_mono prec emax (Zdigits2 m' + e') (Zdigits2 m' + e' + 1) ltac:(lia)).
        rewrite Hsucc in He''.
        replace (Zdigits2 m' + 1 + e')%Z with (Zdigits2 m' + e' + 1)%Z in He'' by lia.
        assert (fexp' (Zdigits2 m' + e') = e') as Hcan by (rewrite Hd'; lia).
        destruct (decide (e'' = e')) as [|Hne']; [left; lia|right].
        split; [lia|]. rewrite Hpow2.
        replace (Zdigits2 m') with (1 + (Zdigits2 m' - 1))%Z by lia.
        rewrite Z.pow_add_r by lia. change (2 ^ 1)%Z with 2%Z.
        rewrite Z.mul_comm. apply Z.mod_mul. lia. }
  destruct Hcases as [[Hz|[Hone Heven]]|Hz].
  - replace (e'' - e')%Z with 0%Z by lia. rewrite Z.div_1_r. f_equal. lia.
  - replace e'' with (e' + 1)%Z by lia.
    replace (e' + 1 - e')%Z with 1%Z by lia.
    apply (F2R_div_exact m1 1 e'); [lia|done].
  - subst m1. rewrite Z.div_0_l by (pose proof (Z.pow_pos_nonneg 2 (e'' - e')); lia).
    unfold F2R. lra.
Qed.

(** Rounding is accurate to one unit in the last place of the result, and
    does not overflow on values below [2 ^ (emax - 1)]: for a mantissa [m]
    wide enough for its exponent [e], standing for a real [r] between
    [m * 2^e] and [(m + 1) * 2^e]. *)
Lemma binary_round_aux_error s (m e : Z) l r :
  (0 < m)%Z →
  (e ≤ fexp' (Zdigits2 m + e))%Z →
  F2R m e <= r < F2R (m + 1) e →
  r < bpow (emax - 1) →
  SFfinite (binary_round_aux prec emax s m e l) ∧
  SFsign (binary_round_aux prec emax s m e l) = s ∧
  r - bpow (fexp' (Zdigits2 m + e))
    <= SFabsR (binary_round_aux prec emax s m e l)
    <= r + bpow (fexp' (Zdigits2 m + e)).
Proof.
  intros Hm Hwide Hr Hmax. unfold binary_round_aux.
  destruct (shr_fexp prec emax m e l) as [mrs' e'] eqn:Hshr1.
  apply shr_fexp_spec in Hshr1 as (He' & Hm' & Hd'); [|lia|done].
  pose proof (round_nearest_even_cases (shr_m mrs') (loc_of_shr_record mrs'))
    as Hrne.
  set (m1 := round_nearest_even _ _) in *.
  set (m' := shr_m mrs') in *.
  assert (0 ≤ m')%Z as Hm'pos by (rewrite Hm'; apply Z.div_pos; lia).
  pose proof (round_wide m e e' m' m1 ltac:(lia) Hwide He' Hm' Hd' Hrne)
    as Hwide1.
  destruct (shr_fexp prec emax m1 e' loc_Exact) as [mrs'' e''] eqn:Hshr2.
  apply shr_fexp_spec in Hshr2 as (He'' & Hm'' & Hd''); [|lia|done].
  destruct (second_shift_exact m e e' m' m1 e'' Hm Hwide He' Hm' Hd' Hrne He'')
    as [Hee Hexact].
  rewrite <- Hm'' in Hexact.
  (* the bracket around [r] after the first shift *)
  assert (F2R m' e' <= r < F2R (m' + 1) e') as Hbr.
  { replace e' with (e + (e' - e))%Z by lia. rewrite Hm'.
    apply F2R_trunc_bracket; [lia|lia|done]. }
  rewrite F2R_succ in Hbr.
  assert (r - bpow e' <= F2R m1 e' <= r + bpow e') as Herr.
  { destruct Hrne as [->| ->]; rewrite ?F2R_succ; lra. }
  rewrite <- He'.
  destruct (shr_m mrs'') as [|p|p] eqn:Hp.
  - cbn [SFfinite SFsign SFabsR]. split; [done|]. split; [done|].
    rewrite <- Hexact in Herr. unfold F2R in Herr.
    rewrite Rmult_0_l in Herr. exact Herr.
  - assert (e'' ≤ emax - prec)%Z as Hfit.
    { destruct (decide (e'' ≤ emax - prec)%Z) as [|Hover]; [done|exfalso].
      destruct Hd'' as [|[_ Hd'']]; [done|].
      assert (fexp' (Zdigits2 (Z.pos p) + e'') = e'') as Hcan
        by (rewrite Hd''; lia).
      assert (Zdigits2 (Z.pos p) = prec) as Hdp
        by (unfold SpecFloat.fexp, SpecFloat.emin in Hcan; lia).
      pose proof (Zdigits2_bounds (Z.pos p) ltac:(done)) as [Hlo _].
      rewrite Hdp in Hlo. apply IZR_le in Hlo.
      rewrite <- bpow_IZR in Hlo by lia.
      assert (bpow (prec - 1) * bpow e'' <= F2R m1 e') as Hbig
        by (rewrite <- Hexact; unfold F2R; pose proof (bpow_pos e''); nra).
      pose proof (bpow_le e' e'' Hee) as Hulp.
      pose proof (bpow_le 1 (prec - 1) ltac:(lia)) as Htwo.
      rewrite bpow_1 in Htwo.
      pose proof (bpow_le emax (prec - 1 + e'') ltac:(lia)) as Hge.
      rewrite bpow_add in Hge.
      replace emax with ((emax - 1) + 1)%Z in Hge at 1 by lia.
      rewrite bpow_succ in Hge.
      pose proof (bpow_pos e'). pose proof (bpow_pos e'').
      assert (2 * bpow e' <= F2R m1 e') by nra.
      lra. }
    apply Z.leb_le in Hfit as ->.
    cbn [SFfinite SFsign SFabsR]. split; [done|]. split; [done|].
    by rewrite Hexact.
  - pose proof (Z.div_pos m1 (2 ^ (e'' - e'))
                  ltac:(lia) ltac:(apply Z.pow_pos_nonneg; lia)).
    lia.
Qed.

(** The same bound relative to the value. *)
Lemma binary_round_aux_relative s (m e : Z) l r :
  (0 < m)%Z →
  (e ≤ fexp' (Zdigits2 m + e))%Z →
  F2R m e <= r < F2R (m + 1) e →
  r < bpow (emax - 1) →
  SFfinite (binary_round_aux prec emax s m e l) ∧
  SFsign (binary_round_aux prec emax s m e l) = s ∧
  r - (bpow (1 - prec) * r + bpow emin')
    <= SFabsR (binary_round_aux prec emax s m e l)
    <= r + (bpow (1 - prec) * r + bpow emin').
Proof.
  intros Hm Hwide Hr Hmax.
  destruct (binary_round_aux_error s m e l r Hm Hwide Hr Hmax)
    as (Hfin & Hsign & Herr).
  split; [done|]. split; [done|].
  pose proof (ulp_bound m e Hm) as Hulp.
  pose proof (bpow_pos (1 - prec)). nra.
Qed.

End Rounding.

(** Shifting a mantissa left by [d] bits multiplies it by [2^d]. *)
Lemma Zpos_iter_xO (m d : positive) :
  Z.pos (Pos.iter xO m d) = (Z.pos m * 2 ^ Z.pos d)%Z.
Proof.
  induction d as [|d IH] using Pos.peano_ind.
  - simpl. lia.
  - rewrite Pos.iter_succ, Pos2Z.inj_xO, IH, Pos2Z.inj_succ, Z.pow_succ_r by lia.
    lia.
Qed.

Section Operations.
Variables prec emax : Z.
Hypothesis Hprec : (2 ≤ prec)%Z.
Hypothesis Hemax : (prec < emax)%Z.

Local Abbreviation fexp' := (SpecFloat.fexp prec emax).
Local Abbreviation emin' := (SpecFloat.emin prec emax).
Local Abbreviation valid := (SpecFloat.valid_binary prec emax).
Local Abbreviation eps := (bpow (1 - prec)).
Local Abbreviation eta := (bpow emin').

Lemma bounded_canonical m e :
  bounded prec emax m e = true →
  fexp' (Zdigits2 (Z.pos m) + e) = e ∧ (e ≤ emax - prec)%Z.
Proof.
  intros [Hc Hb]%andb_true_iff. unfold canonical_mantissa in Hc.
  apply Z.eqb_eq in Hc. apply Z.leb_le in Hb. done.
Qed.

Lemma approx_refl r : 0 <= r → approx prec emax r r.
Proof.
  intros Hr. unfold approx. pose proof (bpow_pos (1 - prec)).
  pose proof (bpow_pos emin'). nra.
Qed.

(** *** Rounding a positive number *)
Lemma shl_align_value m e e0 :
  F2R (Z.pos (shl_align m e e0).1) (shl_align m e e0).2 = F2R (Z.pos m) e.
Proof.
  unfold shl_align. destruct (e0 - e)%Z as [|d|d] eqn:Hd; [done..|].
  cbn [fst snd]. rewrite Zpos_iter_xO.
  rewrite <- (F2R_shift (Z.pos m) e (Z.pos d)) by lia.
  f_equal. lia.
Qed.

(** Rounding the positive number [m * 2^e], away from overflow: the result
    is finite, of the given sign, valid, and approximates the number. *)
Lemma binary_round_error s m e :
  F2R (Z.pos m) e < bpow (emax - 1) →
  SFfinite (binary_round prec emax s m e) ∧
  SFsign (binary_round prec emax s m e) = s ∧
  valid (binary_round prec emax s m e) = true ∧
  approx prec emax (SFabsR (binary_round prec emax s m e)) (F2R (Z.pos m) e).
Proof.
  intros Hmax.
  pose proof (binary_round_valid prec emax s m e ltac:(lia)) as Hvalid.
  split; [|split; [|split; [done|]]]; revert Hvalid; unfold binary_round;
    pose proof (shl_align_value m e (fexp' (Z.pos (digits2_pos m) + e))) as Hval;
    assert ((shl_align m e (fexp' (Z.pos (digits2_pos m) + e))).2
            ≤ fexp' (Zdigits2 (Z.pos (shl_align m e (fexp' (Z.pos (digits2_pos m) + e))).1)
                     + (shl_align m e (fexp' (Z.pos (digits2_pos m) + e))).2))%Z as Hwide.
  all: try (unfold shl_align; set (t := fexp' (Z.pos (digits2_pos m) + e));
    destruct (t - e)%Z as [|d|d] eqn:Hd; cbn [fst snd Zdigits2]; fold t; try lia;
    rewrite digits2_iter_xO;
    replace (Z.pos (digits2_pos m + d) + t)%Z with (Z.pos (digits2_pos m) + e)%Z by lia;
    fold t; lia).
  all: destruct (shl_align m e _) as [mz ez]; cbn [fst snd] in *; intros _;
    destruct (binary_round_aux_relative prec emax Hprec Hemax s (Z.pos mz) ez loc_Exact
                (F2R (Z.pos m) e)) as (Hfin & Hsign & Herr);
    [done|done|rewrite <- Hval, F2R_succ; pose proof (bpow_pos ez); lra|done|..];
    done.
Qed.
(** *** Multiplication *)
Lemma F2R_mul (m1 e1 m2 e2 : Z) :
  F2R (m1 * m2) (e1 + e2) = F2R m1 e1 * F2R m2 e2.
Proof. unfold F2R. rewrite mult_IZR, bpow_add. ring. Qed.

Lemma mul_wide mx ex my ey :
  bounded prec emax mx ex = true → bounded prec emax my ey = true →
  (ex + ey ≤ fexp' (Zdigits2 (Z.pos (mx * my)) + (ex + ey)))%Z.
Proof.
  intros [Hx _]%bounded_canonical [Hy _]%bounded_canonical.
  pose proof (Zdigits2_log2 (Z.pos mx) ltac:(done)) as Hda.
  pose proof (Zdigits2_log2 (Z.pos my) ltac:(done)) as Hdb.
  pose proof (Zdigits2_log2 (Z.pos (mx * my)) ltac:(done)) as Hdab.
  pose proof (Z.log2_mul_below (Z.pos mx) (Z.pos my) ltac:(done) ltac:(done))
    as Hlog.
  pose proof (Z.log2_nonneg (Z.pos mx)). pose proof (Z.log2_nonneg (Z.pos my)).
  rewrite <- Pos2Z.inj_mul in Hlog.
  unfold SpecFloat.fexp, SpecFloat.emin in *. lia.
Qed.

(** The product of two finite numbers, away from overflow, approximates
    the product of their absolute values; its sign is the product of the
    signs. *)
Lemma SFmul_error x y :
  valid x = true → valid y = true → SFfinite x → SFfinite y →
  SFabsR x * SFabsR y < bpow (emax - 1) →
  SFfinite (SFmul prec emax x y) ∧
  SFsign (SFmul prec emax x y) = xorb (SFsign x) (SFsign y) ∧
  valid (SFmul prec emax x y) = true ∧
  approx prec emax (SFabsR (SFmul prec emax x y)) (SFabsR x * SFabsR y).
Proof.
  intros Hvx Hvy Hfx Hfy Hmax.
  pose proof (SFmul_valid prec emax x y ltac:(lia) ltac:(lia) Hvx Hvy) as Hv.
  destruct x as [sx|sx| |sx mx ex], y as [sy|sy| |sy my ey]; try done;
    cbn [SFmul SFabsR SFsign SFfinite] in *;
    rewrite ?Rmult_0_l, ?Rmult_0_r;
    try (split; [done|split; [done|split; [done|apply approx_refl; lra]]]).
  destruct (binary_round_aux_relative prec emax Hprec Hemax (xorb sx sy)
              (Z.pos (mx * my)) (ex + ey) loc_Exact
              (F2R (Z.pos mx) ex * F2R (Z.pos my) ey))
    as (Hfin & Hsign & Herr); [done|by apply mul_wide| |done|done].
  rewrite F2R_succ, Pos2Z.inj_mul, F2R_mul.
  pose proof (bpow_pos (ex + ey)). lra.
Qed.

(** *** Addition of non-negative numbers *)
Lemma shl_align_fst_value m (e e0 : Z) :
  (e0 ≤ e)%Z → F2R (Z.pos (shl_align m e e0).1) e0 = F2R (Z.pos m) e.
Proof.
  intros Hle. rewrite <- (shl_align_value m e e0). f_equal.
  unfold shl_align. destruct (e0 - e)%Z as [|d|d] eqn:Hd; cbn [snd]; lia.
Qed.

Lemma F2R_add (m1 m2 e : Z) : F2R (m1 + m2) e = F2R m1 e + F2R m2 e.
Proof. unfold F2R. rewrite plus_IZR. ring. Qed.

(** The sum of two finite non-negative numbers, away from overflow, is
    non-negative and approximates the exact sum. *)
Lemma SFadd_error x y :
  valid x = true → valid y = true → SFfinite x → SFfinite y →
  SFsign x = false → SFsign y = false →
  SFabsR x + SFabsR y < bpow (emax - 1) →
  SFfinite (SFadd prec emax x y) ∧
  SFsign (SFadd prec emax x y) = false ∧
  valid (SFadd prec emax x y) = true ∧
  approx prec emax (SFabsR (SFadd prec emax x y)) (SFabsR x + SFabsR y).
Proof.
  intros Hvx Hvy Hfx Hfy Hsx Hsy Hmax.
  assert (∀ m e, 0 <= F2R (Z.pos m) e) as Hpos.
  { intros m e. unfold F2R. apply Rmult_le_pos; [by apply IZR_le|].
    pose proof (bpow_pos e). lra. }
  destruct x as [sx|sx| |sx mx ex], y as [sy|sy| |sy my ey]; try done;
    cbn [SFsign] in Hsx, Hsy; subst;
    cbn [SFadd SFabsR SFsign SFfinite] in *;
    rewrite ?Rplus_0_l, ?Rplus_0_r;
    try (split; [done|split; [done|split; [done|apply approx_refl; auto; lra]]]).
  cbn [cond_Zopp]. set (ez := Z.min ex ey) in *.
  rewrite <- Pos2Z.inj_add. cbn [binary_normalize].
  rewrite <- (shl_align_fst_value mx ex ez), <- (shl_align_fst_value my ey ez)
    in * by lia.
  rewrite <- F2R_add, <- Pos2Z.inj_add in *.
  by apply binary_round_error.
Qed.

(** *** Square root *)
Lemma Zdigits2_mul_pow2 (m s : Z) :
  (0 < m)%Z → (0 ≤ s)%Z → Zdigits2 (m * 2 ^ s) = (Zdigits2 m + s)%Z.
Proof.
  intros Hm Hs. assert (0 < 2 ^ s)%Z by (apply Z.pow_pos_nonneg; lia).
  rewrite !Zdigits2_log2 by lia. rewrite Z.log2_mul_pow2 by lia. lia.
Qed.

Lemma sqrt_bracket (q m : Z) :
  (0 ≤ q)%Z → (q * q ≤ m < (q + 1) * (q + 1))%Z →
  IZR q <= R_sqrt.sqrt (IZR m) < IZR (q + 1).
Proof.
  intros Hq [Hlo Hhi]. apply IZR_le in Hlo. apply IZR_lt in Hhi.
  rewrite mult_IZR in Hlo, Hhi.
  assert (0 <= IZR q) as Hq0 by (by apply IZR_le).
  assert (0 <= IZR (q + 1)) as Hq1 by (apply IZR_le; lia).
  split.
  - rewrite <- (sqrt_square (IZR q)) at 1 by done. apply sqrt_le_1; nra.
  - rewrite <- (sqrt_square (IZR (q + 1))) by done. apply sqrt_lt_1; nra.
Qed.

(** The square root of a positive finite number is positive, finite and
    approximates the exact square root. *)
Lemma SFsqrt_error m e :
  bounded prec emax m e = true →
  R_sqrt.sqrt (F2R (Z.pos m) e) < bpow (emax - 1) →
  SFfinite (SFsqrt prec emax (S754_finite false m e)) ∧
  SFsign (SFsqrt prec emax (S754_finite false m e)) = false ∧
  valid (SFsqrt prec emax (S754_finite false m e)) = true ∧
  approx prec emax (SFabsR (SFsqrt prec emax (S754_finite false m e)))
         (R_sqrt.sqrt (F2R (Z.pos m) e)).
Proof.
  intros Hb Hmax. cbn [SFsqrt]. unfold SFsqrt_core_binary.
  set (d := Zdigits2 (Z.pos m)).
  set (e' := Z.min (fexp' (Z.div2 (d + e + 1))) (Z.div2 e)).
  set (s := (e - 2 * e')%Z).
  assert (0 ≤ s)%Z as Hs by (unfold s, e'; rewrite (Z.div2_div e); pose proof (Z.mul_div_le e 2); lia).
  set (m' := match s with Z.pos _ => Z.shiftl (Z.pos m) s | 0%Z => Z.pos m | Z.neg _ => 0%Z end).
  assert (m' = Z.pos m * 2 ^ s)%Z as Hm'.
  { unfold m'. destruct s as [|p|p] eqn:Hp; [lia| |lia].
    by rewrite Z.shiftl_mul_pow2. }
  assert (0 < m')%Z as Hm'pos
    by (rewrite Hm'; pose proof (Z.pow_pos_nonneg 2 s); nia).
  pose proof (Z.sqrtrem_spec m' ltac:(lia)) as Hspec.
  destruct (Z.sqrtrem m') as [q r]. destruct Hspec as [Heq Hr].
  assert (0 < q)%Z as Hq by nia.
  set (l := if (r =? 0)%Z then loc_Exact else _).
  assert (e' ≤ fexp' (Zdigits2 q + e'))%Z as Hwide.
  { pose proof (Zdigits2_bounds q Hq) as [_ Hqhi].
    assert (Zdigits2 m' = d + s)%Z as Hdm'
      by (rewrite Hm'; by apply Zdigits2_mul_pow2).
    pose proof (Zdigits2_bounds m' Hm'pos) as [Hm'lo _].
    assert (0 < Zdigits2 q)%Z as Hdq
      by (rewrite Zdigits2_log2 by done; pose proof (Z.log2_nonneg q); lia).
    assert (m' < 2 ^ (2 * Zdigits2 q))%Z as Hlt.
    { replace (2 * Zdigits2 q)%Z with (Zdigits2 q + Zdigits2 q)%Z by lia.
      rewrite Z.pow_add_r by lia. nia. }
    assert (Zdigits2 m' - 1 < 2 * Zdigits2 q)%Z as Hdig.
    { apply (Z.pow_lt_mono_r_iff 2); lia. }
    assert (Z.div2 (d + e + 1) ≤ Zdigits2 q + e')%Z as Hhalf.
    { assert (Z.div2 (d + e + 1) < Zdigits2 q + e' + 1)%Z; [|lia].
      rewrite Z.div2_div. apply Z.div_lt_upper_bound; [lia|].
      rewrite Hdm' in Hdig. unfold s in Hdig. lia. }
    pose proof (fexp_mono prec emax _ _ Hhalf). lia. }
  assert (F2R (Z.pos m) e = IZR m' * (bpow e' * bpow e')) as Hval.
  { rewrite <- (F2R_shift (Z.pos m) e s Hs), <- Hm'. unfold F2R.
    rewrite <- bpow_add. do 2 f_equal. lia. }
  assert (R_sqrt.sqrt (F2R (Z.pos m) e) = R_sqrt.sqrt (IZR m') * bpow e') as Hsqrt.
  { rewrite Hval, sqrt_mult, sqrt_square;
      [done|pose proof (bpow_pos e'); lra|apply IZR_le; lia|
       pose proof (bpow_pos e'); nra]. }
  pose proof (sqrt_bracket q m' ltac:(lia) ltac:(nia)) as [Hblo Hbhi].
  destruct (binary_round_aux_relative prec emax Hprec Hemax false q e' l
              (R_sqrt.sqrt (F2R (Z.pos m) e)))
    as (Hfin & Hsign & Herr); [done|done| |done|].
  { rewrite Hsqrt. unfold F2R. pose proof (bpow_pos e'). nra. }
  split; [done|]. split; [done|]. split; [|done].
  apply binary_round_aux_valid; [lia|lia|done].
Qed.

(** *** Division *)
Lemma bpow_lt_inv (a b : Z) : bpow a < bpow b → (a < b)%Z.
Proof.
  intros Hlt. destruct (decide (a < b)%Z) as [|Hge]; [done|].
  pose proof (bpow_le b a ltac:(lia)). lra.
Qed.

Lemma F2R_bounds (m e : Z) :
  (0 < m)%Z →
  bpow (Zdigits2 m - 1 + e) <= F2R m e < bpow (Zdigits2 m + e).
Proof.
  intros Hm. pose proof (Zdigits2_bounds m Hm) as [Hlo Hhi].
  assert (0 <= Zdigits2 m - 1)%Z
    by (rewrite Zdigits2_log2 by done; pose proof (Z.log2_nonneg m); lia).
  apply IZR_le in Hlo. apply IZR_lt in Hhi.
  rewrite <- bpow_IZR in Hlo, Hhi by lia.
  rewrite !bpow_add. unfold F2R. pose proof (bpow_pos e). nra.
Qed.

(** The quotient of two finite numbers, when the exact quotient is away
    from overflow and above the subnormal numbers, approximates it. *)
Lemma SFdiv_error sx mx ex sy my ey :
  bounded prec emax mx ex = true → bounded prec emax my ey = true →
  bpow (emin' + prec + 1) <= F2R (Z.pos mx) ex / F2R (Z.pos my) ey →
  F2R (Z.pos mx) ex / F2R (Z.pos my) ey < bpow (emax - 1) →
  SFfinite (SFdiv prec emax (S754_finite sx mx ex) (S754_finite sy my ey)) ∧
  SFsign (SFdiv prec emax (S754_finite sx mx ex) (S754_finite sy my ey))
    = xorb sx sy ∧
  valid (SFdiv prec emax (S754_finite sx mx ex) (S754_finite sy my ey)) = true ∧
  approx prec emax (SFabsR (SFdiv prec emax (S754_finite sx mx ex) (S754_finite sy my ey)))
         (F2R (Z.pos mx) ex / F2R (Z.pos my) ey).
Proof.
  intros Hbx Hby Hmin Hmax. cbn [SFdiv]. unfold SFdiv_core_binary.
  set (d1 := Zdigits2 (Z.pos mx)). set (d2 := Zdigits2 (Z.pos my)).
  set (D := (d1 + ex - (d2 + ey))%Z).
  set (e' := Z.min (fexp' D) (ex - ey)).
  set (s := (ex - ey - e')%Z).
  assert (0 ≤ s)%Z as Hs by (unfold s, e'; lia).
  set (m' := match s with Z.pos _ => Z.shiftl (Z.pos mx) s | 0%Z => Z.pos mx | Z.neg _ => 0%Z end).
  assert (m' = Z.pos mx * 2 ^ s)%Z as Hm'.
  { unfold m'. destruct s as [|p|p] eqn:Hp; [lia| |lia].
    by rewrite Z.shiftl_mul_pow2. }
  assert (0 < m')%Z as Hm'pos
    by (rewrite Hm'; pose proof (Z.pow_pos_nonneg 2 s); nia).
  pose proof (F2R_bounds (Z.pos mx) ex ltac:(done)) as [Hxlo Hxhi].
  pose proof (F2R_bounds (Z.pos my) ey ltac:(done)) as [Hylo Hyhi].
  fold d1 in Hxlo, Hxhi. fold d2 in Hylo, Hyhi.
  set (X := F2R (Z.pos mx) ex) in *. set (Y := F2R (Z.pos my) ey) in *.
  assert (0 < Y) as HY by (pose proof (bpow_pos (d2 - 1 + ey)); lra).
  assert (0 < X) as HX by (pose proof (bpow_pos (d1 - 1 + ex)); lra).
  (* the quotient lies between [2^(D-1)] and [2^(D+1)] *)
  assert (bpow (D - 1) < X / Y < bpow (D + 1)) as [HDlo HDhi].
  { assert (bpow (D - 1) * bpow (d2 + ey) = bpow (d1 - 1 + ex)) as E1
      by (rewrite <- bpow_add; f_equal; unfold D; lia).
    assert (bpow (D + 1) * bpow (d2 - 1 + ey) = bpow (d1 + ex)) as E2
      by (rewrite <- bpow_add; f_equal; unfold D; lia).
    pose proof (bpow_pos (D - 1)). pose proof (bpow_pos (D + 1)).
    split.
    - apply Rmult_lt_reg_r with Y; [done|].
      unfold Rdiv. rewrite Rmult_assoc, Rinv_l, Rmult_1_r by lra. nra.
    - apply Rmult_lt_reg_r with Y; [done|].
      unfold Rdiv. rewrite Rmult_assoc, Rinv_l, Rmult_1_r by lra. nra. }
  assert (emin' + prec < D)%Z as HDmin
    by (assert (emin' + prec + 1 < D + 1)%Z; [apply bpow_lt_inv; lra|lia]).
  assert (e' ≤ D - 1)%Z as He'D
    by (unfold e', SpecFloat.fexp; lia).
  pose proof (Z_div_mod m' (Z.pos my) ltac:(done)) as Hdiv.
  destruct (Z.div_eucl m' (Z.pos my)) as [q r]. destruct Hdiv as [Heq Hr].
  (* the real quotient in terms of the integer one *)
  assert (X / Y = IZR m' / IZR (Z.pos my) * bpow e') as Hquot.
  { unfold X, Y. rewrite <- (F2R_shift (Z.pos mx) ex s Hs), <- Hm'.
    unfold F2R. replace (ex - s)%Z with (e' + ey)%Z by (unfold s; lia).
    rewrite bpow_add. pose proof (bpow_pos ey).
    assert (IZR (Z.pos my) ≠ 0) by (apply not_0_IZR; lia).
    field. split; first [done|lra]. }
  assert (IZR q <= IZR m' / IZR (Z.pos my) < IZR (q + 1)) as [Hqlo Hqhi].
  { assert (0 < IZR (Z.pos my)) as Hmy by (by apply IZR_lt).
    assert (IZR m' = IZR (Z.pos my) * IZR q + IZR r) as Hm'R
      by (rewrite Heq, plus_IZR, mult_IZR; ring).
    destruct Hr as [Hr0 Hr1]. apply IZR_le in Hr0. apply IZR_lt in Hr1.
    rewrite plus_IZR. split.
    - apply Rmult_le_reg_r with (IZR (Z.pos my)); [done|].
      unfold Rdiv. rewrite Rmult_assoc, Rinv_l, Rmult_1_r by lra. nra.
    - apply Rmult_lt_reg_r with (IZR (Z.pos my)); [done|].
      unfold Rdiv. rewrite Rmult_assoc, Rinv_l, Rmult_1_r by lra. nra. }
  assert (0 < q)%Z as Hq.
  { assert (0 < q + 1 - 1)%Z; [|lia]. apply lt_IZR. rewrite minus_IZR.
    pose proof (bpow_le e' (D - 1) He'D). pose proof (bpow_pos e').
    assert (bpow e' < IZR m' / IZR (Z.pos my) * bpow e') by lra.
    nra. }
  assert (e' ≤ fexp' (Zdigits2 q + e'))%Z as Hwide.
  { assert (D ≤ Zdigits2 q + e')%Z as HD.
    { assert (D - e' - 1 < Zdigits2 q)%Z; [|lia].
      pose proof (Zdigits2_bounds q Hq) as [_ Hqdig].
      assert (0 < Zdigits2 q)%Z
        by (rewrite Zdigits2_log2 by done; pose proof (Z.log2_nonneg q); lia).
      destruct (decide (0 ≤ D - e' - 1)%Z) as [Hk|]; [|lia].
      apply (Z.pow_lt_mono_r_iff 2); [lia|lia|].
      eapply Z.le_lt_trans; [|exact Hqdig].
      apply le_IZR. rewrite <- bpow_IZR by done.
      (* 2^(D - e' - 1) * 2^e' = 2^(D-1) < X/Y < (q+1) 2^e' *)
      assert (bpow (D - e' - 1) * bpow e' = bpow (D - 1)) as E
        by (rewrite <- bpow_add; f_equal; lia).
      pose proof (bpow_pos e').
      assert (bpow (D - e' - 1) < IZR (q + 1)) as Hlt by nra.
      rewrite bpow_IZR in Hlt by done. apply lt_IZR in Hlt.
      rewrite bpow_IZR by done. apply IZR_le. lia. }
    pose proof (fexp_mono prec emax _ _ HD).
    assert (e' ≤ fexp' D)%Z by (unfold e'; lia). lia. }
  destruct (binary_round_aux_relative prec emax Hprec Hemax (xorb sx sy) q e'
              (new_location (Z.pos my) r) (X / Y))
    as (Hfin & Hsign & Herr); [done|done| |done|].
  { rewrite Hquot. unfold F2R. pose proof (bpow_pos e'). nra. }
  split; [done|]. split; [done|]. split; [|done].
  apply binary_round_aux_valid; [lia|lia|done].
Qed.

End Operations.

Section Propagation.
Variable eta : R.
Hypothesis Heta : 0 < eta.

(** Sum of three rounded squares, rounded twice. *)
Lemma sum_squares_bound (P Q T ax ay az b s : R) :
  0 <= P → 0 <= Q → 0 <= T →
  apx eta ax P → apx eta ay Q → apx eta az T →
  apx eta b (ax + ay) → apx eta s (b + az) →
  (1 - 4 * eps32) * (P + Q + T) - 6 * eta <= s
    <= (1 + 4 * eps32) * (P + Q + T) + 6 * eta.
Proof.
  unfold apx. intros HP HQ HT Hax Hay Haz Hb Hs.
  assert ((1 - 3 * eps32) * (P + Q) - 4 * eta <= b
          <= (1 + 3 * eps32) * (P + Q) + 4 * eta) as Hb' by (split; lra).
  assert ((1 - 3 * eps32) * (P + Q + T) - 5 * eta <= b + az
          <= (1 + 3 * eps32) * (P + Q + T) + 5 * eta) as Hbz by (split; lra).
  split; lra.
Qed.

(** The sums that are rounded stay below a bound of the exact ones. *)
Lemma sum_squares_partial (P Q T ax ay az b : R) :
  0 <= P → 0 <= Q → 0 <= T →
  apx eta ax P → apx eta ay Q → apx eta az T → apx eta b (ax + ay) →
  ax + ay <= 2 * (P + Q) + 2 * eta ∧
  b + az <= 3 * (P + Q + T) + 5 * eta.
Proof. unfold apx. intros. split; lra. Qed.

(** Square roots keep relative bounds. *)
Lemma sqrt_rel (c1 c2 R s : R) :
  0 <= c1 <= 1 → 1 <= c2 → 0 <= R →
  c1 * (R * R) <= s <= c2 * (R * R) →
  c1 * R <= R_sqrt.sqrt s <= c2 * R.
Proof.
  intros Hc1 Hc2 HR [Hlo Hhi].
  assert (0 <= R * R) as HRR by nra.
  assert (0 <= s) as Hs by nra.
  split.
  - rewrite <- (sqrt_square (c1 * R)) by nra.
    apply sqrt_le_1; [nra|done|]. 
    replace (c1 * R * (c1 * R)) with (c1 * (c1 * (R * R))) by ring.
    assert (c1 * (R * R) <= R * R) by nra. nra.
  - rewrite <- (sqrt_square (c2 * R)) by nra.
    apply sqrt_le_1; [done|nra|].
    replace (c2 * R * (c2 * R)) with (c2 * (c2 * (R * R))) by ring.
    assert (R * R <= c2 * (R * R)) by nra. nra.
Qed.

(** Reciprocals keep relative bounds. *)
Lemma inv_rel (c1 c2 d1 d2 R len : R) :
  0 < c1 → c1 <= c2 → 0 < R →
  c1 * R <= len <= c2 * R →
  d1 * c2 <= 1 → 1 <= d2 * c1 → 0 <= d1 →
  d1 * / R <= / len <= d2 * / R.
Proof.
  intros Hc1 Hc12 HR [Hlo Hhi] Hd1 Hd2 Hd1pos.
  assert (0 < len) as Hlen by nra.
  assert (0 < / R) as HW by (by apply Rinv_0_lt_compat).
  assert (0 < / len) as HV by (by apply Rinv_0_lt_compat).
  assert (/ R * R = 1) as HWR by (apply Rinv_l; lra).
  assert (/ len * len = 1) as HVL by (apply Rinv_l; lra).
  set (W := / R) in *. set (V := / len) in *.
  (* W <= c2 V and c1 V <= W *)
  assert (W <= c2 * V) as H1.
  { assert (W * (V * len) <= W * (V * (c2 * R))) by
      (apply Rmult_le_compat_l; [lra|apply Rmult_le_compat_l; lra]).
    nra. }
  assert (c1 * V <= W) as H2.
  { assert (W * (V * (c1 * R)) <= W * (V * len)) by
      (apply Rmult_le_compat_l; [lra|apply Rmult_le_compat_l; lra]).
    nra. }
  split.
  - assert (d1 * W <= d1 * (c2 * V)) by (apply Rmult_le_compat_l; lra). nra.
  - assert (d2 * (c1 * V) <= d2 * W) by (apply Rmult_le_compat_l; nra). nra.
Qed.

(** The square of an approximation of [t] in [[0, 1]]. *)
Lemma square_bound (c1 c2 t x : R) :
  0 <= t <= 1 → 0 <= x → eta <= / 2 →
  0 <= c1 <= 1 → 1 <= c2 <= 2 →
  c1 * t - eta <= x <= c2 * t + eta →
  c1 * c1 * (t * t) - 2 * eta <= x * x <= c2 * c2 * (t * t) + 5 * eta.
Proof.
  intros Ht Hx Hsmall Hc1 Hc2 [Hlo Hhi].
  assert (0 <= c1 * t <= 1) as [Hu0 Hu1] by (split; nra).
  assert (0 <= c2 * t <= 2) as [Hv0 Hv1] by (split; nra).
  set (u := c1 * t) in *. set (v := c2 * t) in *.
  replace (c1 * c1 * (t * t)) with (u * u) by (unfold u; ring).
  replace (c2 * c2 * (t * t)) with (v * v) by (unfold v; ring).
  assert (eta * eta <= eta) as Hee by nra.
  split.
  - destruct (Rle_or_lt 0 (u - eta)) as [Hpos|Hneg].
    + assert ((u - eta) * (u - eta) <= x * x) by
        (apply Rmult_le_compat; lra).
      assert (u * eta <= eta) by nra. nra.
    + assert (u * u <= eta * eta) by (apply Rmult_le_compat; lra).
      nra.
  - assert (x * x <= (v + eta) * (v + eta)) by
      (apply Rmult_le_compat; lra).
    assert (v * eta <= 2 * eta) by nra. nra.
Qed.

End Propagation.

Lemma bpow_m23 : bpow (-23) = eps32.
Proof.
  change (-23)%Z with (- (23))%Z. rewrite bpow_opp, bpow_IZR by lia.
  f_equal.
Qed.

Lemma SFabsR_nonneg f : 0 <= SFabsR f.
Proof.
  destruct f as [| | |s m e]; cbn [SFabsR]; try lra.
  unfold F2R. apply Rmult_le_pos; [by apply IZR_le|].
  pose proof (bpow_pos e). lra.
Qed.

Lemma SFfinite_positive f :
  SFfinite f → SFsign f = false → 0 < SFabsR f →
  ∃ m e, f = S754_finite false m e.
Proof.
  destruct f as [| | |s m e]; cbn [SFabsR SFsign SFfinite]; try lra; try done.
  intros _ -> _. eauto.
Qed.

Section Magnitude.
Variables prec emax : Z.
Hypothesis Hprec : (24 ≤ prec)%Z.
Hypothesis Hemax : (prec < emax)%Z.

Local Abbreviation emin' := (SpecFloat.emin prec emax).
Local Abbreviation valid := (SpecFloat.valid_binary prec emax).
Local Abbreviation eta := (bpow emin').
Local Abbreviation Omega := (bpow (emax - 1)).

Lemma prec_ge_2 : (2 ≤ prec)%Z.
Proof. lia. Qed.

(** One rounding at a precision of at least 24 bits is within [eps32]. *)
Lemma approx_apx a r :
  0 <= r → approx prec emax a r → apx eta a r.
Proof.
  unfold approx, apx. intros Hr [Hlo Hhi].
  pose proof (bpow_le (1 - prec) (-23) ltac:(lia)) as Heps.
  rewrite bpow_m23 in Heps. pose proof (bpow_pos (1 - prec)).
  split; nra.
Qed.

(** The sum of squares of a vector, away from overflow, is the exact one
    up to a relative error of [4 * eps32] and an absolute error of
    [6 * eta]. *)
Lemma sf_sqr_sum_error x y z M :
  valid x = true → valid y = true → valid z = true →
  SFfinite x → SFfinite y → SFfinite z →
  SFabsR x * SFabsR x + SFabsR y * SFabsR y + SFabsR z * SFabsR z <= M →
  3 * M + 6 < Omega → eta <= 1 →
  SFfinite (sf_sqr_sum prec emax x y z) ∧
  SFsign (sf_sqr_sum prec emax x y z) = false ∧
  valid (sf_sqr_sum prec emax x y z) = true ∧
  (1 - 4 * eps32) * (SFabsR x * SFabsR x + SFabsR y * SFabsR y + SFabsR z * SFabsR z)
    - 6 * eta
  <= SFabsR (sf_sqr_sum prec emax x y z)
  <= (1 + 4 * eps32) * (SFabsR x * SFabsR x + SFabsR y * SFabsR y + SFabsR z * SFabsR z)
    + 6 * eta.
Proof.
  intros Hvx Hvy Hvz Hfx Hfy Hfz HM HOmega Heta1.
  pose proof (SFabsR_nonneg x) as HX. pose proof (SFabsR_nonneg y) as HY.
  pose proof (SFabsR_nonneg z) as HZ.
  set (X := SFabsR x) in *. set (Y := SFabsR y) in *. set (Z := SFabsR z) in *.
  assert (0 <= X * X) as HP by nra. assert (0 <= Y * Y) as HQ by nra.
  assert (0 <= Z * Z) as HT by nra.
  pose proof (bpow_pos emin') as Heta0.
  destruct (SFmul_error prec emax prec_ge_2 Hemax x x Hvx Hvx Hfx Hfx)
    as (Hfa & Hsa & Hva & Haa); [fold X; lra|].
  destruct (SFmul_error prec emax prec_ge_2 Hemax y y Hvy Hvy Hfy Hfy)
    as (Hfb & Hsb & Hvb & Hab); [fold Y; lra|].
  destruct (SFmul_error prec emax prec_ge_2 Hemax z z Hvz Hvz Hfz Hfz)
    as (Hfc & Hsc & Hvc & Hac); [fold Z; lra|].
  rewrite xorb_nilpotent in Hsa, Hsb, Hsc.
  fold X in Haa. fold Y in Hab. fold Z in Hac.
  apply approx_apx in Haa, Hab, Hac; [|done..].
  set (ax := SFmul prec emax x x) in *. set (ay := SFmul prec emax y y) in *.
  set (az := SFmul prec emax z z) in *.
  pose proof (SFabsR_nonneg ax). pose proof (SFabsR_nonneg ay).
  pose proof (SFabsR_nonneg az).
  assert (SFabsR ax + SFabsR ay <= 2 * (X * X + Y * Y) + 2 * eta) as Hsum1
    by (unfold apx in *; lra).
  destruct (SFadd_error prec emax prec_ge_2 Hemax ax ay Hva Hvb Hfa Hfb Hsa Hsb)
    as (Hfd & Hsd & Hvd & Had); [lra|].
  apply approx_apx in Had; [|lra].
  set (b := SFadd prec emax ax ay) in *.
  pose proof (sum_squares_partial eta Heta0 _ _ _ _ _ _ _ HP HQ HT Haa Hab Hac Had)
    as [_ Hsum2].
  destruct (SFadd_error prec emax prec_ge_2 Hemax b az Hvd Hvc Hfd Hfc Hsd Hsc)
    as (Hfe & Hse & Hve & Hae); [lra|].
  pose proof (SFabsR_nonneg b).
  apply approx_apx in Hae; [|lra].
  split; [done|]. split; [done|]. split; [done|].
  exact (sum_squares_bound eta Heta0 _ _ _ _ _ _ _ _ HP HQ HT Haa Hab Hac Had Hae).
Qed.

Lemma eta_le_1 : eta <= 1.
Proof.
  rewrite <- bpow_0. apply bpow_le. unfold SpecFloat.emin. lia.
Qed.

(** The magnitude of a vector whose sum of squares is [R * R], up to a
    relative error of [c * eps32], is [R] up to a relative error of
    [(c + 7) * eps32], when no overflow occurs and [R] is far above the
    subnormal range. *)
Lemma sf_magnitude_error x y z M R c :
  valid x = true → valid y = true → valid z = true →
  SFfinite x → SFfinite y → SFfinite z →
  SFabsR x * SFabsR x + SFabsR y * SFabsR y + SFabsR z * SFabsR z <= M →
  3 * M + 6 < Omega →
  0 < R → R <= M →
  0 <= c <= 100 →
  (1 - c * eps32) * (R * R)
    <= SFabsR x * SFabsR x + SFabsR y * SFabsR y + SFabsR z * SFabsR z
    <= (1 + c * eps32) * (R * R) →
  128 * eta <= eps32 * (R * R) → 128 * eta <= eps32 * R →
  (∃ m e, sf_magnitude prec emax x y z = S754_finite false m e) ∧
  valid (sf_magnitude prec emax x y z) = true ∧
  (1 - (c + 7) * eps32) * R <= SFabsR (sf_magnitude prec emax x y z)
     <= (1 + (c + 7) * eps32) * R.
Proof.
  intros Hvx Hvy Hvz Hfx Hfy Hfz HM HOmega HR HRM Hc HS Heta2 Heta1.
  pose proof (bpow_pos emin') as Heta0.
  assert (0 < R * R) as HRR by nra.
  destruct (sf_sqr_sum_error x y z M Hvx Hvy Hvz Hfx Hfy Hfz HM HOmega eta_le_1)
    as (Hfs & Hss & Hvs & Hs).
  set (S := SFabsR x * SFabsR x + SFabsR y * SFabsR y + SFabsR z * SFabsR z) in *.
  set (s := sf_sqr_sum prec emax x y z) in *.
  assert ((1 - (c + 5) * eps32) * (R * R) <= SFabsR s
          <= (1 + (c + 5) * eps32) * (R * R)) as Hs'.
  { set (RR := R * R) in *.
    assert (0 <= c * RR <= 100 * RR) as [? ?] by (split; nra).
    split; nra. }
  assert (0 < SFabsR s) as Hspos by nra.
  destruct (SFfinite_positive s Hfs Hss Hspos) as (ms & es & Hseq).
  unfold sf_magnitude. fold s. rewrite Hseq in *.
  cbn [SFabsR SpecFloat.valid_binary] in Hs', Hvs.
  pose proof (sqrt_rel (1 - (c + 5) * eps32) (1 + (c + 5) * eps32) R _
                ltac:(split; lra) ltac:(lra) ltac:(lra) Hs') as Hsq.
  assert (0 <= c * R <= 100 * R) as [? ?] by (split; nra).
  destruct (SFsqrt_error prec emax prec_ge_2 Hemax ms es Hvs)
    as (Hfl & Hsl & Hvl & Hl); [nra|].
  apply approx_apx in Hl; [|apply sqrt_pos].
  set (len := SFsqrt prec emax (S754_finite false ms es)) in *.
  assert ((1 - (c + 7) * eps32) * R <= SFabsR len <= (1 + (c + 7) * eps32) * R)
    as Hlen.
  { unfold apx in Hl. set (q := R_sqrt.sqrt (F2R (Z.pos ms) es)) in *.
    split; nra. }
  assert (0 < SFabsR len) as Hlpos by nra.
  destruct (SFfinite_positive len Hfl Hsl Hlpos) as (ml & el & Hleq).
  split; [eauto|]. split; [done|]. done.
Qed.

(** One component of the vector multiplied by the reciprocal of the
    length. *)
Lemma sf_scale_error c inv W t :
  valid c = true → valid inv = true → SFfinite c → SFfinite inv →
  0 <= W → SFabsR c * W = t → 0 <= t <= 1 → 2 < Omega →
  (1 - 10 * eps32) * W <= SFabsR inv <= (1 + 10 * eps32) * W →
  SFfinite (SFmul prec emax c inv) ∧ valid (SFmul prec emax c inv) = true ∧
  (1 - 12 * eps32) * t - eta <= SFabsR (SFmul prec emax c inv)
     <= (1 + 12 * eps32) * t + eta.
Proof.
  intros Hvc Hvi Hfc Hfi HW Ht Ht01 HOmega Hinv.
  pose proof (SFabsR_nonneg c) as HC. pose proof (bpow_pos emin') as Heta0.
  set (C := SFabsR c) in *. set (I := SFabsR inv) in *.
  assert ((1 - 10 * eps32) * t <= C * I <= (1 + 10 * eps32) * t) as [Hlo Hhi]
    by (split; nra).
  destruct (SFmul_error prec emax prec_ge_2 Hemax c inv Hvc Hvi Hfc Hfi)
    as (Hf & _ & Hv & Ha); [fold C I; lra|].
  fold C I in Ha. apply approx_apx in Ha; [|lra].
  unfold apx in Ha. set (r := C * I) in *.
  split; [done|]. split; [done|]. split; lra.
Qed.

(** Squares of non-negative numbers are ordered as the numbers. *)
Lemma sq_le (a b : R) : 0 <= a → 0 <= b → a * a <= b * b → a <= b.
Proof. intros. nra. Qed.

Section Normalize.

(** Components between [2^-B] and [2^B] keep every intermediate result
    away from overflow and from the subnormal numbers. *)
Variable B : Z.
Hypothesis HB0 : (0 ≤ B)%Z.
Hypothesis HBmax : (2 * B + 6 ≤ emax)%Z.
Hypothesis HBmin : (emin' + 2 * B + 30 ≤ 0)%Z.
Hypothesis HBdiv : (emin' + prec + B + 3 ≤ 0)%Z.

(** The constant 1 of the format. *)
Variable m1 : positive.
Variable e1 : Z.
Hypothesis Hone_bounded : bounded prec emax m1 e1 = true.
Hypothesis Hone_value : F2R (Z.pos m1) e1 = 1.

Local Abbreviation one := (S754_finite false m1 e1).

(** The analysis of [normalize].  With [S] the exact sum of squares of the
    components, [R] its square root and [W = 1 / R]: the computed magnitude
    is [R] up to [7 * eps32] (relative), its reciprocal is [W] up to
    [10 * eps32], each scaled component is the exact one up to
    [12 * eps32], the sum of their squares is [1] up to [25 * eps32], and
    the magnitude computed from them is [1] up to [32 * eps32]. *)
Lemma sf_normalize_unit x y z :
  valid x = true → valid y = true → valid z = true →
  SFfinite x → SFfinite y → SFfinite z →
  SFabsR x <= bpow B → SFabsR y <= bpow B → SFabsR z <= bpow B →
  bpow (- B) <= SFabsR x ∨ bpow (- B) <= SFabsR y ∨ bpow (- B) <= SFabsR z →
  ∃ ml el,
    sf_magnitude prec emax x y z = S754_finite false ml el ∧
    let inv := SFdiv prec emax one (sf_magnitude prec emax x y z) in
    let m' := sf_magnitude prec emax (SFmul prec emax x inv) (SFmul prec emax y inv)
                           (SFmul prec emax z inv) in
    (∃ m e, m' = S754_finite false m e) ∧
    1 - 32 * eps32 <= SFabsR m' <= 1 + 32 * eps32.
Proof.
  intros Hvx Hvy Hvz Hfx Hfy Hfz HxU HyU HzU Hu.
  pose proof (SFabsR_nonneg x) as HX. pose proof (SFabsR_nonneg y) as HY.
  pose proof (SFabsR_nonneg z) as HZ. pose proof (bpow_pos emin') as Heta0.
  set (X := SFabsR x) in *. set (Y := SFabsR y) in *. set (Z := SFabsR z) in *.
  (* the constants *)
  assert (bpow (- B) * bpow B = 1) as HuU
    by (rewrite <- bpow_add, <- bpow_0; f_equal; lia).
  pose proof (bpow_pos (- B)) as Hu0. pose proof (bpow_ge_1 B HB0) as HU1.
  assert (128 * eta <= eps32 * (bpow (- B) * bpow (- B))) as Heta.
  { rewrite <- bpow_m23, <- !bpow_add.
    replace 128 with (bpow 7) by (rewrite bpow_IZR by lia; done).
    rewrite <- bpow_add. apply bpow_le. lia. }
  assert (16 * (bpow B * bpow B) <= Omega) as HOmega.
  { replace 16 with (bpow 4) by (rewrite bpow_IZR by lia; done).
    rewrite <- !bpow_add. apply bpow_le. lia. }
  assert (4 * bpow (emin' + prec + 1) <= bpow (- B)) as Homega.
  { replace 4 with (bpow 2) by (rewrite bpow_IZR by lia; done).
    rewrite <- bpow_add. apply bpow_le. lia. }
  set (u := bpow (- B)) in *. set (U := bpow B) in *.
  set (omega := bpow (emin' + prec + 1)) in *.
  assert (u <= 1) as Hu1 by (clear - HuU HU1 Hu0; nra).
  assert (u * u <= u) as Huu by (clear - Hu1 Hu0; nra).
  assert (128 * eta <= eps32) as Heta' by (clear - Heta Huu Hu1 Hu0; nra).
  assert (1 <= U * U) as HUU by (clear - HU1; nra).
  assert (U <= U * U) as HUUU by (clear - HU1; nra).
  assert (u = / U) as HuInv
    by (apply Rmult_eq_reg_l with U; [rewrite Rinv_r; lra|lra]).
  assert (U = / u) as HUInv
    by (apply Rmult_eq_reg_l with u; [rewrite Rinv_r; lra|lra]).
  (* the exact length and its reciprocal *)
  set (S := X * X + Y * Y + Z * Z).
  assert (u * u <= S) as HSlo
    by (unfold S; clear - Hu HX HY HZ Hu0; destruct Hu as [?|[?|?]]; nra).
  assert (S <= 3 * (U * U)) as HShi
    by (unfold S; clear - HxU HyU HzU HX HY HZ; nra).
  set (R := R_sqrt.sqrt S).
  assert (R * R = S) as HRR by (apply sqrt_sqrt; lra).
  assert (0 <= R) as HR0 by apply sqrt_pos.
  assert (u <= R) as HRlo by (apply sq_le; lra).
  assert (R <= 2 * U) as HRhi
    by (apply sq_le; [lra|lra|]; clear - HRR HShi HUU; nra).
  assert (0 < R) as HRpos by lra.
  set (W := / R).
  assert (W * R = 1) as HWR by (unfold W; field; lra).
  assert (0 < W) as HW0 by (apply Rinv_0_lt_compat; lra).
  assert (W <= U) as HWhi
    by (rewrite HUInv; apply Rinv_le_contravar; lra).
  assert (u <= 2 * W) as HWlo.
  { assert (/ (2 * U) <= W) as HW2 by (apply Rinv_le_contravar; lra).
    rewrite Rinv_mult, <- HuInv in HW2. lra. }
  (* the computed length *)
  destruct (sf_magnitude_error x y z (3 * (U * U)) R 0
              Hvx Hvy Hvz Hfx Hfy Hfz) as ((ml & el & Hlen) & Hvl & Hl).
  { fold X Y Z S. lra. }
  { lra. }
  { lra. }
  { lra. }
  { lra. }
  { fold X Y Z S. rewrite HRR. lra. }
  { rewrite HRR. lra. }
  { lra. }
  exists ml, el. split; [done|]. rewrite Hlen in Hl, Hvl |- *.
  cbn [SFabsR SpecFloat.valid_binary] in Hl, Hvl.
  set (L := F2R (Z.pos ml) el) in *.
  (* the reciprocal *)
  pose proof (inv_rel (1 - 7 * eps32) (1 + 7 * eps32) (1 - 8 * eps32) (1 + 8 * eps32) R L
                ltac:(lra) ltac:(lra) HRpos ltac:(lra)
                ltac:(lra) ltac:(lra) ltac:(lra)) as HinvL.
  fold W in HinvL.
  destruct (SFdiv_error prec emax prec_ge_2 Hemax false m1 e1 false ml el
              Hone_bounded Hvl) as (Hfi & _ & Hvi & Hi).
  { rewrite Hone_value. fold L omega. unfold Rdiv. lra. }
  { rewrite Hone_value. fold L. unfold Rdiv. lra. }
  rewrite Hone_value in Hi. fold L in Hi. unfold Rdiv in Hi.
  rewrite Rmult_1_l in Hi.
  apply approx_apx in Hi; [|lra]. unfold apx in Hi.
  cbv zeta.
  set (inv := SFdiv prec emax one (S754_finite false ml el)) in *.
  assert ((1 - 10 * eps32) * W <= SFabsR inv <= (1 + 10 * eps32) * W) as Hinv.
  { set (q := / L) in *. split; lra. }
  (* the scaled components *)
  assert (2 < Omega) as HOmega2 by lra.
  assert (X * W <= 1 ∧ Y * W <= 1 ∧ Z * W <= 1) as (HtX & HtY & HtZ).
  { assert (X <= R ∧ Y <= R ∧ Z <= R) as (? & ? & ?)
      by (repeat split; (apply sq_le; [lra|lra|]); rewrite HRR; unfold S;
          clear - HX HY HZ; nra).
    clear - H H0 H1 HW0 HWR. repeat split; nra. }
  assert (0 <= X * W ∧ 0 <= Y * W ∧ 0 <= Z * W) as (HtX0 & HtY0 & HtZ0)
    by (clear - HX HY HZ HW0; repeat split; nra).
  destruct (sf_scale_error x inv W (X * W) Hvx Hvi Hfx Hfi
              ltac:(lra) eq_refl ltac:(split; lra) HOmega2 Hinv)
    as (Hfx' & Hvx' & Hx').
  destruct (sf_scale_error y inv W (Y * W) Hvy Hvi Hfy Hfi
              ltac:(lra) eq_refl ltac:(split; lra) HOmega2 Hinv)
    as (Hfy' & Hvy' & Hy').
  destruct (sf_scale_error z inv W (Z * W) Hvz Hvi Hfz Hfi
              ltac:(lra) eq_refl ltac:(split; lra) HOmega2 Hinv)
    as (Hfz' & Hvz' & Hz').
  set (x' := SFmul prec emax x inv) in *.
  set (y' := SFmul prec emax y inv) in *.
  set (z' := SFmul prec emax z inv) in *.
  assert (eta <= / 2) as Hsmall by lra.
  pose proof (square_bound eta Heta0 (1 - 12 * eps32) (1 + 12 * eps32) (X * W)
                (SFabsR x') ltac:(split; lra) (SFabsR_nonneg x') Hsmall
                ltac:(split; lra) ltac:(split; lra) Hx') as Hxx.
  pose proof (square_bound eta Heta0 (1 - 12 * eps32) (1 + 12 * eps32) (Y * W)
                (SFabsR y') ltac:(split; lra) (SFabsR_nonneg y') Hsmall
                ltac:(split; lra) ltac:(split; lra) Hy') as Hyy.
  pose proof (square_bound eta Heta0 (1 - 12 * eps32) (1 + 12 * eps32) (Z * W)
                (SFabsR z') ltac:(split; lra) (SFabsR_nonneg z') Hsmall
                ltac:(split; lra) ltac:(split; lra) Hz') as Hzz.
  assert (X * W * (X * W) + Y * W * (Y * W) + Z * W * (Z * W) = 1) as Hunit.
  { transitivity (S * (W * W)); [unfold S; ring|].
    rewrite <- HRR. transitivity (W * R * (W * R)); [ring|].
    rewrite HWR. ring. }
  set (tx := X * W * (X * W)) in *. set (ty := Y * W * (Y * W)) in *.
  set (tz := Z * W * (Z * W)) in *.
  set (S' := SFabsR x' * SFabsR x' + SFabsR y' * SFabsR y'
             + SFabsR z' * SFabsR z').
  assert (1 - 25 * eps32 <= S' <= 1 + 25 * eps32) as HS'.
  { unfold S'. set (ax := SFabsR x' * SFabsR x') in *.
    set (ay := SFabsR y' * SFabsR y') in *.
    set (az := SFabsR z' * SFabsR z') in *.
    split; lra. }
  destruct (sf_magnitude_error x' y' z' 2 1 25
              Hvx' Hvy' Hvz' Hfx' Hfy' Hfz') as (Hm & _ & Hm').
  { fold S'. lra. }
  { lra. }
  { lra. }
  { lra. }
  { lra. }
  { fold S'. lra. }
  { lra. }
  { lra. }
  split; [done|]. lra.
Qed.

End Normalize.

End Magnitude.

(** [32 * eps32 = 2^-18] is below [1e-5]. *)
Lemma near_one_intro m e :
  1 - 32 * eps32 <= F2R (Z.pos m) e <= 1 + 32 * eps32 →
  near_one (S754_finite false m e).
Proof. unfold near_one. cbn [SF2R]. lra. Qed.

Lemma F2R_one_binary32 : F2R (Z.pos 8388608) (-23) = 1.
Proof. unfold F2R. rewrite bpow_m23. lra. Qed.

Lemma F2R_one_binary64 : F2R (Z.pos 4503599627370496) (-52) = 1.
Proof.
  unfold F2R. change (-52)%Z with (- (52))%Z.
  rewrite bpow_opp, bpow_IZR by lia.
  change (2 ^ 52)%Z with 4503599627370496%Z. field.
Qed.

(** [normalize] on [float]s in the safe range. *)
Lemma run_normalize_float (σ : store (Vec3 c_float)) l v :
  σ !! l = Some v → float_safe v →
  ∃ σ' m, Vec3_normalize l σ = Ok l σ' ∧ normalize l σ = Ok tt σ' ∧
          Vec3_magnitude l σ' = Ok m σ' ∧ near_one m.
Proof.
  intros Hl ((Hvx & Hvy & Hvz) & (Hfx & Hfy & Hfz) & (Hx & Hy & Hz) & Hlow).
  destruct (sf_normalize_unit 24 128 ltac:(lia) ltac:(lia) 59
              ltac:(lia) ltac:(lia) ltac:(vm_compute; discriminate)
              ltac:(vm_compute; discriminate)
              8388608 (-23) eq_refl F2R_one_binary32
              (x v) (y v) (z v) Hvx Hvy Hvz Hfx Hfy Hfz Hx Hy Hz Hlow)
    as (ml & el & Hlen & Hunit).
  cbv zeta in Hunit. destruct Hunit as ((m & e & Hm) & Hbound).
  set (inv := SFdiv 24 128 (S754_finite false 8388608 (-23))
                (sf_magnitude 24 128 (x v) (y v) (z v))) in *.
  destruct (run_normalize_positive σ l v inv Hl) as [Hmethod Hfunction].
  { change (SFltb (S754_zero false) (sf_magnitude 24 128 (x v) (y v) (z v))
            = true).
    by rewrite Hlen. }
  { reflexivity. }
  eexists _, _. split; [exact Hmethod|]. split; [exact Hfunction|].
  split; [apply run_Vec3_magnitude, lookup_insert_eq|].
  cbn [x y z].
  change (near_one (sf_magnitude 24 128 (SFmul 24 128 (x v) inv)
                      (SFmul 24 128 (y v) inv) (SFmul 24 128 (z v) inv))).
  rewrite Hm in Hbound |- *. by apply near_one_intro.
Qed.

(** The magnitude on [double]s is the one of the specification of
    binary64. *)
Lemma Prim2SF_magnitude (a b c : float) :
  Prim2SF (PrimFloat.sqrt (a * a + b * b + c * c)%float) =
  sf_magnitude 53 1024 (Prim2SF a) (Prim2SF b) (Prim2SF c).
Proof. by rewrite sqrt_spec, !add_spec, !mul_spec. Qed.

(** [normalize] on [double]s in the safe range. *)
Lemma run_normalize_double (σ : store (Vec3 c_double)) l v :
  σ !! l = Some v → double_safe v →
  ∃ σ' m, Vec3_normalize l σ = Ok l σ' ∧ normalize l σ = Ok tt σ' ∧
          Vec3_magnitude l σ' = Ok m σ' ∧ near_one (Prim2SF m).
Proof.
  intros Hl ((Hfx & Hfy & Hfz) & (Hx & Hy & Hz) & Hlow).
  destruct (sf_normalize_unit 53 1024 ltac:(lia) ltac:(lia) 509
              ltac:(lia) ltac:(lia) ltac:(vm_compute; discriminate)
              ltac:(vm_compute; discriminate)
              4503599627370496 (-52) eq_refl F2R_one_binary64
              (Prim2SF (x v)) (Prim2SF (y v)) (Prim2SF (z v))
              (Prim2SF_valid _) (Prim2SF_valid _) (Prim2SF_valid _)
              Hfx Hfy Hfz Hx Hy Hz Hlow)
    as (ml & el & Hlen & Hunit).
  cbv zeta in Hunit. destruct Hunit as ((m & e & Hm) & Hbound).
  set (len := PrimFloat.sqrt (x v * x v + y v * y v + z v * z v)%float).
  set (inv := (1 / len)%float).
  assert (Prim2SF len = S754_finite false ml el) as Hlen'
    by (unfold len; by rewrite Prim2SF_magnitude).
  assert (Prim2SF inv =
          SFdiv 53 1024 (S754_finite false 4503599627370496 (-52))
            (sf_magnitude 53 1024 (Prim2SF (x v)) (Prim2SF (y v))
               (Prim2SF (z v)))) as Hinv
    by (unfold inv, len; by rewrite div_spec, Prim2SF_magnitude).
  destruct (run_normalize_positive σ l v inv Hl) as [Hmethod Hfunction].
  { change (PrimFloat.ltb 0 len = true). by rewrite ltb_spec, Hlen'. }
  { reflexivity. }
  eexists _, _. split; [exact Hmethod|]. split; [exact Hfunction|].
  split; [apply run_Vec3_magnitude, lookup_insert_eq|].
  cbn [x y z].
  change (near_one (Prim2SF (PrimFloat.sqrt
            (x v * inv * (x v * inv) + y v * inv * (y v * inv)
             + z v * inv * (z v * inv))%float))).
  rewrite Prim2SF_magnitude, !mul_spec, Hinv.
  change SF64mul with (SFmul 53 1024).
  rewrite Hm in Hbound |- *. by apply near_one_intro.
Qed.

(** The vectors of the safe range have a strictly positive computed
    magnitude: they are among the objects the specification speaks of. *)
Lemma float_safe_positive (v : Vec3 c_float) :
  float_safe v → positive_magnitude v.
Proof.
  intros ((Hvx & Hvy & Hvz) & (Hfx & Hfy & Hfz) & (Hx & Hy & Hz) & Hlow).
  destruct (sf_normalize_unit 24 128 ltac:(lia) ltac:(lia) 59
              ltac:(lia) ltac:(lia) ltac:(vm_compute; discriminate)
              ltac:(vm_compute; discriminate)
              8388608 (-23) eq_refl F2R_one_binary32
              (x v) (y v) (z v) Hvx Hvy Hvz Hfx Hfy Hfz Hx Hy Hz Hlow)
    as (ml & el & Hlen & _).
  change (SFltb (S754_zero false) (sf_magnitude 24 128 (x v) (y v) (z v))
          = true).
  by rewrite Hlen.
Qed.

Lemma double_safe_positive (v : Vec3 c_double) :
  double_safe v → positive_magnitude v.
Proof.
  intros ((Hfx & Hfy & Hfz) & (Hx & Hy & Hz) & Hlow).
  destruct (sf_normalize_unit 53 1024 ltac:(lia) ltac:(lia) 509
              ltac:(lia) ltac:(lia) ltac:(vm_compute; discriminate)
              ltac:(vm_compute; discriminate)
              4503599627370496 (-52) eq_refl F2R_one_binary64
              (Prim2SF (x v)) (Prim2SF (y v)) (Prim2SF (z v))
              (Prim2SF_valid _) (Prim2SF_valid _) (Prim2SF_valid _)
              Hfx Hfy Hfz Hx Hy Hz Hlow)
    as (ml & el & Hlen & _).
  change (PrimFloat.ltb 0
            (PrimFloat.sqrt (x v * x v + y v * y v + z v * z v)%float) = true).
  by rewrite ltb_spec, Prim2SF_magnitude, Hlen.
Qed.
End RoundingErrors.

(** C2, amended.  For every component type [T], the method form of
    [normalize] returns the reference it was called on and changes no other
    object.  Both forms of [normalize] succeed with the same final store,
    in which the magnitude of the object is
    - exactly [1] over exact arithmetic, for every object of strictly
      positive magnitude;
    - within [1e-5] of [1] in [float], for every object whose components
      are finite and at most [2^59] in absolute value, one of them being at
      least [2^-59];
    - within [1e-5] of [1] in [double], for every object whose components
      are finite and at most [2^509] in absolute value, one of them being
      at least [2^-509]. *)
Theorem normalize_unit :
  (∀ (T : Type) (S : Scalar T) (σ : store (Vec3 T)) (l r : loc) σ',
     Vec3_normalize l σ = Ok r σ' →
     r = l ∧ ∀ l', l' ≠ l → σ' !! l' = σ !! l') ∧
  normalize_gives_unit (T:=R) positive_magnitude (λ m, m = 1%R) ∧
  normalize_gives_unit (T:=c_float) float_safe near_one ∧
  normalize_gives_unit (T:=c_double) double_safe double_near_one.
Proof.
  split; [intros T S σ l r σ'; apply Vec3_normalize_returns_this|].
  split; [|split; [exact run_normalize_float|exact run_normalize_double]].
  intros σ l v Hl Hlen. unfold positive_magnitude in Hlen.
  destruct (run_normalize_real σ l v Hl Hlen) as [Hmethod Hfunction].
  eexists _, _. split; [exact Hmethod|]. split; [exact Hfunction|].
  split; [exact (run_Vec3_magnitude _ l _ (lookup_insert_eq _ _ _))|].
  cbn [x y z tsqrt tadd tmul real_Scalar].
  apply real_gt_zero in Hlen. cbn [tsqrt tadd tmul real_Scalar] in Hlen.
  apply real_sqrt_positive in Hlen as [Hs Hsqrt].
  set (s := (x v * x v + y v * y v + z v * z v)%R) in *.
  set (len := R_sqrt.sqrt s) in *.
  assert (len ≠ 0%R) as Hne by (intros Hz; rewrite Hz in Hsqrt; lra).
  replace (x v * (1 / len) * (x v * (1 / len)) +
           y v * (1 / len) * (y v * (1 / len)) +
           z v * (1 / len) * (z v * (1 / len)))%R
    with (s / (len * len))%R by (unfold s; field; done).
  rewrite Hsqrt. replace (s / s)%R with 1%R by (field; lra).
  apply sqrt_1.
Qed.

(** Over exact arithmetic multiplying by the reciprocal is dividing: for an
    object of strictly positive magnitude [len], the components that
    [normalize] computes with [1 / len] are the components divided by
    [len]. *)
Lemma normalize_is_division_exact : normalize_is_division (T:=R).
Proof.
  intros σ l v Hl Hlen.
  destruct (run_normalize_real σ l v Hl Hlen) as [Hmethod Hfunction].
  eexists. split; [|split; [exact Hmethod|exact Hfunction]].
  apply real_gt_zero in Hlen. cbn [tsqrt tadd tmul real_Scalar] in Hlen.
  unfold divided_by_magnitude. cbn [tsqrt tadd tmul real_Scalar].
  rewrite !real_div by lra. cbn [mbind option_bind].
  do 2 f_equal; field; lra.
Qed.

(** The magnitude of the real vector [(3, 4, 0)] is [5]. *)
Lemma real_magnitude_3_4_0 :
  tsqrt (x (vec_of_ints 3 4 0) * x (vec_of_ints 3 4 0) +
         y (vec_of_ints 3 4 0) * y (vec_of_ints 3 4 0) +
         z (vec_of_ints 3 4 0) * z (vec_of_ints 3 4 0))%S = 5%R.
Proof.
  cbn [x y z vec_of_ints Vec3_ctor3 tsqrt tadd tmul of_int real_Scalar].
  replace (3 * 3 + 4 * 4 + 0 * 0)%R with (5 * 5)%R by lra.
  apply sqrt_square. lra.
Qed.

(** The real vector [(3, 4, 0)] has a strictly positive magnitude. *)
Lemma real_positive_3_4_0 : positive_magnitude (T:=R) (vec_of_ints 3 4 0).
Proof.
  unfold positive_magnitude. rewrite real_magnitude_3_4_0.
  apply real_gt_zero. lra.
Qed.

(** The [float] vector [(3, 4, 0)] is in the safe range. *)
Lemma float_safe_3_4_0 : float_safe (vec_of_ints 3 4 0).
Proof.
  assert (bpow (-22) = / 4194304)%R as H22
    by (change (-22)%Z with (- (22))%Z; rewrite bpow_opp, bpow_IZR by lia;
        f_equal).
  assert (bpow (-21) = / 2097152)%R as H21
    by (change (-21)%Z with (- (21))%Z; rewrite bpow_opp, bpow_IZR by lia;
        f_equal).
  assert (4 <= bpow 59)%R as H59
    by (replace 4%R with (bpow 2) by (rewrite bpow_IZR by lia; done);
        apply bpow_le; lia).
  assert (bpow (- (59)) <= 1)%R as H59'
    by (rewrite <- bpow_0; apply bpow_le; lia).
  split; [by vm_compute|].
  change (sf_in_range 59 (S754_finite false 12582912 (-22))
            (S754_finite false 8388608 (-21)) (S754_zero false)).
  unfold sf_in_range. cbn [SFfinite SFabsR]. unfold F2R.
  rewrite H22, H21. split; [done|]. split; [|left; lra].
  repeat split; lra.
Qed.

(** C2 at the vector [(3, 4, 0)], over the reals and in [float]. *)
Lemma normalize_unit_3_4_0 :
  (∃ σ' m, Vec3_normalize (T:=R) 1 (one_object (vec_of_ints 3 4 0)) = Ok 1%positive σ' ∧
           normalize (T:=R) 1 (one_object (vec_of_ints 3 4 0)) = Ok tt σ' ∧
           Vec3_magnitude (T:=R) 1 σ' = Ok m σ' ∧ m = 1%R) ∧
  (∃ σ' m, Vec3_normalize (T:=c_float) 1 (one_object (vec_of_ints 3 4 0)) = Ok 1%positive σ' ∧
           normalize (T:=c_float) 1 (one_object (vec_of_ints 3 4 0)) = Ok tt σ' ∧
           Vec3_magnitude (T:=c_float) 1 σ' = Ok m σ' ∧ near_one m).
Proof.
  split.
  - exact (proj1 (proj2 normalize_unit)
             (one_object (vec_of_ints 3 4 0)) 1%positive (vec_of_ints 3 4 0)
             eq_refl real_positive_3_4_0).
  - exact (proj1 (proj2 (proj2 normalize_unit))
             (one_object (vec_of_ints 3 4 0)) 1%positive (vec_of_ints 3 4 0)
             eq_refl float_safe_3_4_0).
Defined.

(** In [float] and in [double] the vector [(3, 4, 0)] is normalised to a
    vector of magnitude exactly [1]; in [double] its first component,
    [3 * (1 / 5)], is the successor of the quotient [3 / 5]: multiplying by
    the reciprocal and dividing agree up to rounding, not exactly. *)
Lemma normalize_3_4_0_floating :
  (m ← Vec3_normalize (T:=c_float) 1; Vec3_magnitude m)
    (one_object (vec_of_ints 3 4 0)) =
  Ok (of_int 1)
     (one_object (mkVec3 (S754_finite false 10066330 (-24))
                         (S754_finite false 13421773 (-24))
                         (S754_zero false))) ∧
  (m ← Vec3_normalize (T:=c_double) 1; Vec3_magnitude m)
    (one_object (vec_of_ints 3 4 0)) =
  Ok (of_int 1)
     (one_object (mkVec3 0x1.3333333333334p-1 0x1.999999999999ap-1 0)%float) ∧
  divided_by_magnitude (T:=c_double) (vec_of_ints 3 4 0) =
    Some (mkVec3 0x1.3333333333333p-1 0x1.999999999999ap-1 0)%float ∧
  next_up 0x1.3333333333333p-1 = 0x1.3333333333334p-1%float.
Proof. repeat split; vm_compute; reflexivity. Qed.

(** C2 fails as stated.  In [int] the vector [(3, 4, 0)], of magnitude
    [5], is normalised to [(0, 0, 0)], of magnitude [0]: no vector of
    integers of magnitude [1] has its direction.  In [double] the vector
    [(2^600, 0, 0)], whose magnitude is computed as [+infinity], is
    normalised to [(0, 0, 0)]. *)
Lemma normalize_not_unit :
  Vec3_magnitude (T:=c_int) 1 (one_object (vec_of_ints 3 4 0)) =
    Ok 5%Z (one_object (vec_of_ints 3 4 0)) ∧
  Vec3_normalize (T:=c_int) 1 (one_object (vec_of_ints 3 4 0)) =
    Ok 1%positive (one_object (vec_of_ints 0 0 0)) ∧
  Vec3_magnitude (T:=c_int) 1 (one_object (vec_of_ints 0 0 0)) =
    Ok 0%Z (one_object (vec_of_ints 0 0 0)) ∧
  ¬ normalize_gives_unit (T:=c_int) positive_magnitude (λ m, m = 1%Z) ∧
  Vec3_magnitude (T:=c_double) 1 (one_object (mkVec3 0x1p600 0 0)%float) =
    Ok infinity (one_object (mkVec3 0x1p600 0 0)%float) ∧
  Vec3_normalize (T:=c_double) 1 (one_object (mkVec3 0x1p600 0 0)%float) =
    Ok 1%positive (one_object (mkVec3 0 0 0)%float) ∧
  ¬ normalize_gives_unit (T:=c_double) positive_magnitude double_near_one.
Proof.
  split; [vm_compute; reflexivity|]. split; [vm_compute; reflexivity|].
  split; [vm_compute; reflexivity|]. split.
  { intros Hunit.
    destruct (Hunit (one_object (vec_of_ints 3 4 0)) 1%positive
                (vec_of_ints 3 4 0))
      as (σ' & m & Hnorm & _ & Hmag & Hone); [done|by vm_compute|].
    vm_compute in Hnorm. injection Hnorm as <-.
    vm_compute in Hmag. injection Hmag as <-. discriminate. }
  split; [vm_compute; reflexivity|]. split; [vm_compute; reflexivity|].
  intros Hunit.
  destruct (Hunit (one_object (mkVec3 0x1p600 0 0)%float) 1%positive
              (mkVec3 0x1p600 0 0)%float)
    as (σ' & m & Hnorm & _ & Hmag & [Hone _]); [done|by vm_compute|].
  vm_compute in Hnorm. injection Hnorm as <-.
  vm_compute in Hmag. injection Hmag as <-.
  change (Prim2SF 0) with (S754_zero false) in Hone.
  cbn [SF2R] in Hone. lra.
Qed.

(** C3 at the [int] vector [(5, 0, 0)], of magnitude [5]: dividing each
    component by the magnitude gives [(1, 0, 0)], but [normalize], which
    multiplies by [1 / 5 = 0], stores [(0, 0, 0)]. *)
Lemma normalize_int_5_0_0 :
  Vec3_magnitude (T:=c_int) 1 (one_object (vec_of_ints 5 0 0)) =
    Ok 5%Z (one_object (vec_of_ints 5 0 0)) ∧
  tdiv (of_int 1) (5%Z : c_int) = Some 0%Z ∧
  Vec3_normalize (T:=c_int) 1 (one_object (vec_of_ints 5 0 0)) =
    Ok 1%positive (one_object (vec_of_ints 0 0 0)) ∧
  normalize (T:=c_int) 1 (one_object (vec_of_ints 5 0 0)) =
    Ok tt (one_object (vec_of_ints 0 0 0)) ∧
  divided_by_magnitude (T:=c_int) (vec_of_ints 5 0 0) =
    Some (vec_of_ints 1 0 0) ∧
  ¬ normalize_is_division (T:=c_int).
Proof.
  repeat (split; [vm_compute; reflexivity|]).
  intros Hdiv.
  destruct (Hdiv (one_object (vec_of_ints 5 0 0)) 1%positive
              (vec_of_ints 5 0 0))
    as (v' & Hv' & Hnorm & _); [done|by vm_compute|].
  vm_compute in Hv'. injection Hv' as <-.
  apply (f_equal (λ o, match o with
                       | Ok _ σ => x <$> σ !! 1%positive
                       | Err _ => None
                       end)) in Hnorm.
  vm_compute in Hnorm. discriminate.
Qed.

(** ** Anti-commutativity in floating point *)

Lemma SFeqb_refl a : a ≠ S754_nan → SFeqb a a = true.
Proof.
  destruct a as [s|s| |s m e]; intros Ha; try done; unfold SFeqb; cbn [SFcompare].
  - by destruct s.
  - destruct s; by rewrite Z.compare_refl, Pos.compare_cont_refl.
Qed.

Lemma SFsame_eq_or_nan a b : SFsame a b → float_eq_or_nan a b.
Proof.
  intros [<-|(s & s' & -> & ->)]; [|by left].
  destruct a as [s|s| |s m e]; [left|left|by right|left]; by apply SFeqb_refl.
Qed.

Lemma same_double_eq_or_nan (a b : c_double) :
  same_double a b → double_eq_or_nan a b.
Proof.
  intros [<-|Heq]; [|by left]. unfold double_eq_or_nan, double_eq, is_nan.
  destruct (a =? a)%float; [by left|by right].
Qed.

(** A finite component that is the same as another one is equal to it under
    [==], and their difference is a zero. *)
Lemma SFsame_sub prec emax a b :
  SFsame a b → SFfinite a → ∃ s, SFsub prec emax a b = S754_zero s.
Proof.
  intros [<-|(s & s' & -> & ->)] Ha.
  - destruct a as [s|s| |s m e]; try done; cbn [SFsub].
    + exists false. by destruct s.
    + exists false. by rewrite Z.sub_diag.
  - destruct s, s'; by eexists.
Qed.

Lemma SFsame_eqb a b : SFsame a b → SFfinite a → SFeqb a b = true.
Proof.
  intros [Heq|[-> _]]%SFsame_eq_or_nan Ha; done.
Qed.

Section Difference.
Variables prec emax : Z.
Hypothesis Hprec : (2 ≤ prec)%Z.
Hypothesis Hemax : (prec < emax)%Z.
Local Open Scope R_scope.

Lemma F2R_nonneg m e : 0 <= F2R (Z.pos m) e.
Proof.
  unfold F2R. apply Rmult_le_pos; [by apply IZR_le|].
  pose proof (bpow_pos e). lra.
Qed.

(** The difference of two finite numbers is finite when the sum of their
    absolute values does not overflow. *)
Lemma SFsub_finite x y :
  SFfinite x → SFfinite y → SFabsR x + SFabsR y < bpow (emax - 1) →
  SFfinite (SFsub prec emax x y).
Proof.
  intros Hx Hy Hmax.
  destruct x as [sx|sx| |sx mx ex], y as [sy|sy| |sy my ey]; try done;
    cbn [SFsub]; try done; [by destruct sx, sy|].
  cbn [SFabsR] in Hmax. set (ez := Z.min ex ey) in *.
  rewrite <- (shl_align_fst_value mx ex ez), <- (shl_align_fst_value my ey ez)
    in Hmax by lia.
  rewrite <- F2R_add, <- Pos2Z.inj_add in Hmax.
  set (a := (shl_align mx ex ez).1) in *. set (b := (shl_align my ey ez).1) in *.
  assert (∀ k, (Z.pos k ≤ Z.pos (a + b))%Z → F2R (Z.pos k) ez < bpow (emax - 1))
    as Hk.
  { intros k Hle. eapply Rle_lt_trans; [by apply F2R_le|done]. }
  destruct (cond_Zopp sx (Z.pos a) - cond_Zopp sy (Z.pos b))%Z as [|k|k] eqn:Hd;
    cbn [binary_normalize]; [done|..].
  - apply (binary_round_error prec emax Hprec Hemax false k ez), Hk.
    destruct sx, sy; cbn [cond_Zopp] in Hd; lia.
  - apply (binary_round_error prec emax Hprec Hemax true k ez), Hk.
    destruct sx, sy; cbn [cond_Zopp] in Hd; lia.
Qed.

(** The product of two numbers of absolute value at most [2^B] is finite,
    when [2^(2B)] is. *)
Lemma SFmul_at_most B x y :
  (0 ≤ B)%Z → (2 * B < emax - 1)%Z →
  SpecFloat.valid_binary prec emax x = true →
  SpecFloat.valid_binary prec emax y = true →
  sf_at_most B x → sf_at_most B y →
  SFfinite (SFmul prec emax x y) ∧
  SFabsR (SFmul prec emax x y) <= 2 * bpow (2 * B) + 1.
Proof.
  intros HB HBmax Hvx Hvy [Hfx Hx] [Hfy Hy].
  pose proof (SFabsR_nonneg x). pose proof (SFabsR_nonneg y).
  pose proof (bpow_pos B) as HpB.
  assert (SFabsR x * SFabsR y <= bpow (2 * B)) as Hxy.
  { replace (2 * B)%Z with (B + B)%Z by lia. rewrite bpow_add. nra. }
  destruct (SFmul_error prec emax Hprec Hemax x y Hvx Hvy Hfx Hfy)
    as (Hfin & _ & _ & [_ Hhi]).
  { eapply Rle_lt_trans; [exact Hxy|].
    destruct (Rlt_or_le (bpow (2 * B)) (bpow (emax - 1))) as [|Hle]; [done|].
    assert (bpow (2 * B + 1) <= bpow (emax - 1)) by (apply bpow_le; lia).
    rewrite bpow_succ in *. pose proof (bpow_pos (2 * B)). lra. }
  split; [done|].
  assert (bpow (1 - prec) <= 1) as Heps
    by (rewrite <- bpow_0; apply bpow_le; lia).
  assert (bpow (SpecFloat.emin prec emax) <= 1) as Heta
    by (rewrite <- bpow_0; apply bpow_le; unfold SpecFloat.emin; lia).
  pose proof (bpow_pos (1 - prec)).
  assert (0 <= SFabsR x * SFabsR y) by nra.
  clear - Hhi Heps Heta Hxy H1 H2. nra.
Qed.

(** A component [p * q - r * u] of a cross product of vectors with
    components of absolute value at most [2^B] is finite, when [2^(2B+3)]
    is. *)
Lemma SF_cross_component_finite B p q r u :
  (0 ≤ B)%Z → (2 * B + 3 ≤ emax - 1)%Z →
  SpecFloat.valid_binary prec emax p = true →
  SpecFloat.valid_binary prec emax q = true →
  SpecFloat.valid_binary prec emax r = true →
  SpecFloat.valid_binary prec emax u = true →
  sf_at_most B p → sf_at_most B q → sf_at_most B r → sf_at_most B u →
  SFfinite (SFsub prec emax (SFmul prec emax p q) (SFmul prec emax r u)).
Proof.
  intros HB HBmax Hvp Hvq Hvr Hvu Hp Hq Hr Hu.
  destruct (SFmul_at_most B p q) as [Hf1 Hb1]; [lia|lia|done..|].
  destruct (SFmul_at_most B r u) as [Hf2 Hb2]; [lia|lia|done..|].
  apply SFsub_finite; [done..|].
  assert (bpow (2 * B + 3) <= bpow (emax - 1)) as Hle by (apply bpow_le; lia).
  assert (1 <= bpow (2 * B)) as H1 by (apply bpow_ge_1; lia).
  replace (2 * B + 3)%Z with (2 * B + 1 + 1 + 1)%Z in Hle by lia.
  rewrite !bpow_succ in Hle. lra.
Qed.

End Difference.

Lemma float_cross_component_agree (p q r u : c_float) :
  float_at_most 62 p → float_at_most 62 q →
  float_at_most 62 r → float_at_most 62 u →
  float_agree (p * q - r * u)%S ((u * r - q * p) * of_int (-1))%S.
Proof.
  intros [Hvp Hp] [Hvq Hq] [Hvr Hr] [Hvu Hu].
  pose proof (float_cross_component p q r u Hvp Hvq Hvr Hvu) as Hsame.
  assert (SFfinite (p * q - r * u)%S) as Hfin
    by (by apply (SF_cross_component_finite 24 128 ltac:(lia) ltac:(lia) 62)).
  split; [by apply SFsame_eqb|].
  intros tol Htol. unfold float_within, Binary32.sub.
  by destruct (SFsame_sub Binary32.prec Binary32.emax _ _ Hsame Hfin) as [s ->].
Qed.

Lemma double_cross_component_agree (p q r u : c_double) :
  double_at_most 510 p → double_at_most 510 q →
  double_at_most 510 r → double_at_most 510 u →
  double_agree (p * q - r * u)%S ((u * r - q * p) * of_int (-1))%S.
Proof.
  intros Hp Hq Hr Hu.
  pose proof (double_cross_component_SF p q r u) as Hsame.
  assert (SFfinite (Prim2SF (p * q - r * u)%S)) as Hfin.
  { cbn [tsub tmul double_Scalar]. rewrite sub_spec, !mul_spec.
    apply (SF_cross_component_finite 53 1024 ltac:(lia) ltac:(lia) 510);
      try done; try lia; apply Prim2SF_valid. }
  split.
  - unfold double_eq. rewrite FloatAxioms.eqb_spec. by apply SFsame_eqb.
  - intros tol Htol. unfold double_within.
    rewrite leb_spec in Htol. rewrite leb_spec, abs_spec, sub_spec.
    change SF64sub with (SFsub 53 1024).
    by destruct (SFsame_sub 53 1024 _ _ Hsame Hfin) as [s ->].
Qed.

(** C9: [cross(a, b)] and [cross(b, a) * -1] (method and free function)
    have
    - identical components in [int], also when the arithmetic wraps around,
      and over exact arithmetic;
    - in [float] and in [double], for all operands, components that are
      equal under [==] or are both NaN;
    - in [float] on operands with finite components of absolute value at
      most [2^62], and in [double] on operands with finite components of
      absolute value at most [2^510], components that are equal under [==]
      and pass the test [|a - b| <= tol] for every tolerance [tol >= 0]. *)
Theorem cross_anticommutative_unless_nan :
  cross_anticommutes (T:=c_int) (λ _, True) eq ∧
  cross_anticommutes (T:=R) (λ _, True) eq ∧
  cross_anticommutes (T:=c_float) Binary32.valid float_eq_or_nan ∧
  cross_anticommutes (T:=c_double) (λ _, True) double_eq_or_nan ∧
  cross_anticommutes (T:=c_float) (float_at_most 62) float_agree ∧
  cross_anticommutes (T:=c_double) (double_at_most 510) double_agree.
Proof.
  split; [|split; [|split; [|split; [|split]]]];
    apply cross_anticommutes_intro; intros p q r u **.
  - apply int_cross_component.
  - apply real_cross_component.
  - by apply SFsame_eq_or_nan, float_cross_component.
  - apply same_double_eq_or_nan, double_cross_component.
  - by apply float_cross_component_agree.
  - by apply double_cross_component_agree.
Qed.

(** Small numbers are below the bounds. *)
Lemma sf_at_most_finite B s m e :
  (e ≤ B)%Z → (Z.pos m ≤ 2 ^ (B - e))%Z → sf_at_most B (S754_finite s m e).
Proof.
  intros He Hm. split; [done|]. cbn [SFabsR].
  replace B with ((B - e) + e)%Z at 1 by lia.
  rewrite bpow_add, (bpow_IZR (B - e)) by lia.
  unfold F2R. apply Rmult_le_compat_r; [|by apply IZR_le].
  pose proof (bpow_pos e). lra.
Qed.

(** C9 at [a = (1, 2, 3)] and [b = (4, 5, 6)], in [float] and in
    [double]. *)
Lemma cross_anticommutative_1_2_3_4_5_6 :
  (∃ c c' : Vec3 c_float,
     Vec3_cross 1 2 (two_objects (vec_of_ints 1 2 3) (vec_of_ints 4 5 6)) =
       Ok c (two_objects (vec_of_ints 1 2 3) (vec_of_ints 4 5 6)) ∧
     cross (vec_of_ints 1 2 3) 2
         (two_objects (vec_of_ints 1 2 3) (vec_of_ints 4 5 6)) =
       Ok c (two_objects (vec_of_ints 1 2 3) (vec_of_ints 4 5 6)) ∧
     scale_cross 2 1 (of_int (-1))
         (two_objects (vec_of_ints 1 2 3) (vec_of_ints 4 5 6)) =
       Ok c' (two_objects (vec_of_ints 1 2 3) (vec_of_ints 4 5 6)) ∧
     float_agree (x c) (x c') ∧ float_agree (y c) (y c') ∧
     float_agree (z c) (z c')) ∧
  (∃ c c' : Vec3 c_double,
     Vec3_cross 1 2 (two_objects (vec_of_ints 1 2 3) (vec_of_ints 4 5 6)) =
       Ok c (two_objects (vec_of_ints 1 2 3) (vec_of_ints 4 5 6)) ∧
     cross (vec_of_ints 1 2 3) 2
         (two_objects (vec_of_ints 1 2 3) (vec_of_ints 4 5 6)) =
       Ok c (two_objects (vec_of_ints 1 2 3) (vec_of_ints 4 5 6)) ∧
     scale_cross 2 1 (of_int (-1))
         (two_objects (vec_of_ints 1 2 3) (vec_of_ints 4 5 6)) =
       Ok c' (two_objects (vec_of_ints 1 2 3) (vec_of_ints 4 5 6)) ∧
     double_agree (x c) (x c') ∧ double_agree (y c) (y c') ∧
     double_agree (z c) (z c')).
Proof.
  split.
  - refine (proj1 (proj2 (proj2 (proj2 (proj2 cross_anticommutative_unless_nan))))
              (two_objects (vec_of_ints 1 2 3) (vec_of_ints 4 5 6))
              1%positive 2%positive (vec_of_ints 1 2 3) (vec_of_ints 4 5 6)
              eq_refl eq_refl _ _).
    + split; [|split]; (split; [by vm_compute|]).
      * apply (sf_at_most_finite 62 false 8388608 (-23)); [lia|by vm_compute].
      * apply (sf_at_most_finite 62 false 8388608 (-22)); [lia|by vm_compute].
      * apply (sf_at_most_finite 62 false 12582912 (-22)); [lia|by vm_compute].
    + split; [|split]; (split; [by vm_compute|]).
      * apply (sf_at_most_finite 62 false 8388608 (-21)); [lia|by vm_compute].
      * apply (sf_at_most_finite 62 false 10485760 (-21)); [lia|by vm_compute].
      * apply (sf_at_most_finite 62 false 12582912 (-21)); [lia|by vm_compute].
  - refine (proj2 (proj2 (proj2 (proj2 (proj2 cross_anticommutative_unless_nan))))
              (two_objects (vec_of_ints 1 2 3) (vec_of_ints 4 5 6))
              1%positive 2%positive (vec_of_ints 1 2 3) (vec_of_ints 4 5 6)
              eq_refl eq_refl _ _).
    + split; [|split].
      * apply (sf_at_most_finite 510 false 4503599627370496 (-52)); [lia|by vm_compute].
      * apply (sf_at_most_finite 510 false 4503599627370496 (-51)); [lia|by vm_compute].
      * apply (sf_at_most_finite 510 false 6755399441055744 (-51)); [lia|by vm_compute].
    + split; [|split].
      * apply (sf_at_most_finite 510 false 4503599627370496 (-50)); [lia|by vm_compute].
      * apply (sf_at_most_finite 510 false 5629499534213120 (-50)); [lia|by vm_compute].
      * apply (sf_at_most_finite 510 false 6755399441055744 (-50)); [lia|by vm_compute].
Defined.

(** C9 fails as stated.  On the [double] vectors [a = (2^600, 2^600, 1)] and
    [b = (2^601, 2^601, 3)], whose components are finite, the two products
    of the third component overflow to [+infinity]: the third component of
    [cross(a, b)] and of [cross(b, a) * -1] is NaN, which is neither equal
    to itself under [==] nor within any tolerance of itself. *)
Lemma cross_not_anticommutative :
  Vec3_cross (T:=c_double) 1 2
      (two_objects (mkVec3 0x1p600 0x1p600 1)%float
                   (mkVec3 0x1p601 0x1p601 3)%float) =
    Ok (mkVec3 0x1p600 (-0x1p600) nan)%float
      (two_objects (mkVec3 0x1p600 0x1p600 1)%float
                   (mkVec3 0x1p601 0x1p601 3)%float) ∧
  scale_cross (T:=c_double) 2 1 (of_int (-1))
      (two_objects (mkVec3 0x1p600 0x1p600 1)%float
                   (mkVec3 0x1p601 0x1p601 3)%float) =
    Ok (mkVec3 0x1p600 (-0x1p600) nan)%float
      (two_objects (mkVec3 0x1p600 0x1p600 1)%float
                   (mkVec3 0x1p601 0x1p601 3)%float) ∧
  (0x1p600 * 0x1p601 = infinity)%float ∧
  (infinity - infinity = nan)%float ∧
  (nan =? nan)%float = false ∧
  ¬ cross_anticommutes (T:=c_double) (λ c, is_finite c = true) double_eq ∧
  (∀ tol, ¬ cross_anticommutes (T:=c_double) (λ c, is_finite c = true)
              (double_within tol)).
Proof.
  split; [vm_compute; reflexivity|]. split; [vm_compute; reflexivity|].
  split; [vm_compute; reflexivity|]. split; [vm_compute; reflexivity|].
  split; [vm_compute; reflexivity|].
  assert (∀ same : c_double → c_double → Prop,
            cross_anticommutes (T:=c_double) (λ c, is_finite c = true) same →
            same nan nan) as Hz.
  { intros same Hanti.
    destruct (Hanti (two_objects (mkVec3 0x1p600 0x1p600 1)%float
                                 (mkVec3 0x1p601 0x1p601 3)%float)
                1%positive 2%positive _ _ eq_refl eq_refl)
      as (c & c' & Hc & _ & Hc' & _ & _ & Hsame);
      [by vm_compute|by vm_compute|].
    vm_compute in Hc. injection Hc as <-.
    vm_compute in Hc'. injection Hc' as <-. exact Hsame. }
  split.
  - intros Hanti%Hz. by vm_compute in Hanti.
  - intros tol Hanti%Hz. unfold double_within in Hanti.
    rewrite leb_spec, abs_spec, sub_spec in Hanti. by vm_compute in Hanti.
Qed.

(** * Further properties

    Properties of the same code beyond the claims of the specification:
    how the operations compose, what [normalize] does at the edges of each
    arithmetic, and how accurate the floating-point results are. *)

Section RunComposed.
Context {T : Type} `{!Scalar T}.
Implicit Types (σ : store (Vec3 T)) (l a b : loc) (v : Vec3 T) (s : T).
Local Open Scope scalar_scope.

Lemma run_Vec3_dot σ a b (va vb : Vec3 T) :
  σ !! a = Some va → σ !! b = Some vb →
  Vec3_dot a b σ = Ok (x va * x vb + y va * y vb + z va * z vb) σ.
Proof. intros Ha Hb. by run. Qed.

Lemma run_dot σ a b (va vb : Vec3 T) :
  σ !! a = Some va → σ !! b = Some vb →
  dot a b σ = Ok (x va * x vb + y va * y vb + z va * z vb) σ.
Proof. intros Ha Hb. by run. Qed.

Lemma run_Vec3_sqrMagnitude σ l v :
  σ !! l = Some v →
  Vec3_sqrMagnitude l σ = Ok (x v * x v + y v * y v + z v * z v) σ.
Proof. intros Hl. by run. Qed.

Lemma run_Vec3_operator_plus σ a b (va vb : Vec3 T) :
  σ !! a = Some va → σ !! b = Some vb →
  Vec3_operator_plus a b σ =
    Ok (mkVec3 (x va + x vb) (y va + y vb) (z va + z vb)) σ.
Proof. intros Ha Hb. by run. Qed.

Lemma run_Vec3_operator_minus σ a b (va vb : Vec3 T) :
  σ !! a = Some va → σ !! b = Some vb →
  Vec3_operator_minus a b σ =
    Ok (mkVec3 (x va - x vb) (y va - y vb) (z va - z vb)) σ.
Proof. intros Ha Hb. by run. Qed.

Lemma run_Vec3_operator_times σ a (va : Vec3 T) s :
  σ !! a = Some va →
  Vec3_operator_times a s σ = Ok (mkVec3 (x va * s) (y va * s) (z va * s)) σ.
Proof. intros Ha. by run. Qed.

(** An object of the store is still there, unchanged, beside a
    temporary. *)
Lemma lookup_beside_temporary σ l a (t va : Vec3 T) :
  σ !! l = None → σ !! a = Some va → (<[l := t]> σ) !! a = Some va.
Proof.
  intros Hl Ha. rewrite lookup_insert_ne; [done|]. by intros ->; simplify_eq.
Qed.

Lemma run_dot_cross σ w a b (vw va vb : Vec3 T) :
  σ !! w = Some vw → σ !! a = Some va → σ !! b = Some vb →
  let c := mkVec3 (y va * z vb - z va * y vb) (z va * x vb - x va * z vb)
                  (x va * y vb - y va * x vb) in
  dot_cross w a b σ = Ok (x vw * x c + y vw * y c + z vw * z c) σ ∧
  free_dot_cross w a b σ = Ok (x vw * x c + y vw * y c + z vw * z c) σ.
Proof.
  intros Hw Ha Hb c. unfold dot_cross, free_dot_cross. split.
  - rewrite run_bind, (run_Vec3_cross σ a b va vb Ha Hb).
    apply run_with_temporary. intros l Hl.
    apply run_Vec3_dot; [by eapply lookup_beside_temporary|].
    apply lookup_insert_eq.
  - rewrite run_bind, (run_load _ _ _ Ha), run_bind, (run_cross σ b va vb Hb).
    apply run_with_temporary. intros l Hl.
    apply run_dot; [by eapply lookup_beside_temporary|].
    apply lookup_insert_eq.
Qed.

Lemma run_plus_minus σ a b (va vb : Vec3 T) :
  σ !! a = Some va → σ !! b = Some vb →
  plus_minus a b σ =
    Ok (mkVec3 (x va + x vb - x vb) (y va + y vb - y vb) (z va + z vb - z vb)) σ.
Proof.
  intros Ha Hb. unfold plus_minus.
  rewrite run_bind, (run_Vec3_operator_plus σ a b va vb Ha Hb).
  apply run_with_temporary. intros l Hl.
  apply (run_Vec3_operator_minus _ l b (mkVec3 _ _ _) vb);
    [apply lookup_insert_eq|by eapply lookup_beside_temporary].
Qed.

Lemma run_negated σ l v :
  σ !! l = Some v →
  let w := mkVec3 (x v * of_int (-1)) (y v * of_int (-1)) (z v * of_int (-1)) in
  negated_sqrMagnitude l σ = Ok (x w * x w + y w * y w + z w * z w) σ ∧
  negated_magnitude l σ = Ok (tsqrt (x w * x w + y w * y w + z w * z w)) σ.
Proof.
  intros Hl w. unfold negated_sqrMagnitude, negated_magnitude.
  rewrite !run_bind, (run_Vec3_operator_times σ l v _ Hl). split.
  - apply run_with_temporary. intros l' Hl'.
    apply (run_Vec3_sqrMagnitude _ l' w), lookup_insert_eq.
  - apply run_with_temporary. intros l' Hl'.
    apply (run_Vec3_magnitude _ l' w), lookup_insert_eq.
Qed.

(** X2: [sqrMagnitude(a)] is [dot(a, a)], and [magnitude(a)] is the square root
    of [sqrMagnitude(a)]: the same operations in the same order, hence the
    same value in every arithmetic; also on a missing object, where all
    fail alike. *)
Theorem sqrMagnitude_is_dot σ l :
  Vec3_sqrMagnitude l σ = Vec3_dot l l σ ∧
  sqrMagnitude l σ = dot l l σ ∧
  Vec3_magnitude l σ = (s ← Vec3_sqrMagnitude l; mret (tsqrt s)) σ ∧
  magnitude l σ = (s ← sqrMagnitude l; mret (tsqrt s)) σ.
Proof.
  destruct (σ !! l) as [v|] eqn:Hl.
  - repeat split; by run.
  - unfold Vec3_sqrMagnitude, Vec3_dot, sqrMagnitude, dot, Vec3_magnitude,
      magnitude.
    rewrite !run_bind, !(run_load_dangling _ _ Hl). done.
Qed.


End RunComposed.






Lemma wrap_id (n : Z) : int_range n → Int32.wrap n = n.
Proof.
  unfold int_range, Int32.min_int, Int32.max_int, Int32.wrap. intros Hn.
  rewrite Z.mod_small by lia. lia.
Qed.

Lemma int_orthogonal_1 (ax ay az bx by' bz : c_int) :
  (ax * (ay * bz - az * by') + ay * (az * bx - ax * bz)
   + az * (ax * by' - ay * bx))%S = of_int 0.
Proof.
  cbn [tadd tsub tmul of_int int_Scalar].
  unfold Int32.add, Int32.sub, Int32.mul. apply wrap_proper.
  rewrite !wrap_eqm32. unfold eqm32. f_equal. ring.
Qed.

Lemma int_orthogonal_2 (ax ay az bx by' bz : c_int) :
  (bx * (ay * bz - az * by') + by' * (az * bx - ax * bz)
   + bz * (ax * by' - ay * bx))%S = of_int 0.
Proof.
  cbn [tadd tsub tmul of_int int_Scalar].
  unfold Int32.add, Int32.sub, Int32.mul. apply wrap_proper.
  rewrite !wrap_eqm32. unfold eqm32. f_equal. ring.
Qed.

(** X4: In [int], and over the reals, [cross(a, b)] is exactly orthogonal to
    [a] and to [b]; in [int] also when the products or sums wrap around,
    since the identity holds modulo [2^32]. *)
Theorem cross_is_orthogonal :
  cross_orthogonal (T:=c_int) ∧ cross_orthogonal (T:=R).
Proof.
  split; intros σ a b va vb Ha Hb.
  - destruct (run_dot_cross σ a a b va va vb Ha Ha Hb) as [-> ->].
    destruct (run_dot_cross σ b a b vb va vb Hb Ha Hb) as [-> ->].
    cbn [x y z]. by rewrite int_orthogonal_1, int_orthogonal_2.
  - destruct (run_dot_cross σ a a b va va vb Ha Ha Hb) as [-> ->].
    destruct (run_dot_cross σ b a b vb va vb Hb Ha Hb) as [-> ->].
    cbn [x y z tadd tsub tmul of_int real_Scalar].
    repeat split; f_equal; ring.
Qed.

(** In [double] the dot product of [a] with [cross(a, b)] need not be
    zero: rounding. *)
Lemma cross_not_orthogonal_double :
  dot_cross (T:=c_double) 1 1 2
    (two_objects (mkVec3 0x1.3333333333333p-1 1 1)%float
                 (mkVec3 1 0x1.3333333333333p-1 3)%float) ≠
  Ok 0%float
    (two_objects (mkVec3 0x1.3333333333333p-1 1 1)%float
                 (mkVec3 1 0x1.3333333333333p-1 3)%float).
Proof. vm_compute. discriminate. Qed.

(** *** [a.cross(a)] *)

Lemma SFsub_itself prec emax p : SFsub prec emax p p = SF_minus_itself p.
Proof.
  destruct p as [s|s| |s m e]; cbn [SFsub SF_minus_itself];
    [by destruct s|by destruct s|done|].
  by rewrite Z.sub_diag.
Qed.

Lemma SF_minus_itself_finite p : SFfinite p → SF_minus_itself p = S754_zero false.
Proof. by destruct p. Qed.

Lemma float_cross_self (v : Vec3 c_float) :
  mkVec3 (y v * z v - z v * y v)%S (z v * x v - x v * z v)%S
         (x v * y v - y v * x v)%S = SF_cross_self Binary32.mul v.
Proof.
  cbn [tsub tmul float_Scalar]. unfold Binary32.sub, Binary32.mul, SF_cross_self.
  rewrite (SFmul_comm _ _ (z v) (y v)), (SFmul_comm _ _ (x v) (z v)),
    (SFmul_comm _ _ (y v) (x v)).
  by rewrite !SFsub_itself.
Qed.

Lemma double_cross_self (v : Vec3 c_double) :
  Prim2SF_vector (mkVec3 (y v * z v - z v * y v)%S (z v * x v - x v * z v)%S
                         (x v * y v - y v * x v)%S) =
  SF_cross_self SF64mul (Prim2SF_vector v).
Proof.
  cbn [tsub tmul double_Scalar]. unfold Prim2SF_vector, SF_cross_self.
  cbn [x y z]. rewrite !sub_spec, !mul_spec. unfold SF64sub, SF64mul.
  rewrite (SFmul_comm _ _ (Prim2SF (z v)) (Prim2SF (y v))),
    (SFmul_comm _ _ (Prim2SF (x v)) (Prim2SF (z v))),
    (SFmul_comm _ _ (Prim2SF (y v)) (Prim2SF (x v))).
  by rewrite !SFsub_itself.
Qed.

Lemma float_cross_self_zero (v : Vec3 c_float) :
  float_at_most 63 (x v) ∧ float_at_most 63 (y v) ∧ float_at_most 63 (z v) →
  SF_cross_self Binary32.mul v = Vec3_ctor0.
Proof.
  intros ([Hvx Hx] & [Hvy Hy] & [Hvz Hz]). unfold SF_cross_self, Binary32.mul.
  rewrite !SF_minus_itself_finite; [done|..];
    by apply (SFmul_at_most 24 128 ltac:(lia) ltac:(lia) 63).
Qed.

Lemma double_cross_self_zero (v : Vec3 c_double) :
  double_at_most 511 (x v) ∧ double_at_most 511 (y v) ∧ double_at_most 511 (z v) →
  SF_cross_self SF64mul (Prim2SF_vector v) = Prim2SF_vector Vec3_ctor0.
Proof.
  intros (Hx & Hy & Hz). unfold SF_cross_self, SF64mul, Prim2SF_vector.
  cbn [x y z].
  rewrite !SF_minus_itself_finite; [done|..];
    apply (SFmul_at_most 53 1024 ltac:(lia) ltac:(lia) 511);
    try done; try lia; apply Prim2SF_valid.
Qed.

Lemma Prim2SF_vector_inj (v w : Vec3 c_double) :
  Prim2SF_vector v = Prim2SF_vector w → v = w.
Proof.
  destruct v, w. unfold Prim2SF_vector. cbn [x y z].
  intros [= ?%Prim2SF_inj ?%Prim2SF_inj ?%Prim2SF_inj]. by subst.
Qed.

(** X5: The cross product of a vector with itself, [a.cross(a)] and
    [cross(a, a)]:
    - the zero vector in [int] (also under wrap-around) and over the reals;
    - in [float] and [double], for every vector, each component is [p - p]
      for the product [p] of the two other components: [+0] when [p] is
      finite, NaN when [p] is an infinity or NaN;
    - in [float] on vectors with finite components of absolute value at
      most [2^63], and in [double] on vectors with finite components of
      absolute value at most [2^511], the vector [(+0, +0, +0)]. *)
Theorem cross_with_itself :
  cross_self (T:=c_int) (λ c, c = 0%Z) ∧
  cross_self (T:=R) (λ c, c = 0%R) ∧
  cross_self_is (T:=c_float) (λ _, True)
    (λ v c, c = SF_cross_self Binary32.mul v) ∧
  cross_self_is (T:=c_double) (λ _, True)
    (λ v c, Prim2SF_vector c = SF_cross_self SF64mul (Prim2SF_vector v)) ∧
  cross_self_is (T:=c_float) (float_at_most 63) (λ _ c, c = Vec3_ctor0) ∧
  cross_self_is (T:=c_double) (double_at_most 511) (λ _ c, c = Vec3_ctor0).
Proof.
  split; [|split; [|split; [|split; [|split]]]].
  1, 2: intros σ a va Ha; eexists;
    (split; [exact (run_Vec3_cross σ a a va va Ha Ha)|]);
    (split; [exact (run_cross σ a va va Ha)|]); cbn [x y z].
  3, 4, 5, 6: intros σ a va Ha Hok; eexists;
    (split; [exact (run_Vec3_cross σ a a va va Ha Ha)|]);
    (split; [exact (run_cross σ a va va Ha)|]).
  - cbn [tsub tmul int_Scalar]. unfold Int32.sub, Int32.mul.
    rewrite (Z.mul_comm (z va) (y va)), (Z.mul_comm (x va) (z va)),
      (Z.mul_comm (y va) (x va)), !Z.sub_diag. done.
  - cbn [tsub tmul real_Scalar]. repeat split; ring.
  - apply float_cross_self.
  - apply double_cross_self.
  - rewrite float_cross_self. by apply float_cross_self_zero.
  - apply Prim2SF_vector_inj. rewrite double_cross_self.
    by apply double_cross_self_zero.
Qed.

(** X5 at the [float] vector [(1, 2, 3)]. *)
Lemma cross_with_itself_1_2_3 :
  ∃ c : Vec3 c_float,
    Vec3_cross 1 1 (one_object (vec_of_ints 1 2 3)) =
      Ok c (one_object (vec_of_ints 1 2 3)) ∧
    cross (vec_of_ints 1 2 3) 1 (one_object (vec_of_ints 1 2 3)) =
      Ok c (one_object (vec_of_ints 1 2 3)) ∧
    c = Vec3_ctor0.
Proof.
  refine (proj1 (proj2 (proj2 (proj2 (proj2 cross_with_itself))))
            (one_object (vec_of_ints 1 2 3)) 1%positive (vec_of_ints 1 2 3)
            eq_refl _).
  split; [|split]; (split; [by vm_compute|]).
  - apply (sf_at_most_finite 63 false 8388608 (-23)); [lia|by vm_compute].
  - apply (sf_at_most_finite 63 false 8388608 (-22)); [lia|by vm_compute].
  - apply (sf_at_most_finite 63 false 12582912 (-22)); [lia|by vm_compute].
Defined.

(** With an overflowing product the component is NaN: in [double],
    [cross(a, a)] for [a = (2^600, 2^600, 1)] is [(+0, +0, NaN)]. *)
Lemma cross_with_itself_overflow :
  Vec3_cross (T:=c_double) 1 1 (one_object (mkVec3 0x1p600 0x1p600 1)%float) =
  Ok (mkVec3 0 0 nan)%float (one_object (mkVec3 0x1p600 0x1p600 1)%float).
Proof. vm_compute. reflexivity. Qed.

(** *** [(a + b) - b] *)

(** X6: In [int] subtracting [b] undoes adding it, also when the sum wraps
    around. *)
Theorem plus_minus_round_trip (σ : store (Vec3 c_int)) a b va vb :
  σ !! a = Some va → σ !! b = Some vb → int_vector va →
  plus_minus a b σ = Ok va σ.
Proof.
  intros Ha Hb (Hx & Hy & Hz).
  rewrite (run_plus_minus σ a b va vb Ha Hb). f_equal.
  destruct va as [ax ay az]. cbn [x y z tadd tsub int_Scalar] in *.
  unfold Int32.add, Int32.sub.
  assert (∀ p q, int_range p → Int32.wrap (Int32.wrap (p + q) - q) = p) as H.
  { intros p q Hp. rewrite <- (wrap_id p Hp) at 2. apply wrap_proper.
    rewrite wrap_eqm32. unfold eqm32. f_equal. ring. }
  by rewrite !H.
Qed.

Lemma plus_minus_round_trip_example :
  plus_minus (T:=c_int) 1 2
    (two_objects (vec_of_ints 2147483647 (-5) 0) (vec_of_ints 1 7 (-2147483648)))
  = Ok (vec_of_ints 2147483647 (-5) 0)
       (two_objects (vec_of_ints 2147483647 (-5) 0) (vec_of_ints 1 7 (-2147483648))).
Proof.
  apply (plus_minus_round_trip
           (two_objects (vec_of_ints 2147483647 (-5) 0)
                        (vec_of_ints 1 7 (-2147483648)))
           1%positive 2%positive _ (vec_of_ints 1 7 (-2147483648)));
    [reflexivity|reflexivity|].
  unfold int_vector, int_range. vm_compute. intuition discriminate.
Defined.

(** In [double] it does not: [(1 + 2^60) - 2^60] is [0]. *)
Lemma plus_minus_double_example :
  plus_minus (T:=c_double) 1 2
    (two_objects (mkVec3 1 1 1)%float (mkVec3 0x1p60 0 0)%float)
  = Ok (mkVec3 0 1 1)%float
       (two_objects (mkVec3 1 1 1)%float (mkVec3 0x1p60 0 0)%float).
Proof. vm_compute. reflexivity. Qed.

(** *** [(v * -1).magnitude()] *)

Lemma int_negated_square (c : c_int) :
  (c * of_int (-1) * (c * of_int (-1)))%S = (c * c)%S.
Proof.
  cbn [tmul of_int int_Scalar]. unfold Int32.mul. apply wrap_proper.
  rewrite !wrap_eqm32. unfold eqm32. f_equal. ring.
Qed.

Lemma SFmul_opp_opp prec emax a :
  SFmul prec emax (SFopp a) (SFopp a) = SFmul prec emax a a.
Proof. by destruct a as [[]|[]| |[] m e]. Qed.

Lemma float_negated_square (c : c_float) :
  Binary32.valid c → (c * of_int (-1) * (c * of_int (-1)))%S = (c * c)%S.
Proof.
  unfold Binary32.valid. intros Hc. cbn [tmul of_int float_Scalar].
  change (Binary32.of_Z (-1))
    with (S754_finite true (Pos.iter xO 1%positive 23) (Z.opp (Z.pos 23))).
  unfold Binary32.mul.
  rewrite (SFmul_minus_one Binary32.prec Binary32.emax 23 c eq_refl Hc).
  apply SFmul_opp_opp.
Qed.

Lemma double_negated_square (c : c_double) :
  (c * of_int (-1) * (c * of_int (-1)))%S = (c * c)%S.
Proof.
  apply Prim2SF_inj. cbn [tmul of_int double_Scalar].
  rewrite !mul_spec.
  change (Prim2SF (Binary64.of_Z (-1)))
    with (S754_finite true (Pos.iter xO 1%positive 52) (Z.opp (Z.pos 52))).
  unfold SF64mul.
  rewrite (SFmul_minus_one prec emax 52 (Prim2SF c) eq_refl (Prim2SF_valid c)).
  apply SFmul_opp_opp.
Qed.

(** X7: Negating a vector changes neither its squared magnitude nor its
    magnitude, to the last bit: in [int] (also under wrap-around), in
    [float], in [double] and over the reals. *)
Theorem magnitude_of_negated :
  negation_invariant (T:=c_int) (λ _, True) ∧
  negation_invariant (T:=c_float) float_vector ∧
  negation_invariant (T:=c_double) (λ _, True) ∧
  negation_invariant (T:=R) (λ _, True).
Proof.
  split; [|split; [|split]]; intros σ l v Hl Hok;
    destruct (run_negated σ l v Hl) as [-> ->];
    rewrite (run_Vec3_sqrMagnitude σ l v Hl), (run_Vec3_magnitude σ l v Hl);
    cbn [x y z].
  - by rewrite !int_negated_square.
  - destruct Hok as (Hx & Hy & Hz). by rewrite !float_negated_square.
  - by rewrite !double_negated_square.
  - cbn [tadd tmul tsqrt of_int real_Scalar].
    replace (x v * -1 * (x v * -1) + y v * -1 * (y v * -1)
             + z v * -1 * (z v * -1))%R
      with (x v * x v + y v * y v + z v * z v)%R by ring.
    done.
Qed.

Section RunNormalize.
Context {T : Type} `{!Scalar T}.
Local Open Scope scalar_scope.

Lemma run_normalize_nonpositive (σ : store (Vec3 T)) l v :
  σ !! l = Some v →
  tgt (tsqrt (x v * x v + y v * y v + z v * z v)) (of_int 0) = false →
  Vec3_normalize l σ = Ok l σ ∧ normalize l σ = Ok tt σ.
Proof.
  intros Hl Hlen.
  rewrite Vec3_normalize_unfold, normalize_unfold, !run_bind.
  rewrite (run_Vec3_magnitude _ _ _ Hl), (run_magnitude _ _ _ Hl).
  rewrite run_bind, (run_normalize_body _ _ _ _ Hl), Hlen. done.
Qed.

(** When [1 / len] is a neutral element of the multiplication on the
    components, [normalize] stores what was there. *)
Lemma run_normalize_neutral (σ : store (Vec3 T)) l v lenInv :
  σ !! l = Some v →
  tgt (tsqrt (x v * x v + y v * y v + z v * z v)) (of_int 0) = true →
  tdiv (of_int 1) (tsqrt (x v * x v + y v * y v + z v * z v)) = Some lenInv →
  x v * lenInv = x v → y v * lenInv = y v → z v * lenInv = z v →
  Vec3_normalize l σ = Ok l σ ∧ normalize l σ = Ok tt σ.
Proof.
  intros Hl Hlen Hdiv Hx Hy Hz.
  destruct (run_normalize_positive σ l v lenInv Hl Hlen Hdiv) as [-> ->].
  rewrite Hx, Hy, Hz. destruct v as [vx vy vz]. cbn [x y z].
  by rewrite (insert_id σ l _ Hl).
Qed.
End RunNormalize.

Lemma Ok_inj {V A} (a b : A) (σ σ' : store V) :
  Ok a σ = Ok b σ' → a = b ∧ σ = σ'.
Proof. by intros [= -> ->]. Qed.

(** *** [normalize] on [Vec3i] *)

Lemma int_reciprocal (len : c_int) :
  tgt len (of_int 0) = true →
  tdiv (of_int 1) len = Some (if (len =? 1)%Z then 1%Z else 0%Z).
Proof.
  cbn [tgt tdiv of_int int_Scalar]. unfold Int32.gt, Int32.div.
  change (Int32.wrap 0) with 0%Z. change (Int32.wrap 1) with 1%Z.
  intros Hlen%Z.ltb_lt.
  destruct (len =? 0)%Z eqn:H0; [apply Z.eqb_eq in H0; lia|].
  change (1 =? Int32.min_int)%Z with false. cbn [andb]. f_equal.
  destruct (len =? 1)%Z eqn:H1.
  - apply Z.eqb_eq in H1 as ->. done.
  - apply Z.eqb_neq in H1. apply Z.quot_small. lia.
Qed.

Lemma run_normalize_int (σ : store (Vec3 c_int)) l v len :
  σ !! l = Some v → int_vector v →
  tsqrt (x v * x v + y v * y v + z v * z v)%S = len →
  Vec3_normalize l σ = Ok l (<[l := int_normalized len v]> σ) ∧
  normalize l σ = Ok tt (<[l := int_normalized len v]> σ).
Proof.
  intros Hl (Hx & Hy & Hz) Hlen.
  pose proof (run_normalize_nonpositive σ l v Hl) as Hnonpositive.
  pose proof (run_normalize_positive σ l v 0%Z Hl) as Hpositive.
  pose proof (run_normalize_neutral σ l v 1%Z Hl) as Hneutral.
  rewrite Hlen in Hnonpositive, Hpositive, Hneutral. clear Hlen.
  pose proof (int_reciprocal len) as Hdiv.
  assert (x v * 1%Z = x v ∧ y v * 1%Z = y v ∧ z v * 1%Z = z v)%S
    as (H1x & H1y & H1z).
  { cbn [tmul int_Scalar]. unfold Int32.mul. rewrite !Z.mul_1_r.
    by rewrite !wrap_id. }
  assert (mkVec3 (x v * 0%Z)%S (y v * 0%Z)%S (z v * 0%Z)%S = Vec3_ctor0) as H0.
  { cbn [tmul int_Scalar]. unfold Int32.mul. by rewrite !Z.mul_0_r. }
  rewrite H0 in Hpositive.
  assert (tgt len (of_int 0) = (0 <? len)%Z) as Hgt by reflexivity.
  rewrite Hgt in *. unfold int_normalized.
  destruct (0 <? len)%Z eqn:Hpos.
  - apply Z.ltb_lt in Hpos. specialize (Hdiv eq_refl).
    destruct (len =? 1)%Z eqn:Hone.
    + apply Z.eqb_eq in Hone.
      destruct (2 <=? len)%Z eqn:H2; [apply Z.leb_le in H2; lia|].
      rewrite (insert_id σ l v Hl). by apply Hneutral.
    + apply Z.eqb_neq in Hone.
      destruct (2 <=? len)%Z eqn:H2; [|apply Z.leb_gt in H2; lia].
      by apply Hpositive.
  - apply Z.ltb_ge in Hpos.
    destruct (2 <=? len)%Z eqn:H2; [apply Z.leb_le in H2; lia|].
    rewrite (insert_id σ l v Hl). by apply Hnonpositive.
Qed.

(** X9: On a [Vec3i], [normalize] never produces anything but the vector it
    was given or the zero vector: the reciprocal [1 / len] is [1] when the
    magnitude is [1] and [0] from [2] on, so a vector of magnitude at most
    [1] is left unchanged and every longer one becomes [(0, 0, 0)]. *)
Theorem normalize_int (σ : store (Vec3 c_int)) l v len :
  σ !! l = Some v → int_vector v → Vec3_magnitude l σ = Ok len σ →
  ((len ≤ 1)%Z →
     Vec3_normalize l σ = Ok l σ ∧ normalize l σ = Ok tt σ) ∧
  ((2 ≤ len)%Z →
     Vec3_normalize l σ = Ok l (<[l := Vec3_ctor0]> σ) ∧
     normalize l σ = Ok tt (<[l := Vec3_ctor0]> σ)).
Proof.
  intros Hl Hv Hmag. rewrite (run_Vec3_magnitude σ l v Hl) in Hmag.
  apply Ok_inj in Hmag as [Hlen _].
  destruct (run_normalize_int σ l v len Hl Hv Hlen) as [Hm Hf].
  unfold int_normalized in Hm, Hf. split; intros Hcase.
  - destruct (2 <=? len)%Z eqn:H2; [apply Z.leb_le in H2; lia|].
    by rewrite (insert_id σ l v Hl) in Hm, Hf.
  - destruct (2 <=? len)%Z eqn:H2; [done|apply Z.leb_gt in H2; lia].
Qed.

Lemma int_magnitude_zero :
  tsqrt (x (Vec3_ctor0 (T:=c_int)) * x Vec3_ctor0 + y Vec3_ctor0 * y Vec3_ctor0
         + z Vec3_ctor0 * z Vec3_ctor0)%S = 0%Z.
Proof. vm_compute. reflexivity. Qed.

Lemma int_vector_zero : int_vector Vec3_ctor0.
Proof. by vm_compute. Qed.

Lemma normalize_int_zero (σ : store (Vec3 c_int)) l :
  Vec3_normalize l (<[l := Vec3_ctor0]> σ) = Ok l (<[l := Vec3_ctor0]> σ).
Proof.
  destruct (run_normalize_int (<[l := Vec3_ctor0]> σ) l Vec3_ctor0 0%Z
              (lookup_insert_eq _ _ _) int_vector_zero int_magnitude_zero)
    as [Hm _].
  rewrite Hm, insert_insert_eq. reflexivity.
Qed.

Lemma normalize_twice_int (σ : store (Vec3 c_int)) l v len :
  σ !! l = Some v →
  Vec3_normalize l σ = Ok l (<[l := int_normalized len v]> σ) →
  normalize_twice l σ = Vec3_normalize l σ.
Proof.
  intros Hl Hm. unfold normalize_twice. rewrite run_bind.
  unfold int_normalized in Hm. destruct (2 <=? len)%Z.
  - rewrite Hm. cbn beta iota. apply normalize_int_zero.
  - rewrite (insert_id σ l v Hl) in Hm. rewrite Hm. cbn beta iota. exact Hm.
Qed.

(** X10: On a [Vec3i], normalising twice is normalising once:
    [v.normalize().normalize()] leaves what [v.normalize()] leaves. *)
Theorem normalize_int_idempotent (σ : store (Vec3 c_int)) l v :
  σ !! l = Some v → int_vector v →
  normalize_twice l σ = Vec3_normalize l σ.
Proof.
  intros Hl Hv.
  destruct (run_normalize_int σ l v _ Hl Hv eq_refl) as [Hm _].
  exact (normalize_twice_int σ l v _ Hl Hm).
Qed.

Lemma int_vector_of_ints (a b c : Z) :
  int_range a → int_range b → int_range c →
  int_vector (vec_of_ints a b c).
Proof.
  intros Ha Hb Hc. unfold int_vector, vec_of_ints, Vec3_ctor3.
  cbn [x y z of_int int_Scalar]. by rewrite !wrap_id.
Qed.

Lemma int_range_small (n : Z) : (-2147483648 ≤ n ≤ 2147483647)%Z → int_range n.
Proof. done. Qed.

(** [normalize] on the [int] vectors [(1, 0, 0)], of magnitude [1], and
    [(3, 4, 0)], of magnitude [5]. *)
Lemma normalize_int_examples :
  (Vec3_normalize (T:=c_int) 1 (one_object (vec_of_ints 1 0 0)) =
     Ok 1%positive (one_object (vec_of_ints 1 0 0)) ∧
   normalize (T:=c_int) 1 (one_object (vec_of_ints 1 0 0)) =
     Ok tt (one_object (vec_of_ints 1 0 0))) ∧
  (Vec3_normalize (T:=c_int) 1 (one_object (vec_of_ints 3 4 0)) =
     Ok 1%positive (<[1%positive := Vec3_ctor0]> (one_object (vec_of_ints 3 4 0))) ∧
   normalize (T:=c_int) 1 (one_object (vec_of_ints 3 4 0)) =
     Ok tt (<[1%positive := Vec3_ctor0]> (one_object (vec_of_ints 3 4 0)))).
Proof.
  split.
  - refine (proj1 (normalize_int (one_object (vec_of_ints 1 0 0)) 1%positive
                    (vec_of_ints 1 0 0) 1%Z eq_refl _ _) _).
    + apply int_vector_of_ints; apply int_range_small; lia.
    + vm_compute. reflexivity.
    + lia.
  - refine (proj2 (normalize_int (one_object (vec_of_ints 3 4 0)) 1%positive
                    (vec_of_ints 3 4 0) 5%Z eq_refl _ _) _).
    + apply int_vector_of_ints; apply int_range_small; lia.
    + vm_compute. reflexivity.
    + lia.
Defined.

Lemma normalize_int_idempotent_example :
  normalize_twice (T:=c_int) 1 (one_object (vec_of_ints 3 4 0)) =
  Vec3_normalize (T:=c_int) 1 (one_object (vec_of_ints 3 4 0)).
Proof.
  apply (normalize_int_idempotent (one_object (vec_of_ints 3 4 0)) 1%positive
           (vec_of_ints 3 4 0) eq_refl).
  apply int_vector_of_ints; apply int_range_small; lia.
Defined.

(** *** A NaN component *)

Lemma SFadd_nan_r prec emax a : SFadd prec emax a S754_nan = S754_nan.
Proof. by destruct a. Qed.

Lemma sf_magnitude_nan prec emax a b c :
  SF_some_nan a b c → sf_magnitude prec emax a b c = S754_nan.
Proof.
  unfold sf_magnitude, sf_sqr_sum. intros [-> | [-> | ->]]; cbn [SFmul].
  - done.
  - by rewrite SFadd_nan_r.
  - by rewrite SFadd_nan_r.
Qed.

(** X11: A vector with a NaN component is left as it is, in [float] and in
    [double]: its magnitude is computed as NaN, and [NaN > 0] is false. *)
Theorem normalize_keeps_nan :
  normalize_keeps (T:=c_float) (λ v, SF_some_nan (x v) (y v) (z v)) ∧
  normalize_keeps (T:=c_double)
    (λ v, SF_some_nan (Prim2SF (x v)) (Prim2SF (y v)) (Prim2SF (z v))).
Proof.
  split; intros σ l v Hl Hnan; apply (run_normalize_nonpositive σ l v Hl).
  - change (SFltb (S754_zero false)
              (sf_magnitude 24 128 (x v) (y v) (z v)) = false).
    by rewrite (sf_magnitude_nan _ _ _ _ _ Hnan).
  - change (PrimFloat.ltb 0
              (PrimFloat.sqrt (x v * x v + y v * y v + z v * z v)%float)
            = false).
    by rewrite ltb_spec, Prim2SF_magnitude, (sf_magnitude_nan _ _ _ _ _ Hnan).
Qed.

(** *** A magnitude of exactly one *)

Lemma SFmul_one prec emax p a :
  (prec - 1)%Z = Z.pos p →
  SpecFloat.valid_binary prec emax a = true →
  SFmul prec emax a (S754_finite false (Pos.iter xO 1%positive p) (- Z.pos p)) = a.
Proof.
  intros Hp Hvalid.
  pose proof (SFmul_minus_one prec emax p a Hp Hvalid) as Hminus.
  destruct a as [s|s| |s m e]; cbn [SFmul SFopp] in *.
  - by rewrite xorb_false_r.
  - by rewrite xorb_false_r.
  - done.
  - apply (f_equal SFopp) in Hminus.
    rewrite SFopp_binary_round_aux in Hminus. cbn [SFopp] in Hminus.
    rewrite xorb_true_r, !negb_involutive in Hminus.
    by rewrite xorb_false_r.
Qed.

Lemma float_mul_one (c : c_float) :
  Binary32.valid c → (c * of_int 1)%S = c.
Proof.
  intros Hc. cbn [tmul of_int float_Scalar].
  change (Binary32.of_Z 1)
    with (S754_finite false (Pos.iter xO 1%positive 23) (Z.opp (Z.pos 23))).
  by apply (SFmul_one Binary32.prec Binary32.emax 23 c).
Qed.

Lemma double_mul_one (c : c_double) : (c * of_int 1)%S = c.
Proof.
  apply Prim2SF_inj. cbn [tmul of_int double_Scalar]. rewrite mul_spec.
  change (Prim2SF (Binary64.of_Z 1))
    with (S754_finite false (Pos.iter xO 1%positive 52) (Z.opp (Z.pos 52))).
  apply (SFmul_one prec emax 52); [done|apply Prim2SF_valid].
Qed.

(** X12: A vector whose magnitude is computed as exactly [1] is left as it is,
    to the last bit, in [int], [float] and [double]: [1 / 1] is [1] and
    multiplying by [1] is exact. *)
Theorem normalize_keeps_unit :
  normalize_keeps (T:=c_int) (λ v, int_vector v ∧ magnitude_is 1%Z v) ∧
  normalize_keeps (T:=c_float) (λ v, float_vector v ∧ magnitude_is (of_int 1) v) ∧
  normalize_keeps (T:=c_double) (magnitude_is (of_int 1)).
Proof.
  split; [|split]; intros σ l v Hl Hok.
  - destruct Hok as [Hv Hlen]. 
    destruct (run_normalize_int σ l v 1%Z Hl Hv Hlen) as [Hm Hf].
    change (int_normalized 1%Z v) with v in Hm, Hf.
    by rewrite (insert_id σ l v Hl) in Hm, Hf.
  - destruct Hok as [(Hx & Hy & Hz) Hlen]. unfold magnitude_is in Hlen.
    apply (run_normalize_neutral σ l v (of_int 1) Hl);
      rewrite ?Hlen; [by vm_compute|by vm_compute|by apply float_mul_one..].
  - unfold magnitude_is in Hok.
    apply (run_normalize_neutral σ l v (of_int 1) Hl);
      rewrite ?Hok; [by vm_compute|by vm_compute|apply double_mul_one..].
Qed.

(** *** An infinite magnitude *)

Lemma SFmul_zero prec emax a :
  SFmul prec emax a (S754_zero false) = SF_times_zero a.
Proof. destruct a as [s|s| |s m e]; cbn; by rewrite ?xorb_false_r. Qed.

Lemma run_normalize_infinite_float (σ : store (Vec3 c_float)) l v :
  σ !! l = Some v → magnitude_is (T:=c_float) (S754_infinity false) v →
  Vec3_normalize l σ = Ok l (<[l := SF_vector_times_zero v]> σ) ∧
  normalize l σ = Ok tt (<[l := SF_vector_times_zero v]> σ).
Proof.
  intros Hl Hlen. unfold magnitude_is in Hlen.
  pose proof (run_normalize_positive σ l v (S754_zero false) Hl) as Hrun.
  rewrite Hlen in Hrun.
  destruct (Hrun ltac:(by vm_compute) ltac:(by vm_compute)) as [-> ->].
  cbn [tmul float_Scalar]. unfold Binary32.mul.
  by rewrite !SFmul_zero.
Qed.

Lemma run_normalize_infinite_double (σ : store (Vec3 c_double)) l v :
  σ !! l = Some v → magnitude_is (T:=c_double) infinity v →
  ∃ v', Vec3_normalize l σ = Ok l (<[l := v']> σ) ∧
        normalize l σ = Ok tt (<[l := v']> σ) ∧
        Prim2SF_vector v' = SF_vector_times_zero (Prim2SF_vector v).
Proof.
  intros Hl Hlen. unfold magnitude_is in Hlen.
  pose proof (run_normalize_positive σ l v 0%float Hl) as Hrun.
  rewrite Hlen in Hrun.
  destruct (Hrun ltac:(by vm_compute) ltac:(by vm_compute)) as [-> ->].
  eexists. split; [done|]. split; [done|].
  unfold Prim2SF_vector, SF_vector_times_zero. cbn [x y z tmul double_Scalar].
  rewrite !mul_spec. change (Prim2SF 0) with (S754_zero false).
  unfold SF64mul. by rewrite !SFmul_zero.
Qed.

(** X13: When the magnitude is computed as [+infinity], because a component is
    infinite or because the sum of the squares overflows, [1 / len] is
    [+0]: [normalize] replaces every finite component by a zero of its sign
    and every infinite component by NaN. *)
Theorem normalize_infinite_magnitude :
  (∀ (σ : store (Vec3 c_float)) l v,
     σ !! l = Some v → magnitude_is (T:=c_float) (S754_infinity false) v →
     Vec3_normalize l σ = Ok l (<[l := SF_vector_times_zero v]> σ) ∧
     normalize l σ = Ok tt (<[l := SF_vector_times_zero v]> σ)) ∧
  (∀ (σ : store (Vec3 c_double)) l v,
     σ !! l = Some v → magnitude_is (T:=c_double) infinity v →
     ∃ v', Vec3_normalize l σ = Ok l (<[l := v']> σ) ∧
           normalize l σ = Ok tt (<[l := v']> σ) ∧
           Prim2SF_vector v' = SF_vector_times_zero (Prim2SF_vector v)).
Proof.
  split; [exact run_normalize_infinite_float|exact run_normalize_infinite_double].
Qed.

Lemma normalize_infinite_magnitude_examples :
  (Vec3_normalize (T:=c_float) 1
     (one_object (mkVec3 (S754_infinity true) (S754_finite true 8388608 (-23))
                         (S754_zero false))) =
   Ok 1%positive
     (<[1%positive := mkVec3 S754_nan (S754_zero true) (S754_zero false)]>
        (one_object (mkVec3 (S754_infinity true)
                       (S754_finite true 8388608 (-23)) (S754_zero false))))) ∧
  (∃ v', Vec3_normalize (T:=c_double) 1 (one_object (mkVec3 0x1p600 (-1) 0)%float) =
           Ok 1%positive (<[1%positive := v']> (one_object (mkVec3 0x1p600 (-1) 0)%float)) ∧
         Prim2SF_vector v' =
           mkVec3 (S754_zero false) (S754_zero true) (S754_zero false)).
Proof.
  split.
  - exact (proj1 (proj1 normalize_infinite_magnitude
             (one_object (mkVec3 (S754_infinity true)
                            (S754_finite true 8388608 (-23)) (S754_zero false)))
             1%positive _ eq_refl eq_refl)).
  - destruct (proj2 normalize_infinite_magnitude
                (one_object (mkVec3 0x1p600 (-1) 0)%float) 1%positive _
                eq_refl eq_refl) as (v' & Hm & _ & Hv').
    exists v'. split; [exact Hm|exact Hv'].
Defined.

Section Signs.
Variables prec emax : Z.
Local Open Scope Z_scope.

Lemma shr_fexp_nonneg m e l :
  0 ≤ m → 0 ≤ shr_m (shr_fexp prec emax m e l).1.
Proof.
  intros Hm. unfold shr_fexp, shr.
  destruct (fexp prec emax (Zdigits2 m + e) - e) as [|p|p];
    cbn [fst]; rewrite ?shr_m_record_of_loc; try done.
  rewrite iter_shr_1_m by (by rewrite shr_m_record_of_loc).
  rewrite shr_m_record_of_loc. apply Z.div_pos; lia.
Qed.

(** Rounding a non-negative mantissa with the sign [+] gives [+0], a
    positive number or [+infinity]. *)
Lemma binary_round_aux_nonneg m e l :
  0 ≤ m → SF_nonneg (binary_round_aux prec emax false m e l).
Proof.
  intros Hm. unfold binary_round_aux.
  pose proof (shr_fexp_nonneg m e l Hm) as H1.
  destruct (shr_fexp prec emax m e l) as [mrs' e']. cbn [fst] in H1.
  pose proof (round_nearest_even_cases (shr_m mrs') (loc_of_shr_record mrs'))
    as Hrne.
  pose proof (shr_fexp_nonneg (round_nearest_even (shr_m mrs')
                                 (loc_of_shr_record mrs')) e' loc_Exact
                ltac:(lia)) as H2.
  destruct (shr_fexp prec emax _ e' loc_Exact) as [mrs'' e''].
  cbn [fst] in H2. destruct (shr_m mrs'') as [|m2|m2]; [done| |lia].
  by destruct (e'' <=? emax - prec).
Qed.

Lemma SFmul_square_nonneg a :
  a ≠ S754_nan → SF_nonneg (SFmul prec emax a a).
Proof.
  destruct a as [s|s| |s m e]; cbn [SFmul SF_nonneg]; intros Ha;
    [by destruct s|by destruct s|done|].
  rewrite xorb_nilpotent. by apply binary_round_aux_nonneg.
Qed.

Lemma SFmul_square_infinity s :
  SFmul prec emax (S754_infinity s) (S754_infinity s) = S754_infinity false.
Proof. by destruct s. Qed.

Lemma SFadd_nonneg a b :
  SF_nonneg a → SF_nonneg b → SF_nonneg (SFadd prec emax a b).
Proof.
  destruct a as [sa|sa| |sa ma ea], b as [sb|sb| |sb mb eb];
    cbn [SF_nonneg]; intros Ha Hb; try done; subst; try done.
  cbn [SFadd cond_Zopp]. rewrite <- Pos2Z.inj_add. cbn [binary_normalize].
  unfold binary_round. destruct (shl_align _ _ _) as [mz ez].
  by apply binary_round_aux_nonneg.
Qed.

Lemma SFadd_infinity a b :
  SF_nonneg a → SF_nonneg b →
  a = S754_infinity false ∨ b = S754_infinity false →
  SFadd prec emax a b = S754_infinity false.
Proof.
  destruct a as [sa|sa| |sa ma ea], b as [sb|sb| |sb mb eb];
    cbn [SF_nonneg]; intros Ha Hb [?|?]; try done; by subst.
Qed.

(** An infinite component and no NaN: the magnitude is [+infinity]. *)
Lemma sf_magnitude_infinity a b c :
  ¬ SF_some_nan a b c → SF_some_infinity a b c →
  sf_magnitude prec emax a b c = S754_infinity false.
Proof.
  intros Hnan Hinf. unfold SF_some_nan in Hnan.
  assert (a ≠ S754_nan ∧ b ≠ S754_nan ∧ c ≠ S754_nan) as (Ha & Hb & Hc)
    by (repeat split; intros ->; tauto).
  pose proof (SFmul_square_nonneg a Ha) as Hp.
  pose proof (SFmul_square_nonneg b Hb) as Hq.
  pose proof (SFmul_square_nonneg c Hc) as Hr.
  pose proof (SFadd_nonneg _ _ Hp Hq) as Hpq.
  unfold sf_magnitude, sf_sqr_sum.
  assert (SFadd prec emax
            (SFadd prec emax (SFmul prec emax a a) (SFmul prec emax b b))
            (SFmul prec emax c c) = S754_infinity false) as ->; [|done].
  destruct Hinf as [[s ->]|[[s ->]|[s ->]]].
  - apply SFadd_infinity; [done..|]. left.
    apply SFadd_infinity; [done..|]. left. apply SFmul_square_infinity.
  - apply SFadd_infinity; [done..|]. left.
    apply SFadd_infinity; [done..|]. right. apply SFmul_square_infinity.
  - apply SFadd_infinity; [done..|]. right. apply SFmul_square_infinity.
Qed.
End Signs.

(** X14: A vector with an infinite component and no NaN: its magnitude is
    computed as [+infinity], and [normalize] turns every infinite component
    into NaN and every finite one into a zero of its sign, in [float] and in
    [double]. *)
Theorem normalize_infinite_component :
  (∀ (σ : store (Vec3 c_float)) l v,
     σ !! l = Some v →
     ¬ SF_some_nan (x v) (y v) (z v) → SF_some_infinity (x v) (y v) (z v) →
     Vec3_normalize l σ = Ok l (<[l := SF_vector_times_zero v]> σ) ∧
     normalize l σ = Ok tt (<[l := SF_vector_times_zero v]> σ)) ∧
  (∀ (σ : store (Vec3 c_double)) l v,
     σ !! l = Some v →
     ¬ SF_some_nan (Prim2SF (x v)) (Prim2SF (y v)) (Prim2SF (z v)) →
     SF_some_infinity (Prim2SF (x v)) (Prim2SF (y v)) (Prim2SF (z v)) →
     ∃ v', Vec3_normalize l σ = Ok l (<[l := v']> σ) ∧
           normalize l σ = Ok tt (<[l := v']> σ) ∧
           Prim2SF_vector v' = SF_vector_times_zero (Prim2SF_vector v)).
Proof.
  split; intros σ l v Hl Hnan Hinf.
  - apply (run_normalize_infinite_float σ l v Hl).
    exact (sf_magnitude_infinity 24 128 _ _ _ Hnan Hinf).
  - apply (run_normalize_infinite_double σ l v Hl).
    unfold magnitude_is. apply Prim2SF_inj.
    cbn [tsqrt tadd tmul double_Scalar]. rewrite Prim2SF_magnitude.
    exact (sf_magnitude_infinity 53 1024 _ _ _ Hnan Hinf).
Qed.

Lemma normalize_infinite_component_example :
  Vec3_normalize (T:=c_float) 1
    (one_object (mkVec3 (S754_infinity true) (S754_finite true 8388608 (-23))
                        (S754_zero false))) =
  Ok 1%positive
    (<[1%positive := mkVec3 S754_nan (S754_zero true) (S754_zero false)]>
       (one_object (mkVec3 (S754_infinity true)
                      (S754_finite true 8388608 (-23)) (S754_zero false)))).
Proof.
  refine (proj1 (proj1 normalize_infinite_component
            (one_object (mkVec3 (S754_infinity true)
                           (S754_finite true 8388608 (-23)) (S754_zero false)))
            1%positive _ eq_refl _ _)).
  - unfold SF_some_nan. cbn [x y z]. intros [?|[?|?]]; discriminate.
  - left. by eexists.
Defined.

Section ComponentAccuracy.
Local Open Scope R_scope.

Lemma SF2R_sign a :
  SF2R a = if SFsign a then - SFabsR a else SFabsR a.
Proof. destruct a as [[]|[]| |[] m e]; cbn [SF2R SFsign SFabsR]; lra. Qed.

Lemma SF2R_square a : SF2R a * SF2R a = SFabsR a * SFabsR a.
Proof. rewrite SF2R_sign. destruct (SFsign a); lra. Qed.

(** From a bound on the absolute value and the sign to a bound on the
    value. *)
Lemma SF_approximates_intro rel abs a c (W : R) :
  0 <= W → 0 <= rel →
  SFfinite a → SFsign a = SFsign c →
  (1 - rel) * (SFabsR c * W) - abs <= SFabsR a
    <= (1 + rel) * (SFabsR c * W) + abs →
  SF_approximates rel abs a (SF2R c * W).
Proof.
  intros HW Hrel Hfin Hsign [Hlo Hhi]. split; [done|].
  pose proof (SFabsR_nonneg c) as Hc. pose proof (SFabsR_nonneg a) as Ha.
  rewrite (SF2R_sign a), (SF2R_sign c), Hsign.
  assert (0 <= SFabsR c * W) as Ht by (by apply Rmult_le_pos).
  set (t := SFabsR c * W) in *. set (A := SFabsR a) in *.
  destruct (SFsign c).
  - replace (- A - - SFabsR c * W) with (- (A - t)) by (unfold t; ring).
    replace (- SFabsR c * W) with (- t) by (unfold t; ring).
    rewrite !Rabs_Ropp, (Rabs_pos_eq t Ht).
    apply Rabs_le. lra.
  - fold t. rewrite (Rabs_pos_eq t Ht). apply Rabs_le. lra.
Qed.

Section Components.
Variables prec emax : Z.
Hypothesis Hprec : (24 ≤ prec)%Z.
Hypothesis Hemax : (prec < emax)%Z.
Variable B : Z.
Hypothesis HB0 : (0 ≤ B)%Z.
Hypothesis HBmax : (2 * B + 6 ≤ emax)%Z.
Hypothesis HBmin : (SpecFloat.emin prec emax + 2 * B + 30 ≤ 0)%Z.
Hypothesis HBdiv : (SpecFloat.emin prec emax + prec + B + 3 ≤ 0)%Z.
Variable m1 : positive.
Variable e1 : Z.
Hypothesis Hone_bounded : bounded prec emax m1 e1 = true.
Hypothesis Hone_value : F2R (Z.pos m1) e1 = 1.

Local Abbreviation emin' := (SpecFloat.emin prec emax).
Local Abbreviation valid := (SpecFloat.valid_binary prec emax).
Local Abbreviation eta := (bpow emin').
Local Abbreviation Omega := (bpow (emax - 1)).
Local Abbreviation one := (S754_finite false m1 e1).

(** The magnitude and the reciprocal that [normalize] computes, for
    components between [2^-B] and [2^B]: with [R] the exact magnitude, the
    computed one is [R] up to [7 * eps32] and its reciprocal multiplies
    every component [c] not above [R] into [c / R] up to [12 * eps32] and
    the smallest positive number, keeping its sign. *)
Lemma sf_normalize_accuracy x y z :
  valid x = true → valid y = true → valid z = true →
  SFfinite x → SFfinite y → SFfinite z →
  SFabsR x <= bpow B → SFabsR y <= bpow B → SFabsR z <= bpow B →
  bpow (- B) <= SFabsR x ∨ bpow (- B) <= SFabsR y ∨ bpow (- B) <= SFabsR z →
  let R := R_sqrt.sqrt (SFabsR x * SFabsR x + SFabsR y * SFabsR y
                        + SFabsR z * SFabsR z) in
  ∃ ml el,
    sf_magnitude prec emax x y z = S754_finite false ml el ∧
    (1 - 7 * eps32) * R <= F2R (Z.pos ml) el <= (1 + 7 * eps32) * R ∧
    0 < R ∧
    ∀ c, valid c = true → SFfinite c → SFabsR c <= R →
      let c' := SFmul prec emax c
                  (SFdiv prec emax one (sf_magnitude prec emax x y z)) in
      SFfinite c' ∧ SFsign c' = SFsign c ∧
      (1 - 12 * eps32) * (SFabsR c * / R) - eta <= SFabsR c'
        <= (1 + 12 * eps32) * (SFabsR c * / R) + eta.
Proof.
  intros Hvx Hvy Hvz Hfx Hfy Hfz HxU HyU HzU Hu R0.
  unfold R0. clear R0.
  pose proof (SFabsR_nonneg x) as HX. pose proof (SFabsR_nonneg y) as HY.
  pose proof (SFabsR_nonneg z) as HZ. pose proof (bpow_pos emin') as Heta0.
  set (X := SFabsR x) in *. set (Y := SFabsR y) in *. set (Z := SFabsR z) in *.
  (* the constants *)
  assert (bpow (- B) * bpow B = 1) as HuU
    by (rewrite <- bpow_add, <- bpow_0; f_equal; lia).
  pose proof (bpow_pos (- B)) as Hu0. pose proof (bpow_ge_1 B HB0) as HU1.
  assert (128 * eta <= eps32 * (bpow (- B) * bpow (- B))) as Heta.
  { rewrite <- bpow_m23, <- !bpow_add.
    replace 128 with (bpow 7) by (rewrite bpow_IZR by lia; done).
    rewrite <- bpow_add. apply bpow_le. lia. }
  assert (16 * (bpow B * bpow B) <= Omega) as HOmega.
  { replace 16 with (bpow 4) by (rewrite bpow_IZR by lia; done).
    rewrite <- !bpow_add. apply bpow_le. lia. }
  assert (4 * bpow (emin' + prec + 1) <= bpow (- B)) as Homega.
  { replace 4 with (bpow 2) by (rewrite bpow_IZR by lia; done).
    rewrite <- bpow_add. apply bpow_le. lia. }
  set (u := bpow (- B)) in *. set (U := bpow B) in *.
  set (omega := bpow (emin' + prec + 1)) in *.
  assert (u <= 1) as Hu1 by (clear - HuU HU1 Hu0; nra).
  assert (u * u <= u) as Huu by (clear - Hu1 Hu0; nra).
  assert (128 * eta <= eps32) as Heta' by (clear - Heta Huu Hu1 Hu0; nra).
  assert (1 <= U * U) as HUU by (clear - HU1; nra).
  assert (U <= U * U) as HUUU by (clear - HU1; nra).
  assert (u = / U) as HuInv
    by (apply Rmult_eq_reg_l with U; [rewrite Rinv_r; lra|lra]).
  assert (U = / u) as HUInv
    by (apply Rmult_eq_reg_l with u; [rewrite Rinv_r; lra|lra]).
  (* the exact length and its reciprocal *)
  set (S := X * X + Y * Y + Z * Z).
  assert (u * u <= S) as HSlo
    by (unfold S; clear - Hu HX HY HZ Hu0; destruct Hu as [?|[?|?]]; nra).
  assert (S <= 3 * (U * U)) as HShi
    by (unfold S; clear - HxU HyU HzU HX HY HZ; nra).
  set (R := R_sqrt.sqrt S).
  assert (R * R = S) as HRR by (apply sqrt_sqrt; lra).
  assert (0 <= R) as HR0 by apply sqrt_pos.
  assert (u <= R) as HRlo by (apply sq_le; lra).
  assert (R <= 2 * U) as HRhi
    by (apply sq_le; [lra|lra|]; clear - HRR HShi HUU; nra).
  assert (0 < R) as HRpos by lra.
  set (W := / R).
  assert (W * R = 1) as HWR by (unfold W; field; lra).
  assert (0 < W) as HW0 by (apply Rinv_0_lt_compat; lra).
  assert (W <= U) as HWhi
    by (rewrite HUInv; apply Rinv_le_contravar; lra).
  assert (u <= 2 * W) as HWlo.
  { assert (/ (2 * U) <= W) as HW2 by (apply Rinv_le_contravar; lra).
    rewrite Rinv_mult, <- HuInv in HW2. lra. }
  (* the computed length *)
  destruct (sf_magnitude_error prec emax Hprec Hemax x y z (3 * (U * U)) R 0
              Hvx Hvy Hvz Hfx Hfy Hfz) as ((ml & el & Hlen) & Hvl & Hl).
  { fold X Y Z S. lra. }
  { lra. }
  { lra. }
  { lra. }
  { lra. }
  { fold X Y Z S. rewrite HRR. lra. }
  { rewrite HRR. lra. }
  { lra. }
  exists ml, el. split; [done|]. rewrite Hlen in Hl, Hvl |- *.
  cbn [SFabsR] in Hl |- *. split; [split; lra|].
  cbn [SpecFloat.valid_binary] in Hvl.
  set (L := F2R (Z.pos ml) el) in *.
  (* the reciprocal *)
  pose proof (inv_rel (1 - 7 * eps32) (1 + 7 * eps32) (1 - 8 * eps32) (1 + 8 * eps32) R L
                ltac:(lra) ltac:(lra) HRpos ltac:(lra)
                ltac:(lra) ltac:(lra) ltac:(lra)) as HinvL.
  fold W in HinvL.
  destruct (SFdiv_error prec emax (prec_ge_2 prec Hprec) Hemax false m1 e1 false ml el
              Hone_bounded Hvl) as (Hfi & Hsi & Hvi & Hi).
  { rewrite Hone_value. fold L omega. unfold Rdiv. lra. }
  { rewrite Hone_value. fold L. unfold Rdiv. lra. }
  rewrite Hone_value in Hi. fold L in Hi. unfold Rdiv in Hi.
  rewrite Rmult_1_l in Hi.
  apply (approx_apx prec emax Hprec) in Hi; [|lra]. unfold apx in Hi.
  cbv zeta.
  set (inv := SFdiv prec emax one (S754_finite false ml el)) in *.
  assert ((1 - 10 * eps32) * W <= SFabsR inv <= (1 + 10 * eps32) * W) as Hinv.
  { set (q := / L) in *. split; lra. }
  split; [done|]. clear Hl.
  intros c Hvc Hfc HcR. cbv zeta.
  pose proof (SFabsR_nonneg c) as HC.
  assert (SFabsR c * W <= 1) as HtC by (clear - HcR HC HW0 HWR; nra).
  assert (0 <= SFabsR c * W) as HtC0 by (clear - HC HW0; nra).
  assert (2 < Omega) as HOmega2 by lra.
  destruct (SFmul_error prec emax (prec_ge_2 prec Hprec) Hemax c inv
              Hvc Hvi Hfc Hfi) as (Hfc' & Hsc' & _ & _).
  { clear - HtC HtC0 HC Hinv HOmega2 HW0.
    set (C := SFabsR c) in *. set (I := SFabsR inv) in *.
    assert (C * I <= (1 + 10 * eps32) * (C * W)) by nra. lra. }
  destruct (sf_scale_error prec emax Hprec Hemax c inv W (SFabsR c * W)
              Hvc Hvi Hfc Hfi ltac:(lra) eq_refl ltac:(split; lra)
              HOmega2 Hinv) as (_ & _ & Hc').
  split; [done|]. split; [|done].
  rewrite Hsc'. cbn [SFsign] in Hsi. rewrite Hsi. apply xorb_false_r.
Qed.
End Components.
End ComponentAccuracy.

Section VectorAccuracy.
Local Open Scope R_scope.

Lemma exact_magnitude_abs (v : Vec3 spec_float) :
  exact_magnitude v =
  R_sqrt.sqrt (SFabsR (x v) * SFabsR (x v) + SFabsR (y v) * SFabsR (y v)
               + SFabsR (z v) * SFabsR (z v)).
Proof. unfold exact_magnitude. by rewrite !SF2R_square. Qed.

(** No component exceeds the magnitude. *)
Lemma component_le_magnitude (a b c : R) :
  0 <= a → a <= R_sqrt.sqrt (a * a + b * b + c * c) ∧
           a <= R_sqrt.sqrt (b * b + a * a + c * c) ∧
           a <= R_sqrt.sqrt (b * b + c * c + a * a).
Proof.
  intros Ha.
  assert (∀ s, a * a <= s → a <= R_sqrt.sqrt s) as H.
  { intros s Hs. apply sq_le; [done|apply sqrt_pos|].
    rewrite sqrt_sqrt; [done|nra]. }
  repeat split; apply H; nra.
Qed.

(** The analysis of [normalize] on the components of a vector. *)
Lemma sf_normalize_vector prec emax B m1 e1 (v : Vec3 spec_float) :
  (24 ≤ prec)%Z → (prec < emax)%Z → (0 ≤ B)%Z → (2 * B + 6 ≤ emax)%Z →
  (SpecFloat.emin prec emax + 2 * B + 30 ≤ 0)%Z →
  (SpecFloat.emin prec emax + prec + B + 3 ≤ 0)%Z →
  bounded prec emax m1 e1 = true → F2R (Z.pos m1) e1 = 1 →
  SpecFloat.valid_binary prec emax (x v) = true →
  SpecFloat.valid_binary prec emax (y v) = true →
  SpecFloat.valid_binary prec emax (z v) = true →
  sf_in_range B (x v) (y v) (z v) →
  let len := sf_magnitude prec emax (x v) (y v) (z v) in
  let inv := SFdiv prec emax (S754_finite false m1 e1) len in
  SF_approximates (7 * eps32) 0 len (exact_magnitude v) ∧
  (∃ ml el, len = S754_finite false ml el) ∧
  SF_normalized (12 * eps32) (bpow (SpecFloat.emin prec emax)) v
    (mkVec3 (SFmul prec emax (x v) inv) (SFmul prec emax (y v) inv)
            (SFmul prec emax (z v) inv)).
Proof.
  intros Hprec Hemax HB0 HBmax HBmin HBdiv Hone1 Hone2 Hvx Hvy Hvz
    ((Hfx & Hfy & Hfz) & (Hx & Hy & Hz) & Hlow) len inv.
  destruct (sf_normalize_accuracy prec emax Hprec Hemax B HB0 HBmax HBmin HBdiv
              m1 e1 Hone1 Hone2 (x v) (y v) (z v)
              Hvx Hvy Hvz Hfx Hfy Hfz Hx Hy Hz Hlow)
    as (ml & el & Hlen & Hbound & HR & Hcomp).
  rewrite <- exact_magnitude_abs in Hbound, HR, Hcomp.
  fold len in Hlen, Hcomp. fold inv in Hcomp.
  set (R := exact_magnitude v) in *.
  pose proof (SFabsR_nonneg (x v)) as HX.
  pose proof (SFabsR_nonneg (y v)) as HY.
  pose proof (SFabsR_nonneg (z v)) as HZ.
  assert (SFabsR (x v) <= R ∧ SFabsR (y v) <= R ∧ SFabsR (z v) <= R)
    as (HxR & HyR & HzR).
  { unfold R. rewrite exact_magnitude_abs.
    split; [|split].
    - apply (component_le_magnitude _ _ _ HX).
    - apply (component_le_magnitude _ (SFabsR (x v)) (SFabsR (z v)) HY).
    - apply (component_le_magnitude _ (SFabsR (x v)) (SFabsR (y v)) HZ). }
  assert (0 <= / R) as HW by (left; by apply Rinv_0_lt_compat).
  split; [|split; [by eauto|]].
  - rewrite Hlen. split; [done|]. cbn [SF2R].
    rewrite (Rabs_pos_eq R) by lra. apply Rabs_le. lra.
  - unfold SF_normalized. cbn [x y z].
    split; [|split].
    + destruct (Hcomp (x v) Hvx Hfx HxR) as (Hf & Hs & Hb).
      apply SF_approximates_intro; [done|lra|done..].
    + destruct (Hcomp (y v) Hvy Hfy HyR) as (Hf & Hs & Hb).
      apply SF_approximates_intro; [done|lra|done..].
    + destruct (Hcomp (z v) Hvz Hfz HzR) as (Hf & Hs & Hb).
      apply SF_approximates_intro; [done|lra|done..].
Qed.
End VectorAccuracy.

Section ProgramAccuracy.
Local Open Scope R_scope.

Lemma sf_normalize_float (v : Vec3 c_float) :
  float_safe v →
  let len := sf_magnitude 24 128 (x v) (y v) (z v) in
  let inv := SFdiv 24 128 (S754_finite false 8388608 (-23)) len in
  SF_approximates (7 * eps32) 0 len (exact_magnitude v) ∧
  (∃ ml el, len = S754_finite false ml el) ∧
  SF_normalized (12 * eps32) (bpow (-149)) v
    (mkVec3 (SFmul 24 128 (x v) inv) (SFmul 24 128 (y v) inv)
            (SFmul 24 128 (z v) inv)).
Proof.
  intros ((Hvx & Hvy & Hvz) & Hrange).
  exact (sf_normalize_vector 24 128 59 8388608 (-23) v
           ltac:(lia) ltac:(lia) ltac:(lia) ltac:(lia)
           ltac:(vm_compute; discriminate) ltac:(vm_compute; discriminate)
           eq_refl F2R_one_binary32 Hvx Hvy Hvz Hrange).
Qed.

Lemma sf_normalize_double (v : Vec3 c_double) :
  double_safe v →
  let len := sf_magnitude 53 1024 (Prim2SF (x v)) (Prim2SF (y v))
               (Prim2SF (z v)) in
  let inv := SFdiv 53 1024 (S754_finite false 4503599627370496 (-52)) len in
  SF_approximates (7 * eps32) 0 len (exact_magnitude (Prim2SF_vector v)) ∧
  (∃ ml el, len = S754_finite false ml el) ∧
  SF_normalized (12 * eps32) (bpow (-1074)) (Prim2SF_vector v)
    (mkVec3 (SFmul 53 1024 (Prim2SF (x v)) inv)
            (SFmul 53 1024 (Prim2SF (y v)) inv)
            (SFmul 53 1024 (Prim2SF (z v)) inv)).
Proof.
  intros Hrange.
  exact (sf_normalize_vector 53 1024 509 4503599627370496 (-52)
           (Prim2SF_vector v)
           ltac:(lia) ltac:(lia) ltac:(lia) ltac:(lia)
           ltac:(vm_compute; discriminate) ltac:(vm_compute; discriminate)
           eq_refl F2R_one_binary64
           (Prim2SF_valid _) (Prim2SF_valid _) (Prim2SF_valid _) Hrange).
Qed.

(** X15: [magnitude] is accurate: for vectors in the safe range the computed
    magnitude is the exact one, the square root of the sum of the squares
    of the components, up to a relative error of [7 * 2^-23], in [float]
    and in [double]. *)
Theorem magnitude_accuracy :
  (∀ (σ : store (Vec3 c_float)) l v,
     σ !! l = Some v → float_safe v →
     ∃ m, Vec3_magnitude l σ = Ok m σ ∧ magnitude l σ = Ok m σ ∧
          SF_approximates (7 * eps32) 0 m (exact_magnitude v)) ∧
  (∀ (σ : store (Vec3 c_double)) l v,
     σ !! l = Some v → double_safe v →
     ∃ m, Vec3_magnitude l σ = Ok m σ ∧ magnitude l σ = Ok m σ ∧
          SF_approximates (7 * eps32) 0 (Prim2SF m)
            (exact_magnitude (Prim2SF_vector v))).
Proof.
  split; intros σ l v Hl Hsafe; eexists;
    (split; [exact (run_Vec3_magnitude σ l v Hl)|]);
    (split; [exact (run_magnitude σ l v Hl)|]).
  - exact (proj1 (sf_normalize_float v Hsafe)).
  - cbn [tsqrt tadd tmul double_Scalar]. rewrite Prim2SF_magnitude.
    exact (proj1 (sf_normalize_double v Hsafe)).
Qed.

(** X16: [normalize] keeps the direction: for vectors in the safe range every
    component it stores is the component divided by the exact magnitude,
    up to a relative error of [12 * 2^-23] and the smallest positive
    number of the format. *)
Theorem normalize_accuracy :
  (∀ (σ : store (Vec3 c_float)) l v,
     σ !! l = Some v → float_safe v →
     ∃ v', Vec3_normalize l σ = Ok l (<[l := v']> σ) ∧
           normalize l σ = Ok tt (<[l := v']> σ) ∧
           SF_normalized (12 * eps32) (bpow (-149)) v v') ∧
  (∀ (σ : store (Vec3 c_double)) l v,
     σ !! l = Some v → double_safe v →
     ∃ v', Vec3_normalize l σ = Ok l (<[l := v']> σ) ∧
           normalize l σ = Ok tt (<[l := v']> σ) ∧
           SF_normalized (12 * eps32) (bpow (-1074)) (Prim2SF_vector v)
             (Prim2SF_vector v')).
Proof.
  split; intros σ l v Hl Hsafe.
  - destruct (sf_normalize_float v Hsafe) as (_ & _ & Hnorm).
    cbv zeta in Hnorm.
    set (inv := SFdiv 24 128 (S754_finite false 8388608 (-23))
                  (sf_magnitude 24 128 (x v) (y v) (z v))) in *.
    destruct (run_normalize_positive σ l v inv Hl
                (float_safe_positive v Hsafe) eq_refl) as [Hm Hf].
    eexists. split; [exact Hm|]. split; [exact Hf|]. exact Hnorm.
  - destruct (sf_normalize_double v Hsafe) as (_ & _ & Hnorm).
    cbv zeta in Hnorm.
    set (len := PrimFloat.sqrt (x v * x v + y v * y v + z v * z v)%float).
    set (inv := (1 / len)%float).
    destruct (run_normalize_positive σ l v inv Hl
                (double_safe_positive v Hsafe) eq_refl) as [Hm Hf].
    eexists. split; [exact Hm|]. split; [exact Hf|].
    unfold Prim2SF_vector at 2. cbn [x y z tmul double_Scalar].
    rewrite !mul_spec. unfold SF64mul.
    assert (Prim2SF inv =
            SFdiv 53 1024 (S754_finite false 4503599627370496 (-52))
              (sf_magnitude 53 1024 (Prim2SF (x v)) (Prim2SF (y v))
                 (Prim2SF (z v)))) as ->
      by (unfold inv, len; by rewrite div_spec, Prim2SF_magnitude).
    exact Hnorm.
Qed.
End ProgramAccuracy.

Lemma SFsqrt_nonneg prec emax a :
  SF_nonneg a → SF_nonneg (SFsqrt prec emax a).
Proof.
  destruct a as [s|s| |s m e]; cbn [SF_nonneg]; intros Ha; try done; subst;
    try done.
  cbn [SFsqrt]. unfold SFsqrt_core_binary.
  destruct (Z.sqrtrem _) as [q r] eqn:Hqr.
  apply binary_round_aux_nonneg.
  replace q with (Z.sqrtrem
    match (e - 2 * Z.min (fexp prec emax (Z.div2 (Zdigits2 (Z.pos m) + e + 1)))
                     (Z.div2 e))%Z with
    | 0%Z => Z.pos m
    | Z.pos _ =>
        Z.shiftl (Z.pos m)
          (e - 2 * Z.min (fexp prec emax (Z.div2 (Zdigits2 (Z.pos m) + e + 1)))
                     (Z.div2 e))
    | Z.neg _ => 0%Z
    end).1 by (by rewrite Hqr).
  rewrite Z.sqrtrem_sqrt. apply Z.sqrt_nonneg.
Qed.

Lemma sf_magnitude_nonneg prec emax a b c :
  ¬ SF_some_nan a b c →
  SF_nonneg (sf_sqr_sum prec emax a b c) ∧
  SF_nonneg (sf_magnitude prec emax a b c).
Proof.
  intros Hnan. unfold SF_some_nan in Hnan.
  assert (a ≠ S754_nan ∧ b ≠ S754_nan ∧ c ≠ S754_nan) as (Ha & Hb & Hc)
    by (repeat split; intros ->; tauto).
  assert (SF_nonneg (sf_sqr_sum prec emax a b c)) as Hs.
  { unfold sf_sqr_sum.
    apply SFadd_nonneg; [apply SFadd_nonneg|]; by apply SFmul_square_nonneg. }
  split; [done|]. unfold sf_magnitude. by apply SFsqrt_nonneg.
Qed.

(** X17: In [float] and in [double], on a vector without a NaN component,
    [sqrMagnitude] and [magnitude] are never negative, never [-0] and never
    NaN: each is [+0], a positive number or [+infinity]. *)
Theorem magnitude_nonnegative :
  magnitudes_satisfy (T:=c_float)
    (λ v, ¬ SF_some_nan (x v) (y v) (z v)) SF_nonneg ∧
  magnitudes_satisfy (T:=c_double)
    (λ v, ¬ SF_some_nan (Prim2SF (x v)) (Prim2SF (y v)) (Prim2SF (z v)))
    (λ c, SF_nonneg (Prim2SF c)).
Proof.
  split; intros σ l v Hl Hnan; eexists _, _;
    (split; [exact (run_Vec3_sqrMagnitude σ l v Hl)|]);
    (split; [by run|]);
    (split; [exact (run_Vec3_magnitude σ l v Hl)|]);
    (split; [exact (run_magnitude σ l v Hl)|]).
  - exact (sf_magnitude_nonneg 24 128 _ _ _ Hnan).
  - cbn [tsqrt tadd tmul double_Scalar]. rewrite Prim2SF_magnitude.
    rewrite !add_spec, !mul_spec.
    exact (sf_magnitude_nonneg 53 1024 _ _ _ Hnan).
Qed.

(** In [int] the squared magnitude can be negative: [46341 * 46341] wraps
    around. *)
Lemma sqrMagnitude_int_negative :
  Vec3_sqrMagnitude (T:=c_int) 1 (one_object (vec_of_ints 46341 0 0)) =
  Ok (-2147479015)%Z (one_object (vec_of_ints 46341 0 0)).
Proof. vm_compute. reflexivity. Qed.

Section IntegerSquareRoot.
Local Open Scope R_scope.

Section Floor.
Variables prec emax : Z.
Hypothesis Hprec : (2 ≤ prec)%Z.
Hypothesis Hemax : (prec < emax)%Z.

Local Abbreviation fexp' := (SpecFloat.fexp prec emax).
Local Abbreviation emin' := (SpecFloat.emin prec emax).

(** Rounding never goes below the truncation of the mantissa to the
    exponent of the result. *)
Lemma binary_round_aux_floor s (m e : Z) l r :
  (0 < m)%Z →
  (e ≤ fexp' (Zdigits2 m + e))%Z →
  F2R m e <= r < F2R (m + 1) e →
  r < bpow (emax - 1) →
  F2R (m / 2 ^ (fexp' (Zdigits2 m + e) - e)) (fexp' (Zdigits2 m + e))
    <= SFabsR (binary_round_aux prec emax s m e l).
Proof.
  intros Hm Hwide Hr Hmax.
  destruct (binary_round_aux_error prec emax Hprec Hemax s m e l r
              Hm Hwide Hr Hmax) as (Hfin & _ & _).
  revert Hfin. unfold binary_round_aux.
  destruct (shr_fexp prec emax m e l) as [mrs' e'] eqn:Hshr1.
  apply shr_fexp_spec in Hshr1 as (He' & Hm' & Hd'); [|lia|done].
  pose proof (round_nearest_even_cases (shr_m mrs') (loc_of_shr_record mrs'))
    as Hrne.
  set (m1 := round_nearest_even _ _) in *.
  set (m' := shr_m mrs') in *.
  assert (0 ≤ m')%Z as Hm'pos by (rewrite Hm'; apply Z.div_pos; lia).
  pose proof (round_wide prec emax Hprec m e e' m' m1 ltac:(lia) Hwide He' Hm'
                Hd' Hrne) as Hwide1.
  destruct (shr_fexp prec emax m1 e' loc_Exact) as [mrs'' e''] eqn:Hshr2.
  apply shr_fexp_spec in Hshr2 as (He'' & Hm'' & Hd''); [|lia|done].
  destruct (second_shift_exact prec emax Hprec m e e' m' m1 e''
              Hm Hwide He' Hm' Hd' Hrne He'') as [Hee Hexact].
  rewrite <- Hm'' in Hexact.
  assert (F2R m' e' <= F2R m1 e') as Hge
    by (destruct Hrne as [->| ->]; [lra|apply F2R_le; lia]).
  rewrite <- He', <- Hm'.
  destruct (shr_m mrs'') as [|p|p] eqn:Hp.
  - intros _. cbn [SFabsR]. rewrite <- Hexact in Hge. unfold F2R in Hge at 2.
    rewrite Rmult_0_l in Hge. exact Hge.
  - destruct (e'' <=? emax - prec)%Z eqn:Hfit; [|done].
    intros _. cbn [SFabsR]. by rewrite Hexact.
  - done.
Qed.
(** The computed square root of a number that is at least [K * K], for an
    integer [K], is at least [K], when it is below [2^(prec-1)], where
    the integers are floating-point numbers. *)
Lemma SFsqrt_floor m e (K : Z) :
  bounded prec emax m e = true →
  (0 ≤ K)%Z →
  IZR K * IZR K <= F2R (Z.pos m) e →
  R_sqrt.sqrt (F2R (Z.pos m) e) < bpow (emax - 1) →
  R_sqrt.sqrt (F2R (Z.pos m) e) < bpow (prec - 1) →
  IZR K <= SFabsR (SFsqrt prec emax (S754_finite false m e)).
Proof.
  intros Hb HK HKV Hmax Hsmall. cbn [SFsqrt]. unfold SFsqrt_core_binary.
  set (d := Zdigits2 (Z.pos m)).
  set (e' := Z.min (fexp' (Z.div2 (d + e + 1))) (Z.div2 e)).
  set (s := (e - 2 * e')%Z).
  assert (0 ≤ s)%Z as Hs
    by (unfold s, e'; rewrite (Z.div2_div e); pose proof (Z.mul_div_le e 2);
        lia).
  set (m' := match s with
             | Z.pos _ => Z.shiftl (Z.pos m) s
             | 0%Z => Z.pos m
             | Z.neg _ => 0%Z
             end).
  assert (m' = Z.pos m * 2 ^ s)%Z as Hm'.
  { unfold m'. destruct s as [|p|p] eqn:Hp; [lia| |lia].
    by rewrite Z.shiftl_mul_pow2. }
  assert (0 < m')%Z as Hm'pos
    by (rewrite Hm'; pose proof (Z.pow_pos_nonneg 2 s); nia).
  pose proof (Z.sqrtrem_spec m' ltac:(lia)) as Hspec.
  destruct (Z.sqrtrem m') as [q r]. destruct Hspec as [Heq Hr].
  assert (0 < q)%Z as Hq by nia.
  set (l := if (r =? 0)%Z then loc_Exact else _).
  assert (e' ≤ fexp' (Zdigits2 q + e'))%Z as Hwide.
  { pose proof (Zdigits2_bounds q Hq) as [_ Hqhi].
    assert (Zdigits2 m' = d + s)%Z as Hdm'
      by (rewrite Hm'; by apply Zdigits2_mul_pow2).
    pose proof (Zdigits2_bounds m' Hm'pos) as [Hm'lo _].
    assert (0 < Zdigits2 q)%Z as Hdq
      by (rewrite Zdigits2_log2 by done; pose proof (Z.log2_nonneg q); lia).
    assert (m' < 2 ^ (2 * Zdigits2 q))%Z as Hlt.
    { replace (2 * Zdigits2 q)%Z with (Zdigits2 q + Zdigits2 q)%Z by lia.
      rewrite Z.pow_add_r by lia. nia. }
    assert (Zdigits2 m' - 1 < 2 * Zdigits2 q)%Z as Hdig.
    { apply (Z.pow_lt_mono_r_iff 2); lia. }
    assert (Z.div2 (d + e + 1) ≤ Zdigits2 q + e')%Z as Hhalf.
    { assert (Z.div2 (d + e + 1) < Zdigits2 q + e' + 1)%Z; [|lia].
      rewrite Z.div2_div. apply Z.div_lt_upper_bound; [lia|].
      rewrite Hdm' in Hdig. unfold s in Hdig. lia. }
    pose proof (fexp_mono prec emax _ _ Hhalf). lia. }
  assert (F2R (Z.pos m) e = IZR m' * (bpow e' * bpow e')) as Hval.
  { rewrite <- (F2R_shift (Z.pos m) e s Hs), <- Hm'. unfold F2R.
    rewrite <- bpow_add. do 2 f_equal. lia. }
  assert (R_sqrt.sqrt (F2R (Z.pos m) e) = R_sqrt.sqrt (IZR m') * bpow e')
    as Hsqrt.
  { rewrite Hval, sqrt_mult, sqrt_square;
      [done|pose proof (bpow_pos e'); lra|apply IZR_le; lia|
       pose proof (bpow_pos e'); nra]. }
  pose proof (sqrt_bracket q m' ltac:(lia) ltac:(nia)) as [Hblo Hbhi].
  pose proof (bpow_pos e') as Hbe'.
  assert (F2R q e' <= R_sqrt.sqrt (F2R (Z.pos m) e) < F2R (q + 1) e') as Hbr
    by (rewrite Hsqrt; unfold F2R; split; nra).
  apply Rle_trans
    with (F2R (q / 2 ^ (fexp' (Zdigits2 q + e') - e')) (fexp' (Zdigits2 q + e')));
    [|by apply (binary_round_aux_floor false q e' l
                  (R_sqrt.sqrt (F2R (Z.pos m) e)))].
  set (e1 := fexp' (Zdigits2 q + e')) in *.
  (* the exponent of the result is not positive *)
  assert (e1 ≤ 0)%Z as He1.
  { pose proof (F2R_bounds q e' Hq) as [Hlo _].
    assert (bpow (Zdigits2 q - 1 + e') < bpow (prec - 1)) as Hlt by lra.
    apply bpow_lt_inv in Hlt.
    unfold e1, SpecFloat.fexp, SpecFloat.emin. lia. }
  (* [K], scaled to the exponent [e'], is below the integer square root *)
  set (K' := (K * 2 ^ (- e'))%Z).
  assert (IZR K' = IZR K * bpow (- e')) as HK'
    by (unfold K'; rewrite mult_IZR, <- bpow_IZR by lia; done).
  assert (bpow (- e') * bpow e' = 1) as Hinv
    by (rewrite <- bpow_add, <- bpow_0; f_equal; lia).
  assert (K' * K' ≤ m')%Z as HK'm.
  { apply le_IZR. rewrite mult_IZR, HK'.
    pose proof (bpow_pos (- e')) as Hbne.
    assert (IZR K * IZR K * (bpow (- e') * bpow (- e'))
            <= IZR m' * (bpow e' * bpow e') * (bpow (- e') * bpow (- e')))
      as Hmul by (rewrite <- Hval; apply Rmult_le_compat_r; nra).
    replace (IZR m' * (bpow e' * bpow e') * (bpow (- e') * bpow (- e')))
      with (IZR m' * ((bpow (- e') * bpow e') * (bpow (- e') * bpow e')))
      in Hmul by ring.
    rewrite Hinv in Hmul. lra. }
  assert (0 ≤ K')%Z as HK'0
    by (unfold K'; pose proof (Z.pow_pos_nonneg 2 (- e')); nia).
  assert (K' ≤ q)%Z as HK'q by nia.
  assert (K * 2 ^ (- e1) ≤ q / 2 ^ (e1 - e'))%Z as Hdiv.
  { assert (0 < 2 ^ (e1 - e'))%Z by (apply Z.pow_pos_nonneg; lia).
    apply Z.div_le_lower_bound; [done|].
    replace (2 ^ (e1 - e') * (K * 2 ^ (- e1)))%Z with K'; [done|].
    unfold K'. replace (- e')%Z with ((e1 - e') + (- e1))%Z at 1 by lia.
    rewrite Z.pow_add_r by lia. ring. }
  apply Rle_trans with (F2R (K * 2 ^ (- e1)) e1); [|by apply F2R_le].
  replace e1 with (0 - (- e1))%Z at 2 by lia.
  rewrite F2R_shift by lia. unfold F2R. rewrite bpow_0. lra.
Qed.

End Floor.
(** An integer of at most [prec] bits is a floating-point number:
    converting it is exact. *)
Lemma binary_round_small prec emax s p :
  (Z.pos (digits2_pos p) ≤ prec)%Z → (prec ≤ emax)%Z →
  (SpecFloat.emin prec emax ≤ 1 - prec)%Z →
  ∃ m e, binary_round prec emax s p 0 = S754_finite s m e ∧
         F2R (Z.pos m) e = IZR (Z.pos p).
Proof.
  intros Hd Hemax Hemin. unfold binary_round.
  pose proof (shl_align_value p 0
                (fexp prec emax (Z.pos (digits2_pos p) + 0))) as Hvalue.
  assert (fexp prec emax (Z.pos (digits2_pos p) + 0)
          = Z.pos (digits2_pos p) - prec)%Z as Hfexp
    by (unfold SpecFloat.fexp; lia).
  assert (fexp prec emax
            (Z.pos (digits2_pos
                      (shl_align p 0 (Z.pos (digits2_pos p) - prec)).1)
             + (shl_align p 0 (Z.pos (digits2_pos p) - prec)).2)
          = (shl_align p 0 (Z.pos (digits2_pos p) - prec)).2) as Hcanon.
  { unfold shl_align.
    destruct (Z.pos (digits2_pos p) - prec - 0)%Z as [|k|k] eqn:Hk;
      cbn [fst snd]; [unfold SpecFloat.fexp; lia..|].
    rewrite digits2_iter_xO. unfold SpecFloat.fexp. lia. }
  rewrite Hfexp in *.
  destruct (shl_align p 0 (Z.pos (digits2_pos p) - prec)) as [mz ez] eqn:Hal.
  cbn [fst snd] in *.
  assert (ez ≤ emax - prec)%Z as Hfit.
  { unfold shl_align in Hal.
    destruct (Z.pos (digits2_pos p) - prec - 0)%Z as [|k|k] eqn:Hk;
      injection Hal as <- <-; lia. }
  exists mz, ez. split.
  - unfold binary_round_aux. rewrite (shr_fexp_canonical _ _ _ _ Hcanon).
    cbn [shr_m loc_of_shr_record round_nearest_even].
    rewrite (shr_fexp_canonical _ _ _ _ Hcanon). cbn [shr_m].
    apply Z.leb_le in Hfit. by rewrite Hfit.
  - rewrite Hvalue. unfold F2R. rewrite bpow_0. lra.
Qed.

(** [int] to [double] is exact. *)
Lemma to_double_exact (n : Z) :
  (0 < n < 2 ^ 53)%Z →
  ∃ m e, Prim2SF (Int32.to_double n) = S754_finite false m e ∧
         F2R (Z.pos m) e = IZR n.
Proof.
  intros Hn. unfold Int32.to_double.
  destruct (n <? 0)%Z eqn:Hneg; [apply Z.ltb_lt in Hneg; lia|].
  rewrite of_uint63_spec, Uint63.of_Z_spec.
  assert (Uint63.wB = 2 ^ 63)%Z as -> by reflexivity.
  rewrite Z.mod_small by lia.
  destruct n as [|p|p]; [lia| |lia]. cbn [binary_normalize].
  apply binary_round_small; [|done..].
  change (Z.pos (digits2_pos p)) with (Zdigits2 (Z.pos p)).
  change prec with 53%Z.
  pose proof (Zdigits2_bounds (Z.pos p) ltac:(done)) as [Hlo _].
  assert (2 ^ (Zdigits2 (Z.pos p) - 1) < 2 ^ 53)%Z as Hlt by lia.
  apply Z.pow_lt_mono_r_iff in Hlt; lia.
Qed.

(** [double] to [int] truncates. *)
Lemma of_double_floor (f : float) m e (K : Z) :
  Prim2SF f = S754_finite false m e →
  IZR K <= F2R (Z.pos m) e < IZR (K + 1) →
  (0 ≤ K ≤ Int32.max_int)%Z →
  Int32.of_double f = K.
Proof.
  intros Hf [Hlo Hhi] HK. unfold Int32.of_double. rewrite Hf.
  assert ((if (0 <=? e)%Z then Z.pos m * 2 ^ e else Z.pos m / 2 ^ (- e))%Z = K)
    as ->.
  { destruct (0 <=? e)%Z eqn:He.
    - apply Z.leb_le in He. unfold F2R in Hlo, Hhi.
      rewrite bpow_IZR, <- mult_IZR in Hlo, Hhi by done.
      apply le_IZR in Hlo. apply lt_IZR in Hhi. lia.
    - apply Z.leb_gt in He.
      assert (0 < 2 ^ (- e))%Z as Hpow by (apply Z.pow_pos_nonneg; lia).
      assert (F2R (Z.pos m) e * bpow (- e) = IZR (Z.pos m)) as Hm.
      { unfold F2R. rewrite Rmult_assoc, <- bpow_add.
        replace (e + - e)%Z with 0%Z by lia. rewrite bpow_0. lra. }
      pose proof (bpow_pos (- e)) as Hb.
      assert (IZR (K * 2 ^ (- e)) <= IZR (Z.pos m) < IZR ((K + 1) * 2 ^ (- e)))
        as [Hlo' Hhi'].
      { rewrite !mult_IZR, <- !bpow_IZR by lia. rewrite <- Hm. split; nra. }
      apply le_IZR in Hlo'. apply lt_IZR in Hhi'.
      symmetry. apply (Z.div_unique _ _ _ (Z.pos m - K * 2 ^ (- e))); lia. }
  unfold Int32.min_int in *. unfold Int32.max_int in *.
  destruct ((- 2 ^ 31 <=? K)%Z && (K <=? 2 ^ 31 - 1)%Z) eqn:Hrange; [done|].
  apply andb_false_iff in Hrange as [H|H]; [apply Z.leb_gt in H|apply Z.leb_gt in H];
    lia.
Qed.

(** The gap between the square root of an integer below [2^32] and the
    next integer exceeds the rounding error of the [double] square
    root. *)
Lemma sqrt_gap (n K : Z) (a : R) :
  (0 ≤ K)%Z → (K * K ≤ n < (K + 1) * (K + 1))%Z → (n < 2 ^ 32)%Z →
  a <= R_sqrt.sqrt (IZR n) + (/ 4503599627370496 * R_sqrt.sqrt (IZR n)
                              + / 4503599627370496) →
  a < IZR (K + 1).
Proof.
  intros HK [Hlo Hhi] Hn Ha.
  assert (0 ≤ n)%Z as Hn0 by nia.
  assert (K + 1 ≤ 65536)%Z as HK1 by nia.
  set (s := R_sqrt.sqrt (IZR n)) in *.
  assert (s * s = IZR n) as Hss by (apply sqrt_sqrt; by apply IZR_le).
  assert (0 <= s) as Hs0 by apply sqrt_pos.
  assert (IZR n + 1 <= IZR (K + 1) * IZR (K + 1)) as Hsq
    by (rewrite <- mult_IZR, <- plus_IZR; apply IZR_le; lia).
  assert (1 <= IZR (K + 1) <= 65536) as [HKlo HKhi]
    by (split; apply IZR_le; lia).
  set (k := IZR (K + 1)) in *.
  assert (s <= k) as Hsk by (apply sq_le; [done|lra|nra]).
  assert (1 <= (k - s) * (k + s)) as Hprod by nra.
  assert (/ 131072 <= k - s) as Hgap.
  { assert (k + s <= 131072) by lra.
    assert (0 <= k - s) by lra.
    destruct (Rle_or_lt (/ 131072) (k - s)) as [|Hlt]; [done|exfalso].
    assert ((k - s) * (k + s) < / 131072 * 131072) by nra. lra. }
  lra.
Qed.

(** The square root on [int]: [sqrt(n)], computed in [double] and
    converted back, is the integer square root of [n], for every
    non-negative [int]. *)
Lemma Int32_sqrt_spec (n : Z) :
  (0 ≤ n ≤ Int32.max_int)%Z → Int32.sqrt n = Z.sqrt n.
Proof.
  intros [Hn0 Hnmax]. unfold Int32.max_int in Hnmax.
  destruct (decide (n = 0%Z)) as [->|Hne]; [by vm_compute|].
  assert (0 < n)%Z as Hnpos by lia.
  pose proof (Z.sqrt_spec n Hn0) as Hsqrt. cbv zeta in Hsqrt.
  set (K := Z.sqrt n) in *.
  assert (0 ≤ K)%Z as HK0 by apply Z.sqrt_nonneg.
  assert (1 ≤ K)%Z as HK1 by nia.
  assert (K + 1 ≤ 65536)%Z as HKhi by nia.
  destruct (to_double_exact n ltac:(lia)) as (mn & en & Hdouble & Hvalue).
  pose proof (Prim2SF_valid (Int32.to_double n)) as Hvalid.
  rewrite Hdouble in Hvalid. cbn [SpecFloat.valid_binary] in Hvalid.
  unfold Int32.sqrt.
  pose proof (FloatAxioms.sqrt_spec (Int32.to_double n)) as Hspec.
  rewrite Hdouble in Hspec. unfold SF64sqrt in Hspec.
  pose proof (sqrt_bracket K n HK0 ltac:(lia)) as [Hblo Hbhi].
  assert (IZR (K + 1) <= 65536) as HKR by (apply IZR_le; lia).
  assert (bpow 16 = 65536) as Hb16 by (rewrite bpow_IZR by lia; done).
  assert (R_sqrt.sqrt (F2R (Z.pos mn) en) < bpow 16) as Hs16
    by (rewrite Hvalue; lra).
  pose proof (bpow_le 16 (prec - 1) ltac:(done)) as Hple.
  pose proof (bpow_le 16 (emax - 1) ltac:(done)) as Hele.
  destruct (SFsqrt_error prec emax ltac:(done) ltac:(done) mn en Hvalid)
    as (Hfin & Hsign & _ & [_ Hhi]); [lra|].
  pose proof (SFsqrt_floor prec emax ltac:(done) ltac:(done) mn en K Hvalid HK0)
    as Hfloor.
  rewrite Hvalue in Hfloor, Hhi.
  specialize (Hfloor ltac:(rewrite <- mult_IZR; apply IZR_le; lia)
                     ltac:(lra) ltac:(lra)).
  rewrite <- Hspec in Hfin, Hsign, Hfloor, Hhi.
  set (f := PrimFloat.sqrt (Int32.to_double n)) in *.
  assert (bpow (1 - prec) = / 4503599627370496) as Heps.
  { change (1 - prec)%Z with (- (52))%Z. rewrite bpow_opp, bpow_IZR by lia.
    done. }
  assert (bpow (SpecFloat.emin prec emax) <= / 4503599627370496) as Heta
    by (rewrite <- Heps; apply bpow_le; done).
  rewrite Heps in Hhi.
  assert (SFabsR (Prim2SF f) < IZR (K + 1)) as Hupper.
  { apply (sqrt_gap n K); [done|lia|lia|].
    pose proof (sqrt_pos (IZR n)). lra. }
  assert (0 < SFabsR (Prim2SF f)) as Hpos
    by (assert (1 <= IZR K) by (apply IZR_le; lia); lra).
  destruct (SFfinite_positive (Prim2SF f) Hfin Hsign Hpos) as (mf & ef & Hf).
  rewrite Hf in Hfloor, Hupper. cbn [SFabsR] in Hfloor, Hupper.
  apply (of_double_floor f mf ef K Hf); [done|].
  unfold Int32.max_int. lia.
Qed.

End IntegerSquareRoot.

Lemma int_sqr_sum_exact (v : Vec3 c_int) :
  (int_sum_of_squares v ≤ Int32.max_int)%Z →
  (x v * x v + y v * y v + z v * z v)%S = int_sum_of_squares v.
Proof.
  unfold int_sum_of_squares, Int32.max_int. intros Hsum.
  pose proof (Z.square_nonneg (x v)). pose proof (Z.square_nonneg (y v)).
  pose proof (Z.square_nonneg (z v)).
  cbn [tadd tmul int_Scalar]. unfold Int32.add, Int32.mul.
  rewrite (wrap_id (x v * x v)), (wrap_id (y v * y v)), (wrap_id (z v * z v)),
    (wrap_id (x v * x v + y v * y v)), wrap_id;
    unfold int_range, Int32.min_int, Int32.max_int; lia.
Qed.

(** X18: On a [Vec3i] whose sum of squares does not overflow, [sqrMagnitude]
    returns the sum of the squares and [magnitude] returns its integer
    square root: the magnitude rounded toward zero. *)
Theorem magnitude_int (σ : store (Vec3 c_int)) l v :
  σ !! l = Some v →
  (int_sum_of_squares v ≤ Int32.max_int)%Z →
  (Vec3_sqrMagnitude l σ = Ok (int_sum_of_squares v) σ ∧
   sqrMagnitude l σ = Ok (int_sum_of_squares v) σ) ∧
  (Vec3_magnitude l σ = Ok (Z.sqrt (int_sum_of_squares v)) σ ∧
   magnitude l σ = Ok (Z.sqrt (int_sum_of_squares v)) σ).
Proof.
  intros Hl Hsum.
  assert (0 ≤ int_sum_of_squares v)%Z as Hpos
    by (unfold int_sum_of_squares; nia).
  assert (Vec3_sqrMagnitude l σ = Ok (int_sum_of_squares v) σ ∧
          sqrMagnitude l σ = Ok (int_sum_of_squares v) σ) as Hsqr.
  { rewrite <- (int_sqr_sum_exact v Hsum). split; by run. }
  split; [done|].
  rewrite (run_Vec3_magnitude σ l v Hl), (run_magnitude σ l v Hl).
  rewrite (int_sqr_sum_exact v Hsum). cbn [tsqrt int_Scalar].
  by rewrite (Int32_sqrt_spec _ (conj Hpos Hsum)).
Qed.

Lemma magnitude_int_example :
  Vec3_sqrMagnitude (T:=c_int) 1 (one_object (vec_of_ints 2 3 6)) =
    Ok 49%Z (one_object (vec_of_ints 2 3 6)) ∧
  Vec3_magnitude (T:=c_int) 1 (one_object (vec_of_ints 1 1 1)) =
    Ok 1%Z (one_object (vec_of_ints 1 1 1)).
Proof.
  split.
  - refine (proj1 (proj1 (magnitude_int (one_object (vec_of_ints 2 3 6))
                            1%positive (vec_of_ints 2 3 6) eq_refl _))).
    vm_compute. discriminate.
  - refine (proj1 (proj2 (magnitude_int (one_object (vec_of_ints 1 1 1))
                            1%positive (vec_of_ints 1 1 1) eq_refl _))).
    vm_compute. discriminate.
Defined.

(** X19: On a [Vec3i] whose sum of squares does not overflow, [normalize]
    leaves the vector as it is when the sum of squares is at most [3] and
    stores [(0, 0, 0)] when it is at least [4]. *)
Theorem normalize_int_by_components (σ : store (Vec3 c_int)) l v :
  σ !! l = Some v → int_vector v →
  (int_sum_of_squares v ≤ Int32.max_int)%Z →
  ((int_sum_of_squares v ≤ 3)%Z →
     Vec3_normalize l σ = Ok l σ ∧ normalize l σ = Ok tt σ) ∧
  ((4 ≤ int_sum_of_squares v)%Z →
     Vec3_normalize l σ = Ok l (<[l := Vec3_ctor0]> σ) ∧
     normalize l σ = Ok tt (<[l := Vec3_ctor0]> σ)).
Proof.
  intros Hl Hv Hsum.
  assert (0 ≤ int_sum_of_squares v)%Z as Hpos
    by (unfold int_sum_of_squares; nia).
  assert (tsqrt (x v * x v + y v * y v + z v * z v)%S
          = Z.sqrt (int_sum_of_squares v)) as Hlen.
  { rewrite (int_sqr_sum_exact v Hsum). cbn [tsqrt int_Scalar].
    by apply Int32_sqrt_spec. }
  destruct (run_normalize_int σ l v _ Hl Hv Hlen) as [Hm Hf].
  unfold int_normalized in Hm, Hf.
  pose proof (Z.sqrt_spec _ Hpos) as Hspec. cbv zeta in Hspec.
  pose proof (Z.sqrt_nonneg (int_sum_of_squares v)) as Hroot.
  set (s := int_sum_of_squares v) in *. set (k := Z.sqrt s) in *.
  clearbody s k. split; intros Hcase.
  - destruct (2 <=? k)%Z eqn:H2; [apply Z.leb_le in H2; nia|].
    by rewrite (insert_id σ l v Hl) in Hm, Hf.
  - destruct (2 <=? k)%Z eqn:H2; [done|apply Z.leb_gt in H2; nia].
Qed.

Lemma normalize_int_by_components_example :
  Vec3_normalize (T:=c_int) 1 (one_object (vec_of_ints 1 (-1) 1)) =
    Ok 1%positive (one_object (vec_of_ints 1 (-1) 1)) ∧
  Vec3_normalize (T:=c_int) 1 (one_object (vec_of_ints 0 2 0)) =
    Ok 1%positive (<[1%positive := Vec3_ctor0]> (one_object (vec_of_ints 0 2 0))).
Proof.
  split.
  - refine (proj1 (proj1 (normalize_int_by_components
                            (one_object (vec_of_ints 1 (-1) 1)) 1%positive
                            (vec_of_ints 1 (-1) 1) eq_refl _ _) _)).
    + apply int_vector_of_ints; apply int_range_small; lia.
    + vm_compute. discriminate.
    + vm_compute. discriminate.
  - refine (proj1 (proj2 (normalize_int_by_components
                            (one_object (vec_of_ints 0 2 0)) 1%positive
                            (vec_of_ints 0 2 0) eq_refl _ _) _)).
    + apply int_vector_of_ints; apply int_range_small; lia.
    + vm_compute. discriminate.
    + vm_compute. discriminate.
Defined.
